(** * A shallow embedding of the Go rules engine (js/game/rules.js), of the
      easy tier and the playouts of the move selector (js/game/ai.js), of
      the save slots and of the part of the game session that drives them.

    JavaScript numbers that hold coordinates, colours and counters are
    integers here ([Z]); the two scores, which carry the 7.5 komi, are
    rationals ([Q]).  A cell read [board[x][y]] yields [option Z], where
    [None] stands for JavaScript's [undefined].  A JavaScript [Set] of
    position keys is a duplicate-free list in insertion order; the key
    ["x,y"] of a position is the pair [(x, y)] itself. *)

From Stdlib Require Import ZArith QArith Qround Qabs Lia.
From Stdlib Require String.
From stdpp Require Import base numbers option list.
Import String.StringSyntax.

Local Open Scope Z_scope.
Delimit Scope string_scope with string.

(** ** Constants *)

Definition EMPTY : Z := 0.
Definition BLACK : Z := 1.
Definition WHITE : Z := 2.
Definition BOARD_SIZE : Z := 19.

(** ** Grid *)

Abbreviation Point := (Z * Z)%type.
Abbreviation Board := (list (list Z)).

(** [board[x][y]] as an expression.  Every read of the engine is guarded by
    [isOnBoard], so the row [board[x]] exists on the grids the engine
    builds; a missing cell reads as [undefined]. *)
Definition getCell (b : Board) (x y : Z) : option Z :=
  if bool_decide (0 ≤ x ∧ 0 ≤ y)
  then b !! Z.to_nat x ≫= λ row, row !! Z.to_nat y
  else None.

(** [board[x][y] = v].  The engine writes only cells it has just read a
    value from, so the index is in range at every write; outside the grid
    the list update leaves the grid as it is. *)
Definition setCell (b : Board) (x y v : Z) : Board :=
  if bool_decide (0 ≤ x ∧ 0 ≤ y)
  then alter (λ row, <[Z.to_nat y := v]> row) (Z.to_nat x) b
  else b.

(** [board.map(row => [...row])] *)
Definition copyBoard (b : Board) : Board :=
  (λ row : list Z, (λ c : Z, c) <$> row) <$> b.

Definition getOpponent (player : Z) : Z :=
  if bool_decide (player = BLACK) then WHITE else BLACK.

Definition isOnBoard (size x y : Z) : bool :=
  (0 <=? x) && (x <? size) && (0 <=? y) && (y <? size).

Definition directions : list (Z * Z) := [(-1, 0); (1, 0); (0, -1); (0, 1)].

Definition getNeighbors (size x y : Z) : list Point :=
  List.filter (λ n, isOnBoard size n.1 n.2)
              ((λ d, (x + d.1, y + d.2)) <$> directions).

(** ** Sets of position keys, in insertion order *)

Definition set_has (k : Point) (s : list Point) : bool := bool_decide (k ∈ s).
Definition set_add (k : Point) (s : list Point) : list Point :=
  if set_has k s then s else s ++ [k].

(** ** Groups and liberties *)

Record Group := mkGroup { stones : list Point; liberties : list Point }.

Record GroupLoop := mkGroupLoop {
  gl_queue : list Point;
  gl_visited : list Point;
  gl_stones : list Point;
  gl_liberties : list Point
}.

(** The body of [for (const neighbor of neighbors)] in [getGroup]. *)
Definition groupVisit (b : Board) (color : option Z) (st : GroupLoop) (neighbor : Point)
  : GroupLoop :=
  let neighborColor := getCell b neighbor.1 neighbor.2 in
  if bool_decide (neighborColor = Some EMPTY) then
    mkGroupLoop (gl_queue st) (gl_visited st) (gl_stones st)
                (set_add neighbor (gl_liberties st))
  else if bool_decide (neighborColor = color) && negb (set_has neighbor (gl_visited st)) then
    mkGroupLoop (gl_queue st ++ [neighbor]) (set_add neighbor (gl_visited st))
                (gl_stones st) (gl_liberties st)
  else st.

(** [while (queue.length > 0)]: one unit of fuel per iteration. *)
Fixpoint groupLoop (fuel : nat) (size : Z) (b : Board) (color : option Z) (st : GroupLoop)
  : GroupLoop :=
  match fuel with
  | O => st
  | S fuel' =>
      match gl_queue st with
      | [] => st
      | current :: rest =>
          let st1 := mkGroupLoop rest (gl_visited st) (gl_stones st ++ [current])
                                 (gl_liberties st) in
          groupLoop fuel' size b color
            (foldl (groupVisit b color) st1 (getNeighbors size current.1 current.2))
      end
  end.

(** Enough iterations for any breadth-first search over the grid: the
    search takes each visited position off the queue once, and the visited
    positions are the start and cells of the grid ([groupLoop_drains]). *)
Definition searchFuel (size : Z) : nat := (Z.to_nat (size * size) + 2)%nat.

Definition getGroup (size : Z) (b : Board) (x y : Z) : Group :=
  let color := getCell b x y in
  if bool_decide (color = Some EMPTY) then mkGroup [] []
  else
    let st := groupLoop (searchFuel size) size b color
                        (mkGroupLoop [(x, y)] [(x, y)] [] []) in
    mkGroup (gl_stones st) (gl_liberties st).

Definition countLiberties (size : Z) (b : Board) (x y : Z) : Z :=
  Z.of_nat (length (liberties (getGroup size b x y))).

(** [getCapturedStones]: the groups of the opposing neighbours that have no
    liberty, pushed one after the other. *)
Definition getCapturedStones (size : Z) (b : Board) (x y player : Z) : list Point :=
  let opponent := getOpponent player in
  foldl (λ captured neighbor,
           if bool_decide (getCell b neighbor.1 neighbor.2 = Some opponent) then
             let group := getGroup size b neighbor.1 neighbor.2 in
             if bool_decide (length (liberties group) = 0%nat)
             then captured ++ stones group else captured
           else captured)
        [] (getNeighbors size x y).

Definition hasLibertyAfterMove (size : Z) (b : Board) (x y player : Z) : bool :=
  bool_decide (0 < length (liberties (getGroup size b x y)))%nat.

(** ** Engine state *)

(** [lastMove]: [{ x, y, player }] *)
Record LastMove := mkLastMove { lm_x : Z; lm_y : Z; lm_player : Z }.

(** An entry of [moveHistory]: [{ x, y, player, captured }] for a stone,
    [{ x: -1, y: -1, player, isPass: true }] for a pass. *)
Inductive MoveRecord :=
| Placed (x y player captured : Z)
| Passed (player : Z).

Definition isPass (m : MoveRecord) : bool :=
  match m with Passed _ => true | Placed _ _ _ _ => false end.

(** An entry of [boardHistory]. *)
Record Snapshot := mkSnapshot {
  snap_board : Board;
  snap_currentPlayer : Z;
  snap_capturedBlack : Z;
  snap_capturedWhite : Z;
  snap_koPoint : option Point;
  snap_lastMove : option LastMove
}.

Record Engine := mkEngine {
  size : Z;
  board : Board;
  currentPlayer : Z;
  capturedBlack : Z;
  capturedWhite : Z;
  lastMove : option LastMove;
  koPoint : option Point;
  moveHistory : list MoveRecord;
  boardHistory : list Snapshot
}.

Definition set_board (e : Engine) (b : Board) : Engine :=
  mkEngine (size e) b (currentPlayer e) (capturedBlack e) (capturedWhite e)
           (lastMove e) (koPoint e) (moveHistory e) (boardHistory e).
Definition set_currentPlayer (e : Engine) (p : Z) : Engine :=
  mkEngine (size e) (board e) p (capturedBlack e) (capturedWhite e)
           (lastMove e) (koPoint e) (moveHistory e) (boardHistory e).
Definition set_capturedBlack (e : Engine) (n : Z) : Engine :=
  mkEngine (size e) (board e) (currentPlayer e) n (capturedWhite e)
           (lastMove e) (koPoint e) (moveHistory e) (boardHistory e).
Definition set_capturedWhite (e : Engine) (n : Z) : Engine :=
  mkEngine (size e) (board e) (currentPlayer e) (capturedBlack e) n
           (lastMove e) (koPoint e) (moveHistory e) (boardHistory e).
Definition set_lastMove (e : Engine) (m : option LastMove) : Engine :=
  mkEngine (size e) (board e) (currentPlayer e) (capturedBlack e) (capturedWhite e)
           m (koPoint e) (moveHistory e) (boardHistory e).
Definition set_koPoint (e : Engine) (k : option Point) : Engine :=
  mkEngine (size e) (board e) (currentPlayer e) (capturedBlack e) (capturedWhite e)
           (lastMove e) k (moveHistory e) (boardHistory e).
Definition set_moveHistory (e : Engine) (h : list MoveRecord) : Engine :=
  mkEngine (size e) (board e) (currentPlayer e) (capturedBlack e) (capturedWhite e)
           (lastMove e) (koPoint e) h (boardHistory e).
Definition set_boardHistory (e : Engine) (h : list Snapshot) : Engine :=
  mkEngine (size e) (board e) (currentPlayer e) (capturedBlack e) (capturedWhite e)
           (lastMove e) (koPoint e) (moveHistory e) h.

(** [saveBoardState]: push a deep copy of the current position. *)
Definition saveBoardState (e : Engine) : Engine :=
  set_boardHistory e
    (boardHistory e ++
       [mkSnapshot (copyBoard (board e)) (currentPlayer e) (capturedBlack e)
                   (capturedWhite e) (koPoint e) (lastMove e)]).

(** [init], on an engine built with the given size. *)
Definition init (size : Z) : Engine :=
  saveBoardState
    (mkEngine size (replicate (Z.to_nat size) (replicate (Z.to_nat size) EMPTY))
              BLACK 0 0 None None [] []).

(** ** Legality *)

(** The reason strings of the engine: out of range, occupied, ko point,
    suicide (all from [isValidMove]) and nothing to undo ([undoMove]). *)
Inductive Reason := OutOfRange | Occupied | KoViolation | Suicide | NothingToUndo.

(** [{ valid: false, reason }] or [{ valid: true, captured }] *)
Inductive Validation :=
| Invalid (reason : Reason)
| Valid (captured : list Point).

Definition is_valid (v : Validation) : bool :=
  match v with Valid _ => true | Invalid _ => false end.

Definition isKoPoint (e : Engine) (x y : Z) : bool :=
  match koPoint e with
  | None => false
  | Some k => bool_decide (k.1 = x) && bool_decide (k.2 = y)
  end.

(** [isValidMove]: the stone is written to the grid, the captures and the
    liberties are read off the grid, and the cell is written back to EMPTY
    on each of the three ways out. *)
Definition isValidMove (e : Engine) (x y player : Z) : Validation * Engine :=
  if negb (isOnBoard (size e) x y) then (Invalid OutOfRange, e)
  else if negb (bool_decide (getCell (board e) x y = Some EMPTY)) then (Invalid Occupied, e)
  else if isKoPoint e x y then (Invalid KoViolation, e)
  else
    let e1 := set_board e (setCell (board e) x y player) in
    let captured := getCapturedStones (size e1) (board e1) x y player in
    if bool_decide (0 < length captured)%nat then
      (Valid captured, set_board e1 (setCell (board e1) x y EMPTY))
    else if negb (hasLibertyAfterMove (size e1) (board e1) x y player) then
      (Invalid Suicide, set_board e1 (setCell (board e1) x y EMPTY))
    else
      (Valid [], set_board e1 (setCell (board e1) x y EMPTY)).

(** ** Moves *)

(** [removeGroup].  [makeMove] calls it with a non-empty list only; on an
    empty one the read of [stones[0].x] throws, and the model leaves the
    engine as it is. *)
Definition removeGroup (e : Engine) (stones : list Point) : Z * Engine :=
  match stones with
  | [] => (0, e)
  | s0 :: _ =>
      let color := getCell (board e) s0.1 s0.2 in
      let e1 := set_board e (foldl (λ b stone, setCell b stone.1 stone.2 EMPTY)
                                   (board e) stones) in
      let n := Z.of_nat (length stones) in
      (n, if bool_decide (color = Some BLACK)
          then set_capturedBlack e1 (capturedBlack e1 + n)
          else set_capturedWhite e1 (capturedWhite e1 + n))
  end.

(** [{ success: false, reason }] or [{ success: true, captured, koPoint }] *)
Inductive MoveResult :=
| MoveFail (reason : Reason)
| MoveOk (captured : Z) (ko : option Point).

Definition move_success (r : MoveResult) : bool :=
  match r with MoveOk _ _ => true | MoveFail _ => false end.

Definition makeMove (e : Engine) (x y player : Z) : MoveResult * Engine :=
  let '(validation, e0) := isValidMove e x y player in
  match validation with
  | Invalid reason => (MoveFail reason, e0)
  | Valid _ =>
      let e1 := set_board e0 (setCell (board e0) x y player) in
      let captured := getCapturedStones (size e1) (board e1) x y player in
      let '(capturedCount, e2) :=
        if bool_decide (0 < length captured)%nat
        then removeGroup e1 captured else (0, e1) in
      let e3 := set_koPoint e2 None in
      let e4 :=
        if bool_decide (capturedCount = 1) then
          let myGroup := getGroup (size e3) (board e3) x y in
          if bool_decide (length (stones myGroup) = 1%nat)
             && bool_decide (length (liberties myGroup) = 1%nat)
          then set_koPoint e3 (head (liberties myGroup))
          else e3
        else e3 in
      let e5 := set_lastMove e4 (Some (mkLastMove x y player)) in
      let e6 := set_moveHistory e5 (moveHistory e5 ++ [Placed x y player capturedCount]) in
      let e7 := set_currentPlayer e6 (getOpponent player) in
      let e8 := saveBoardState e7 in
      (MoveOk capturedCount (koPoint e8), e8)
  end.

(** [{ success: true }] or [{ success: false, reason }] *)
Inductive UndoResult :=
| UndoFail (reason : Reason)
| UndoOk.

(** [undoMove].  After the pop [boardHistory] still has an entry, because it
    had two or more; the [None] branch stands for the read of a field of
    [undefined], which the guard excludes. *)
Definition undoMove (e : Engine) : UndoResult * Engine :=
  if bool_decide (length (boardHistory e) ≤ 1)%nat then (UndoFail NothingToUndo, e)
  else
    let e1 := set_boardHistory e (removelast (boardHistory e)) in
    let e2 := set_moveHistory e1 (removelast (moveHistory e1)) in
    match last (boardHistory e2) with
    | None => (UndoOk, e2)
    | Some prevState =>
        (UndoOk,
         mkEngine (size e2) (copyBoard (snap_board prevState))
                  (snap_currentPlayer prevState) (snap_capturedBlack prevState)
                  (snap_capturedWhite prevState) (snap_lastMove prevState)
                  (snap_koPoint prevState) (moveHistory e2) (boardHistory e2))
    end.

(** [{ success: true, gameEnd }] *)
Record PassResult := mkPassResult { pass_success : bool; gameEnd : bool }.

Definition pass (e : Engine) : PassResult * Engine :=
  let player := currentPlayer e in
  let e1 := set_moveHistory e (moveHistory e ++ [Passed player]) in
  let e2 := set_currentPlayer e1 (getOpponent player) in
  let e3 := set_koPoint e2 None in
  let e4 := saveBoardState e3 in
  let history := moveHistory e4 in
  if bool_decide (2 ≤ length history)%nat then
    let lastTwo := drop (length history - 2) history in
    if from_option isPass false (lastTwo !! 0%nat)
       && from_option isPass false (lastTwo !! 1%nat)
    then (mkPassResult true true, e4)
    else (mkPassResult true false, e4)
  else (mkPassResult true false, e4).

(** ** Export and import *)

(** The record read by [loadState].  [getBoardState] fills the first seven
    fields; [moveHistory] and [boardHistory] are absent from it ([None]). *)
Record SavedState := mkSavedState {
  sv_board : Board;
  sv_currentPlayer : Z;
  sv_capturedBlack : Z;
  sv_capturedWhite : Z;
  sv_lastMove : option LastMove;
  sv_koPoint : option Point;
  sv_moveCount : Z;
  sv_moveHistory : option (list MoveRecord);
  sv_boardHistory : option (list Snapshot)
}.

Definition getBoardState (e : Engine) : SavedState :=
  mkSavedState (copyBoard (board e)) (currentPlayer e) (capturedBlack e)
               (capturedWhite e) (lastMove e) (koPoint e)
               (Z.of_nat (length (moveHistory e))) None None.

(** [getFullGameState] of the game's main module: the record of
    [getBoardState] with the two logs added (the fields of the user
    interface are left out). *)
Definition getFullGameState (e : Engine) : SavedState :=
  let st := getBoardState e in
  mkSavedState (sv_board st) (sv_currentPlayer st) (sv_capturedBlack st)
               (sv_capturedWhite st) (sv_lastMove st) (sv_koPoint st)
               (sv_moveCount st) (Some (moveHistory e)) (Some (boardHistory e)).

(** [loadState]: [state.moveHistory || []] and [state.boardHistory || []]
    fall back to the empty log when the field is absent. *)
Definition loadState (e : Engine) (state : SavedState) : Engine :=
  mkEngine (size e) (copyBoard (sv_board state)) (sv_currentPlayer state)
           (sv_capturedBlack state) (sv_capturedWhite state)
           (sv_lastMove state) (sv_koPoint state)
           (default [] (sv_moveHistory state))
           (default [] (sv_boardHistory state)).

(** ** Enumeration of the grid *)

(** The positions met by [for x < size] / [for y < size], in that order. *)
Definition allPoints (size : Z) : list Point :=
  seqZ 0 size ≫= λ x, (λ y, (x, y)) <$> seqZ 0 size.

(** [getAllValidMoves]: every call of [isValidMove] hands the engine on to
    the next one. *)
Definition getAllValidMoves (e : Engine) (player : Z) : list Point * Engine :=
  foldl (λ (acc : list Point * Engine) (p : Point),
           let '(validation, e') := isValidMove acc.2 p.1 p.2 player in
           (if is_valid validation then acc.1 ++ [p] else acc.1, e'))
        ([], e) (allPoints (size e)).

(** ** Territory and score *)

Record Territory := mkTerritory { t_black : Z; t_white : Z; t_neutral : Z }.

Record RegionLoop := mkRegionLoop {
  rl_queue : list Point;
  rl_visited : list Point;
  rl_region : list Point;
  rl_touchesBlack : bool;
  rl_touchesWhite : bool
}.

(** The body of [for (const neighbor of neighbors)] in [calculateTerritory]. *)
Definition regionVisit (b : Board) (st : RegionLoop) (neighbor : Point) : RegionLoop :=
  let color := getCell b neighbor.1 neighbor.2 in
  if bool_decide (color = Some BLACK) then
    mkRegionLoop (rl_queue st) (rl_visited st) (rl_region st) true (rl_touchesWhite st)
  else if bool_decide (color = Some WHITE) then
    mkRegionLoop (rl_queue st) (rl_visited st) (rl_region st) (rl_touchesBlack st) true
  else if negb (set_has neighbor (rl_visited st)) then
    mkRegionLoop (rl_queue st ++ [neighbor]) (set_add neighbor (rl_visited st))
                 (rl_region st) (rl_touchesBlack st) (rl_touchesWhite st)
  else st.

Fixpoint regionLoop (fuel : nat) (size : Z) (b : Board) (st : RegionLoop) : RegionLoop :=
  match fuel with
  | O => st
  | S fuel' =>
      match rl_queue st with
      | [] => st
      | current :: rest =>
          let st1 := mkRegionLoop rest (rl_visited st) (rl_region st ++ [current])
                                  (rl_touchesBlack st) (rl_touchesWhite st) in
          regionLoop fuel' size b
            (foldl (regionVisit b) st1 (getNeighbors size current.1 current.2))
      end
  end.

(** The body of the two nested [for] loops of [calculateTerritory]. *)
Definition territoryStep (size : Z) (b : Board) (acc : Territory * list Point) (p : Point)
  : Territory * list Point :=
  let '(territory, visited) := acc in
  if negb (bool_decide (getCell b p.1 p.2 = Some EMPTY)) || set_has p visited then acc
  else
    let st := regionLoop (searchFuel size) size b
                (mkRegionLoop [p] (set_add p visited) [] false false) in
    let n := Z.of_nat (length (rl_region st)) in
    (if rl_touchesBlack st && negb (rl_touchesWhite st) then
       mkTerritory (t_black territory + n) (t_white territory) (t_neutral territory)
     else if rl_touchesWhite st && negb (rl_touchesBlack st) then
       mkTerritory (t_black territory) (t_white territory + n) (t_neutral territory)
     else
       mkTerritory (t_black territory) (t_white territory) (t_neutral territory + n),
     rl_visited st).

Definition calculateTerritory (size : Z) (b : Board) : Territory :=
  (foldl (territoryStep size b) (mkTerritory 0 0 0, []) (allPoints size)).1.

(** The stone count of [calculateScore]: [(blackStones, whiteStones)]. *)
Definition countStones (size : Z) (b : Board) : Z * Z :=
  foldl (λ (acc : Z * Z) (p : Point),
           if bool_decide (getCell b p.1 p.2 = Some BLACK) then (acc.1 + 1, acc.2)
           else if bool_decide (getCell b p.1 p.2 = Some WHITE) then (acc.1, acc.2 + 1)
           else acc)
        (0, 0) (allPoints size).

(** The 7.5 added to white's score.  The scores are integers and integers
    plus 7.5, which floating point holds without rounding, so rationals
    give the values the code computes. *)
Definition komi : Q := 15 # 2.

Record Score := mkScore {
  sc_black : Q;
  sc_white : Q;
  sc_blackStones : Z;
  sc_whiteStones : Z;
  sc_blackTerritory : Z;
  sc_whiteTerritory : Z;
  sc_winner : Z;
  sc_margin : Q
}.

Definition calculateScore (e : Engine) : Score :=
  let territory := calculateTerritory (size e) (board e) in
  let '(blackStones, whiteStones) := countStones (size e) (board e) in
  let blackScore := inject_Z (blackStones + t_black territory) in
  let whiteScore := (inject_Z (whiteStones + t_white territory) + komi)%Q in
  mkScore blackScore whiteScore blackStones whiteStones
          (t_black territory) (t_white territory)
          (if Qlt_le_dec whiteScore blackScore then BLACK else WHITE)
          (Qabs (blackScore - whiteScore)).

(** ** The easy tier of the move selector (js/game/ai.js) *)

(** [findCaptureMoves] *)
Definition findCaptureMoves (e : Engine) (validMoves : list Point) (color : Z)
  : list Point * Engine :=
  foldl (λ (acc : list Point * Engine) (move : Point),
           let '(validation, e') := isValidMove acc.2 move.1 move.2 color in
           (match validation with
            | Valid captured =>
                if bool_decide (0 < length captured)%nat then acc.1 ++ [move] else acc.1
            | Invalid _ => acc.1
            end, e'))
        ([], e) validMoves.

(** [filterSafeMoves]: the grid is copied, the stone written, the group
    read, and the copy put back as the engine's grid. *)
Definition filterSafeMoves (e : Engine) (validMoves : list Point) (color : Z)
  : list Point * Engine :=
  foldl (λ (acc : list Point * Engine) (move : Point),
           let originalBoard := copyBoard (board acc.2) in
           let e1 := set_board acc.2 (setCell (board acc.2) move.1 move.2 color) in
           let group := getGroup (size e1) (board e1) move.1 move.2 in
           let isSafe := bool_decide (2 ≤ length (liberties group))%nat in
           let e2 := set_board e1 originalBoard in
           (if isSafe then acc.1 ++ [move] else acc.1, e2))
        ([], e) validMoves.

(** [moves[Math.floor(Math.random() * moves.length)]], for the value [r]
    that [Math.random()] returned, a number from 0 up to but not including
    1; an index past the end reads [undefined]. *)
Definition pickRandom (r : Q) (moves : list Point) : option Point :=
  let i := Qfloor (r * inject_Z (Z.of_nat (length moves))) in
  if bool_decide (0 ≤ i) then moves !! Z.to_nat i else None.

(** [getEasyMove]; it draws one random number, whichever branch returns. *)
Definition getEasyMove (e : Engine) (validMoves : list Point) (color : Z) (r : Q)
  : option Point * Engine :=
  let '(captureMoves, e1) := findCaptureMoves e validMoves color in
  if bool_decide (0 < length captureMoves)%nat then (pickRandom r captureMoves, e1)
  else
    let '(safeMoves, e2) := filterSafeMoves e1 validMoves color in
    if bool_decide (0 < length safeMoves)%nat then (pickRandom r safeMoves, e2)
    else (pickRandom r validMoves, e2).

(** [getMove] of a selector whose level is ['easy']: [None] is the [null]
    that tells the caller to pass. *)
Definition getMove_easy (e : Engine) (color : Z) (r : Q) : option Point * Engine :=
  let '(validMoves, e1) := getAllValidMoves e color in
  if bool_decide (length validMoves = 0%nat) then (None, e1)
  else getEasyMove e1 validMoves color r.

(** ** The playouts of the hard tier (js/game/ai.js) *)

(** [getSimValidMoves]: the empty cells of the playout grid, in the order of
    the two loops; the colour is not looked at. *)
Definition getSimValidMoves (size : Z) (board : Board) (color : Z) : list Point :=
  List.filter (λ p : Point, bool_decide (getCell board p.1 p.2 = Some EMPTY))
              (allPoints size).

(** [simpleScore]: the stones of [aiColor] minus those of the other colour. *)
Definition simpleScore (size : Z) (board : Board) (aiColor : Z) : Z :=
  let opponent := getOpponent aiColor in
  let counts :=
    foldl (λ (acc : Z * Z) (p : Point),
             if bool_decide (getCell board p.1 p.2 = Some aiColor) then (acc.1 + 1, acc.2)
             else if bool_decide (getCell board p.1 p.2 = Some opponent)
                  then (acc.1, acc.2 + 1)
                  else acc)
          (0, 0) (allPoints size) in
  counts.1 - counts.2.

Definition maxMoves : nat := 100.

(** The [while] loop of [simulateGame].  [remaining] is [maxMoves -
    moveCount]; [rand k] is what the [k]-th call of [Math.random()] returns
    and [draws] counts the calls made.  [None] stands for the exception
    thrown when the index drawn is past the end of [validMoves]. *)
Fixpoint simLoop (remaining : nat) (size : Z) (rand : nat → Q) (simBoard : Board)
         (currentColor passCount : Z) (draws : nat) : option Board :=
  match remaining with
  | O => Some simBoard
  | S remaining' =>
      if bool_decide (passCount < 2) then
        let validMoves := getSimValidMoves size simBoard currentColor in
        if bool_decide (length validMoves = 0%nat) then
          simLoop remaining' size rand simBoard (getOpponent currentColor)
                  (passCount + 1) draws
        else
          match pickRandom (rand draws) validMoves with
          | None => None
          | Some randomMove =>
              simLoop remaining' size rand
                      (setCell simBoard randomMove.1 randomMove.2 currentColor)
                      (getOpponent currentColor) 0 (S draws)
          end
      else Some simBoard
  end.

(** [simulateGame] on the grid of the engine: [Some true] when the playout
    counts as a win for [aiColor].  The caller passes one of the legal
    moves and the loop draws among the empty cells of the grid, so every
    write is inside the grid. *)
Definition simulateGame (size : Z) (board : Board) (firstMove : Point) (aiColor : Z)
           (rand : nat → Q) : option bool :=
  let boardCopy := copyBoard board in
  let simBoard := setCell (copyBoard boardCopy) firstMove.1 firstMove.2 aiColor in
  match simLoop maxMoves size rand simBoard (getOpponent aiColor) 0 0 with
  | Some final => Some (bool_decide (0 < simpleScore size final aiColor))
  | None => None
  end.

(** ** Arrays shared by reference *)

(** [moveHistory] and [boardHistory] are JavaScript arrays: the engine pushes
    to them and pops from them in place, [getFullGameState] of the main
    module hands out the arrays themselves, the save slot keeps them and
    [loadState] installs the arrays of the record it is given.  The store
    holds the contents of every array allocated so far; an array is named by
    its index in the store. *)
Record Arrays := mkArrays {
  moveLogs : list (list MoveRecord);
  snapLogs : list (list Snapshot)
}.

Definition readMoves (a : Arrays) (r : nat) : list MoveRecord :=
  default [] (moveLogs a !! r).
Definition readSnaps (a : Arrays) (r : nat) : list Snapshot :=
  default [] (snapLogs a !! r).

(** The contents of the engine's two logs, written to the arrays at [rm] and
    [rs]. *)
Definition writeLogs (a : Arrays) (rm rs : nat) (e : Engine) : Arrays :=
  mkArrays (<[rm := moveHistory e]> (moveLogs a)) (<[rs := boardHistory e]> (snapLogs a)).

(** Two new arrays, holding the engine's two logs. *)
Definition allocLogs (a : Arrays) (e : Engine) : Arrays :=
  mkArrays (moveLogs a ++ [moveHistory e]) (snapLogs a ++ [boardHistory e]).

(** [a || d] on strings: the empty string is the only falsy one. *)
Definition orElse (s d : String.string) : String.string :=
  if String.eqb s String.EmptyString then d else s.

(** The object built by [getFullGameState] of the main module: the fields
    of [getBoardState], the engine's two arrays and four fields of the
    game. *)
Record FullGameState := mkFullGameState {
  fg_board : Board;
  fg_currentPlayer : Z;
  fg_capturedBlack : Z;
  fg_capturedWhite : Z;
  fg_lastMove : option LastMove;
  fg_koPoint : option Point;
  fg_moveCount : Z;
  fg_moveHistory : nat;
  fg_boardHistory : nat;
  fg_gameMode : String.string;
  fg_aiColor : Z;
  fg_aiLevel : String.string;
  fg_playerColor : Z
}.

(** ** The save slots (StorageManager) *)

Module StorageManager.

Definition MAX_SAVES : nat := 5.

(** [saveData]; it has no [playerColor] field. *)
Record SaveData := mkSaveData {
  sd_id : Z;
  sd_timestamp : String.string;
  sd_gameMode : String.string;
  sd_moveCount : Z;
  sd_currentPlayer : Z;
  sd_board : Board;
  sd_capturedBlack : Z;
  sd_capturedWhite : Z;
  sd_moveHistory : nat;
  sd_boardHistory : nat;
  sd_lastMove : option LastMove;
  sd_koPoint : option Point;
  sd_aiColor : Z;
  sd_aiLevel : String.string
}.

(** The record of [saveGame]; [now] is [Date.now()] and [stamp] the
    formatted date.  [gameState.moveHistory] is an array, so [moveCount] is
    its length at this moment. *)
Definition makeSaveData (a : Arrays) (gameState : FullGameState) (now : Z)
           (stamp : String.string) : SaveData :=
  mkSaveData now stamp (fg_gameMode gameState)
             (Z.of_nat (length (readMoves a (fg_moveHistory gameState))))
             (fg_currentPlayer gameState) (fg_board gameState)
             (fg_capturedBlack gameState) (fg_capturedWhite gameState)
             (fg_moveHistory gameState) (fg_boardHistory gameState)
             (fg_lastMove gameState) (fg_koPoint gameState)
             (fg_aiColor gameState) (fg_aiLevel gameState).

(** [saveGame]: the new list of slots (the result is always a success).  A
    slot index that is not a number fails both comparisons, as a negative
    one does. *)
Definition saveGame (a : Arrays) (saves : list SaveData) (gameState : FullGameState)
           (slotIndex : Z) (now : Z) (stamp : String.string) : list SaveData :=
  let saveData := makeSaveData a gameState now stamp in
  if bool_decide (0 ≤ slotIndex) && bool_decide (slotIndex < Z.of_nat (length saves)) then
    <[Z.to_nat slotIndex := saveData]> saves
  else
    (if bool_decide (MAX_SAVES ≤ length saves)%nat then drop 1 saves else saves)
      ++ [saveData].

(** [loadGame]: [None] is [{ success: false }]. *)
Definition loadGame (saves : list SaveData) (slotIndex : Z) : option SaveData :=
  if bool_decide (slotIndex < 0) || bool_decide (Z.of_nat (length saves) ≤ slotIndex)
  then None
  else saves !! Z.to_nat slotIndex.

(** [deleteSave]: the success flag and the new list of slots. *)
Definition deleteSave (saves : list SaveData) (slotIndex : Z) : bool * list SaveData :=
  if bool_decide (slotIndex < 0) || bool_decide (Z.of_nat (length saves) ≤ slotIndex)
  then (false, saves)
  else (true, delete (Z.to_nat slotIndex) saves).

Definition hasSaves (saves : list SaveData) : bool := bool_decide (0 < length saves)%nat.

Definition clearAllSaves (saves : list SaveData) : list SaveData := [].

End StorageManager.

(** ** The game session (main module) *)

Module WeiqiGame.

Definition PVP : String.string := "pvp"%string.
Definition PVE : String.string := "pve"%string.

(** The fields of the game that the rules, the saves and the restoration
    read or write; the canvas, the renderer, the screen shown and the toast
    are left out.  [rules] holds the engine with the current contents of
    its two arrays, which are the arrays [rules_moveHistory] and
    [rules_boardHistory] of the store; [ai] is the level the move selector
    was built with, [None] when there is none; [storage] is the list of
    save slots. *)
Record Game := mkGame {
  arrays : Arrays;
  rules : Engine;
  rules_moveHistory : nat;
  rules_boardHistory : nat;
  gameMode : String.string;
  aiColor : Z;
  aiLevel : String.string;
  playerColor : Z;
  ai : option String.string;
  storage : list StorageManager.SaveData
}.

(** The engine after a call that pushed to or popped from its arrays in
    place: the arrays stay the same objects and hold the new contents. *)
Definition commit (g : Game) (e : Engine) : Game :=
  mkGame (writeLogs (arrays g) (rules_moveHistory g) (rules_boardHistory g) e) e
         (rules_moveHistory g) (rules_boardHistory g)
         (gameMode g) (aiColor g) (aiLevel g) (playerColor g) (ai g) (storage g).

(** The constructor, when the device holds no saved list. *)
Definition new : Game :=
  mkGame (allocLogs (mkArrays [] []) (init BOARD_SIZE)) (init BOARD_SIZE) 0 0
         PVP WHITE "medium"%string BLACK None [].

(** [startGame]: [init] gives the engine two new arrays. *)
Definition startGame (g : Game) (mode : String.string) : Game :=
  let e := init (size (rules g)) in
  mkGame (allocLogs (arrays g) e) e
         (length (moveLogs (arrays g))) (length (snapLogs (arrays g)))
         mode (aiColor g) (aiLevel g) (playerColor g)
         (if String.eqb mode PVE then Some (aiLevel g) else ai g) (storage g).

(** [handleAISelectClick] on the button pressed; the timer that lets the
    move selector open the game when the human plays white is left out, and
    so is the change of screen of the back button. *)
Definition handleAISelectClick (g : Game) (buttonId : String.string) : Game :=
  if String.eqb buttonId "easy"%string || String.eqb buttonId "medium"%string
     || String.eqb buttonId "hard"%string
  then mkGame (arrays g) (rules g) (rules_moveHistory g) (rules_boardHistory g)
              (gameMode g) (aiColor g) buttonId (playerColor g) (ai g) (storage g)
  else if String.eqb buttonId "play_black"%string
  then startGame (mkGame (arrays g) (rules g) (rules_moveHistory g) (rules_boardHistory g)
                         (gameMode g) WHITE (aiLevel g) BLACK (ai g) (storage g)) PVE
  else if String.eqb buttonId "play_white"%string
  then startGame (mkGame (arrays g) (rules g) (rules_moveHistory g) (rules_boardHistory g)
                         (gameMode g) BLACK (aiLevel g) WHITE (ai g) (storage g)) PVE
  else g.

(** [handleBoardClick]; the automatic save and the timer that lets the move
    selector answer are left out. *)
Definition handleBoardClick (g : Game) (x y : Z) : Game :=
  if String.eqb (gameMode g) PVE
     && negb (bool_decide (currentPlayer (rules g) = playerColor g))
  then g
  else commit g (makeMove (rules g) x y (currentPlayer (rules g))).2.

(** [makeAIMove], given what [this.ai.getMove(this.aiColor)] answers
    ([None] is [null], on which the selector passes); the selector leaves
    the engine as it found it.  The test of the screen shown is left out:
    on another screen than the board the call changes nothing.  Without a
    selector ([this.ai] is [null]) the call throws before it changes
    anything. *)
Definition makeAIMove (g : Game) (move : option Point) : Game :=
  if negb (bool_decide (currentPlayer (rules g) = aiColor g)) then g
  else
    match ai g, move with
    | None, _ => g
    | Some _, Some m => commit g (makeMove (rules g) m.1 m.2 (currentPlayer (rules g))).2
    | Some _, None => commit g (pass (rules g)).2
    end.

(** [undoMove]: two calls of the engine's [undoMove] against the move
    selector, one otherwise. *)
Definition undoMove (g : Game) : Game :=
  if String.eqb (gameMode g) PVE then
    let g1 := commit g (undoMove (rules g)).2 in
    commit g1 (undoMove (rules g1)).2
  else commit g (undoMove (rules g)).2.

(** [pass]: the engine's [pass]; the flag tells whether the game ended. *)
Definition pass (g : Game) : bool * Game :=
  let r := pass (rules g) in (gameEnd r.1, commit g r.2).

Definition getFullGameState (g : Game) : FullGameState :=
  let st := getBoardState (rules g) in
  mkFullGameState (sv_board st) (sv_currentPlayer st) (sv_capturedBlack st)
                  (sv_capturedWhite st) (sv_lastMove st) (sv_koPoint st)
                  (sv_moveCount st) (rules_moveHistory g) (rules_boardHistory g)
                  (gameMode g) (aiColor g) (aiLevel g) (playerColor g).

Definition saveGame (g : Game) (slotIndex : Z) (now : Z) (stamp : String.string) : Game :=
  mkGame (arrays g) (rules g) (rules_moveHistory g) (rules_boardHistory g)
         (gameMode g) (aiColor g) (aiLevel g) (playerColor g) (ai g)
         (StorageManager.saveGame (arrays g) (storage g) (getFullGameState g)
                                  slotIndex now stamp).

(** [restoreGameState] on a record of the save slots.  The record has no
    [playerColor], so [data.playerColor || BLACK] is [BLACK]; [loadState]
    copies the grid and the counters and installs the record's two arrays
    as the engine's logs. *)
Definition restoreGameState (g : Game) (data : StorageManager.SaveData) : Game :=
  let mode := orElse (StorageManager.sd_gameMode data) PVP in
  let color :=
    if bool_decide (StorageManager.sd_aiColor data = 0) then WHITE
    else StorageManager.sd_aiColor data in
  let level := orElse (StorageManager.sd_aiLevel data) "medium"%string in
  let state :=
    mkSavedState (StorageManager.sd_board data) (StorageManager.sd_currentPlayer data)
                 (StorageManager.sd_capturedBlack data)
                 (StorageManager.sd_capturedWhite data)
                 (StorageManager.sd_lastMove data) (StorageManager.sd_koPoint data)
                 (StorageManager.sd_moveCount data)
                 (Some (readMoves (arrays g) (StorageManager.sd_moveHistory data)))
                 (Some (readSnaps (arrays g) (StorageManager.sd_boardHistory data))) in
  mkGame (arrays g) (loadState (rules g) state)
         (StorageManager.sd_moveHistory data) (StorageManager.sd_boardHistory data)
         mode color level BLACK
         (if String.eqb mode PVE then Some level else ai g) (storage g).

(** [loadGame]: a slot that does not exist changes nothing. *)
Definition loadGame (g : Game) (slotIndex : Z) : Game :=
  match StorageManager.loadGame (storage g) slotIndex with
  | Some data => restoreGameState g data
  | None => g
  end.

End WeiqiGame.

(** ** Reachable engines and the snapshot invariant *)

(** The record that the game hands to [loadState] out of a save slot.  The
    position is the one of the engine at the moment of the save, [saved].
    The two logs are the engine's own arrays, not copies: at the moment of
    the load they hold the logs of the engine that last pushed to them or
    popped from them, [later].  A load made right after the save has
    [later = saved]. *)
Definition slotRecord (saved later : Engine) : SavedState :=
  let st := getBoardState saved in
  mkSavedState (sv_board st) (sv_currentPlayer st) (sv_capturedBlack st)
               (sv_capturedWhite st) (sv_lastMove st) (sv_koPoint st)
               (sv_moveCount st) (Some (moveHistory later)) (Some (boardHistory later)).

(** The engines that the game produces: a new game, a move (accepted or
    not), a pass, an undo, and the restoration of a save slot, whose logs
    may be those of a later engine than the one saved.  Every engine of the
    set is allowed as [later], which is more than a session can do.  The
    newest snapshot of an engine of this set need not be its position.  The
    engines of a game session are in the set, as is shown at the end.  The
    game never hands the bare record of [getBoardState], which has no logs,
    to [loadState]; the engine that call gives is not in the set. *)
Inductive reachable : Engine → Prop :=
| reach_init size : reachable (init size)
| reach_makeMove e x y player : reachable e → reachable (makeMove e x y player).2
| reach_pass e : reachable e → reachable (pass e).2
| reach_undoMove e : reachable e → reachable (undoMove e).2
| reach_loadState e saved later :
    reachable e → reachable saved → reachable later →
    reachable (loadState e (slotRecord saved later)).

(** The entry that [saveBoardState] pushes. *)
Definition snapshot_of (e : Engine) : Snapshot :=
  mkSnapshot (board e) (currentPlayer e) (capturedBlack e) (capturedWhite e)
             (koPoint e) (lastMove e).

(** The newest snapshot is the current position. *)
Definition history_ok (e : Engine) : Prop :=
  last (boardHistory e) = Some (snapshot_of e).

(** The engine that [pass] leaves behind. *)
Definition passed_engine (e : Engine) : Engine :=
  saveBoardState
    (set_koPoint
       (set_currentPlayer
          (set_moveHistory e (moveHistory e ++ [Passed (currentPlayer e)]))
          (getOpponent (currentPlayer e)))
       None).

(** ** Vocabulary of the statements *)

(** A grid of [size] rows of [size] cells. *)
Definition wf_board (size : Z) (b : Board) : Prop :=
  0 ≤ size ∧ length b = Z.to_nat size ∧ Forall (λ row, length row = Z.to_nat size) b.

(** The number of cells of the grid that hold [color]. *)
Definition stonesOnBoard (color : Z) (b : Board) : Z :=
  Z.of_nat (length (filter (λ v, v = color) (concat b))).

(** One step of the stone count of [calculateScore], on the cell read. *)
Definition countStep (acc : Z * Z) (cell : option Z) : Z * Z :=
  if bool_decide (cell = Some BLACK) then (acc.1 + 1, acc.2)
  else if bool_decide (cell = Some WHITE) then (acc.1, acc.2 + 1)
  else acc.

(** The stones that one neighbour contributes. *)
Definition capturedVia (size : Z) (b : Board) (opponent : Z) (neighbor : Point)
  : list Point :=
  if bool_decide (getCell b neighbor.1 neighbor.2 = Some opponent) then
    let group := getGroup size b neighbor.1 neighbor.2 in
    if bool_decide (length (liberties group) = 0%nat) then stones group else []
  else [].

(** The grid after the captured stones are taken off. *)
Definition clearStones (b : Board) (captured : list Point) : Board :=
  foldl (λ b (stone : Point), setCell b stone.1 stone.2 EMPTY) b captured.

(** The ko point that [makeMove] derives from its capture count and from
    the group of the stone it placed. *)
Definition derivedKo (count : Z) (own : Group) : option Point :=
  if bool_decide (count = 1) then
    if bool_decide (length (stones own) = 1%nat)
       && bool_decide (length (liberties own) = 1%nat)
    then head (liberties own) else None
  else None.

(** ** Invariants of the two searches *)

(** What holds of the search between two iterations, for a search started
    at [start]: the visited positions are the stones taken off the queue
    followed by the queue, no position is visited twice, every visited
    position is the start or a cell of the grid, and every liberty found is
    an empty cell of the grid. *)
Record group_inv (size : Z) (b : Board) (start : Point) (st : GroupLoop) : Prop := {
  inv_visited : gl_visited st = gl_stones st ++ gl_queue st;
  inv_nodup : NoDup (gl_visited st);
  inv_onBoard : ∀ p, p ∈ gl_visited st → p = start ∨ isOnBoard size p.1 p.2 = true;
  inv_liberties : ∀ p, p ∈ gl_liberties st →
                       isOnBoard size p.1 p.2 = true ∧ getCell b p.1 p.2 = Some EMPTY
}.

(** The visited set between two searches: cells of the grid, each once. *)
Definition visited_ok (size : Z) (visited : list Point) : Prop :=
  NoDup visited ∧ ∀ p, p ∈ visited → isOnBoard size p.1 p.2 = true.

(** Between two iterations of a search: the visited positions are those of
    the earlier searches, then this region, then the queue. *)
Record region_inv (size : Z) (earlier : list Point) (st : RegionLoop) : Prop := {
  rinv_visited : rl_visited st = earlier ++ rl_region st ++ rl_queue st;
  rinv_ok : visited_ok size (rl_visited st)
}.

(** ** Example positions *)

(** [makeMove] on a list of [(x, y, player)], for the examples. *)
Definition play (e : Engine) (m : Z * Z * Z) : Engine :=
  (makeMove e m.1.1 m.1.2 m.2).2.

(** White's three stones around the corner are one group with the single
    liberty (1,1); black holds (0,2) and (2,0) and is to move. *)
Definition corner_game : Engine :=
  play (pass (foldl play (init 3) [(0, 2, BLACK); (0, 0, WHITE); (2, 0, BLACK);
                                    (0, 1, WHITE)])).2
       (1, 0, WHITE).

(** White's corner stone (0,0) has the single liberty (1,0), where a black
    stone would have the corner as its only liberty; black is to move. *)
Definition ko_game : Engine :=
  play (pass (play (pass (foldl play (init 3) [(0, 1, BLACK); (1, 1, WHITE)])).2
                   (2, 0, WHITE))).2
       (0, 0, WHITE).

(** A 2 x 2 grid without an empty point: three black stones, one white. *)
Definition full2 : Engine :=
  mkEngine 2 [[BLACK; WHITE]; [BLACK; BLACK]] WHITE 0 0 None None [] [].

(** Three black stones on a 2 x 2 grid, white to move: the free corner is
    white's only legal move and it takes the three stones. *)
Definition last_corner : Engine :=
  mkEngine 2 [[BLACK; BLACK]; [BLACK; EMPTY]] WHITE 0 0 None None [] [].

(** A 2 x 2 grid with one black stone: the three empty points are one
    region, which touches black only. *)
Definition black_corner : Engine :=
  mkEngine 2 [[EMPTY; BLACK]; [EMPTY; EMPTY]] WHITE 0 0 None None [] [].

(** ** Vocabulary of the further statements *)

(** [q] is joined to [p] by a chain of orthogonally adjacent cells of the
    grid that all read [color]. *)
Inductive chain (size : Z) (b : Board) (color : option Z) (p : Point) : Point → Prop :=
| chain_here : chain size b color p p
| chain_step q n :
    chain size b color p q → n ∈ getNeighbors size q.1 q.2 →
    getCell b n.1 n.2 = color → chain size b color p n.

(** What the search of [getGroup] knows between two iterations, beyond
    [group_inv]: every visited position is chained to the start, the
    neighbours of the stones already taken off the queue have been looked
    at, and the liberties are the empty neighbours of those stones. *)
Record group_exact (size : Z) (b : Board) (color : option Z) (start : Point)
       (st : GroupLoop) : Prop := {
  ge_start : start ∈ gl_visited st;
  ge_chain : ∀ p, p ∈ gl_visited st → chain size b color start p;
  ge_closed : ∀ s n, s ∈ gl_stones st → n ∈ getNeighbors size s.1 s.2 →
                     getCell b n.1 n.2 = color → n ∈ gl_visited st;
  ge_found : ∀ s n, s ∈ gl_stones st → n ∈ getNeighbors size s.1 s.2 →
                    getCell b n.1 n.2 = Some EMPTY → n ∈ gl_liberties st;
  ge_liberty : ∀ l, l ∈ gl_liberties st →
                    getCell b l.1 l.2 = Some EMPTY ∧
                    ∃ s, s ∈ gl_stones st ∧ l ∈ getNeighbors size s.1 s.2;
  ge_nodup : NoDup (gl_liberties st)
}.

(** A cell that the flood fill of [calculateTerritory] walks through: it
    holds neither a black nor a white stone. *)
Definition open_cell (b : Board) (p : Point) : Prop :=
  getCell b p.1 p.2 ≠ Some BLACK ∧ getCell b p.1 p.2 ≠ Some WHITE.

(** What [calculateTerritory] keeps between two points of its scan: the
    visited set is made of open cells of the grid, each once, and the three
    counts add up to its size. *)
Definition territory_inv (size : Z) (b : Board) (acc : Territory * list Point) : Prop :=
  visited_ok size acc.2 ∧
  (∀ p, p ∈ acc.2 → open_cell b p) ∧
  t_black acc.1 + t_white acc.1 + t_neutral acc.1 = Z.of_nat (length acc.2).

(** A grid of [size] rows of [size] cells that hold EMPTY, BLACK or WHITE. *)
Definition valid_grid (size : Z) (b : Board) : Prop :=
  wf_board size b ∧ ∀ v, v ∈ concat b → v = EMPTY ∨ v = BLACK ∨ v = WHITE.

(** The grid of the engine and the grid of every snapshot are valid. *)
Definition engine_grids_ok (e : Engine) : Prop :=
  valid_grid (size e) (board e) ∧
  Forall (λ s, valid_grid (size e) (snap_board s)) (boardHistory e).

(** The test of [findCaptureMoves] on one move. *)
Definition capturesAt (e : Engine) (color : Z) (move : Point) : bool :=
  match (isValidMove e move.1 move.2 color).1 with
  | Valid captured => bool_decide (0 < length captured)%nat
  | Invalid _ => false
  end.

(** The test of [filterSafeMoves] on one move. *)
Definition safeAt (e : Engine) (color : Z) (move : Point) : bool :=
  bool_decide
    (2 ≤ length (liberties (getGroup (size e) (setCell (board e) move.1 move.2 color)
                                     move.1 move.2)))%nat.

(** The number of cells of the grid that read [c]. *)
Definition cellCount (size : Z) (b : Board) (c : Z) : nat :=
  length (List.filter (λ p : Point, bool_decide (getCell b p.1 p.2 = Some c))
                      (allPoints size)).

(** Two grids with the same number of cells of every colour. *)
Definition same_counts (size : Z) (b1 b2 : Board) : Prop :=
  ∀ c, cellCount size b1 c = cellCount size b2 c.

(** The region of empty cells around [p] has a neighbour that holds [c]. *)
Definition touches (size : Z) (b : Board) (p : Point) (c : Z) : Prop :=
  ∃ s n : Point,
    chain size b (Some EMPTY) p s ∧ n ∈ getNeighbors size s.1 s.2 ∧
    getCell b n.1 n.2 = Some c.

(** What the flood fill that [calculateTerritory] starts at [p] knows
    between two iterations, beyond [region_inv]: what it has visited is
    joined to [p] through empty cells, the empty neighbours of the cells
    already taken off the queue have been visited, and the two flags tell
    whether one of those cells has a black, or a white, neighbour. *)
Record fill_exact (size : Z) (b : Board) (earlier : list Point) (p : Point)
       (st : RegionLoop) : Prop := {
  fx_path : ∀ q, q ∈ rl_visited st → q ∈ earlier ∨ chain size b (Some EMPTY) p q;
  fx_closed : ∀ s n, s ∈ rl_region st → n ∈ getNeighbors size s.1 s.2 →
                     getCell b n.1 n.2 = Some EMPTY → n ∈ rl_visited st;
  fx_black : rl_touchesBlack st = true ↔
             ∃ s n, s ∈ rl_region st ∧ n ∈ getNeighbors size s.1 s.2 ∧
                    getCell b n.1 n.2 = Some BLACK;
  fx_white : rl_touchesWhite st = true ↔
             ∃ s n, s ∈ rl_region st ∧ n ∈ getNeighbors size s.1 s.2 ∧
                    getCell b n.1 n.2 = Some WHITE
}.

(** What [calculateTerritory] knows between two points of its scan: the
    visited cells are empty cells of the grid, closed under adjacency, and
    split in three lists whose lengths are the three counts: the cells whose
    region touches black only, white only, and both or neither. *)
Record scan_exact (size : Z) (b : Board) (acc : Territory * list Point)
       (lb lw ln : list Point) : Prop := {
  se_perm : acc.2 ≡ₚ lb ++ lw ++ ln;
  se_black : t_black acc.1 = Z.of_nat (length lb);
  se_white : t_white acc.1 = Z.of_nat (length lw);
  se_neutral : t_neutral acc.1 = Z.of_nat (length ln);
  se_ok : visited_ok size acc.2;
  se_empty : ∀ q, q ∈ acc.2 → getCell b q.1 q.2 = Some EMPTY;
  se_closed : ∀ q n, q ∈ acc.2 → n ∈ getNeighbors size q.1 q.2 →
                     getCell b n.1 n.2 = Some EMPTY → n ∈ acc.2;
  se_lb : ∀ q, q ∈ lb → touches size b q BLACK ∧ ¬ touches size b q WHITE;
  se_lw : ∀ q, q ∈ lw → touches size b q WHITE ∧ ¬ touches size b q BLACK;
  se_ln : ∀ q, q ∈ ln → (touches size b q BLACK ↔ touches size b q WHITE)
}.

(** ** Vocabulary for the session *)

(** The store holds, at the engine's two arrays, the engine's two logs. *)
Definition session_ok (g : WeiqiGame.Game) : Prop :=
  moveLogs (WeiqiGame.arrays g) !! WeiqiGame.rules_moveHistory g
    = Some (moveHistory (WeiqiGame.rules g)) ∧
  snapLogs (WeiqiGame.arrays g) !! WeiqiGame.rules_boardHistory g
    = Some (boardHistory (WeiqiGame.rules g)).

(** The slot in which [saveGame] puts the record. *)
Definition landingSlot (saves : list StorageManager.SaveData) (slotIndex : Z) : Z :=
  if bool_decide (0 ≤ slotIndex) && bool_decide (slotIndex < Z.of_nat (length saves)) then
    slotIndex
  else if bool_decide (StorageManager.MAX_SAVES ≤ length saves)%nat then
    Z.of_nat (length saves) - 1
  else Z.of_nat (length saves).

(** What the players do on the board screen. *)
Inductive GameAction :=
| Click (x y : Z)
| PassTurn
| TakeBack.

Definition perform (g : WeiqiGame.Game) (a : GameAction) : WeiqiGame.Game :=
  match a with
  | Click x y => WeiqiGame.handleBoardClick g x y
  | PassTurn => (WeiqiGame.pass g).2
  | TakeBack => WeiqiGame.undoMove g
  end.

(** The engine [e] with the two logs of [logs]. *)
Definition with_logs_of (e logs : Engine) : Engine :=
  set_boardHistory (set_moveHistory e (moveHistory logs)) (boardHistory logs).

(** What an action on the board screen leaves alone. *)
Record same_session (g g' : WeiqiGame.Game) : Prop := {
  ss_moves : WeiqiGame.rules_moveHistory g' = WeiqiGame.rules_moveHistory g;
  ss_snaps : WeiqiGame.rules_boardHistory g' = WeiqiGame.rules_boardHistory g;
  ss_storage : WeiqiGame.storage g' = WeiqiGame.storage g;
  ss_size : size (WeiqiGame.rules g') = size (WeiqiGame.rules g);
  ss_mode : WeiqiGame.gameMode g' = WeiqiGame.gameMode g;
  ss_other_moves : ∀ r, r ≠ WeiqiGame.rules_moveHistory g →
     moveLogs (WeiqiGame.arrays g') !! r = moveLogs (WeiqiGame.arrays g) !! r;
  ss_other_snaps : ∀ r, r ≠ WeiqiGame.rules_boardHistory g →
     snapLogs (WeiqiGame.arrays g') !! r = snapLogs (WeiqiGame.arrays g) !! r
}.

(** What happens in a game session. *)
Inductive SessionEvent :=
| OnBoard (a : GameAction)
| SelectorReply (move : option Point)
| NewGame (mode : String.string)
| AISelect (buttonId : String.string)
| SaveSlot (slotIndex now : Z) (stamp : String.string)
| LoadSlot (slotIndex : Z).

Definition handle (g : WeiqiGame.Game) (ev : SessionEvent) : WeiqiGame.Game :=
  match ev with
  | OnBoard a => perform g a
  | SelectorReply move => WeiqiGame.makeAIMove g move
  | NewGame mode => WeiqiGame.startGame g mode
  | AISelect buttonId => WeiqiGame.handleAISelectClick g buttonId
  | SaveSlot slotIndex now stamp => WeiqiGame.saveGame g slotIndex now stamp
  | LoadSlot slotIndex => WeiqiGame.loadGame g slotIndex
  end.

(** The position that a record of the save slots holds is the one of a
    reachable engine, and its two arrays were allocated together. *)
Definition slot_sound (a : Arrays) (d : StorageManager.SaveData) : Prop :=
  StorageManager.sd_moveHistory d = StorageManager.sd_boardHistory d ∧
  (StorageManager.sd_moveHistory d < length (moveLogs a))%nat ∧
  ∃ saved, reachable saved ∧
    StorageManager.sd_board d = copyBoard (board saved) ∧
    StorageManager.sd_currentPlayer d = currentPlayer saved ∧
    StorageManager.sd_capturedBlack d = capturedBlack saved ∧
    StorageManager.sd_capturedWhite d = capturedWhite saved ∧
    StorageManager.sd_lastMove d = lastMove saved ∧
    StorageManager.sd_koPoint d = koPoint saved.

(** What every state of a session satisfies: the engine is reachable, the
    store is in step with it, every pair of arrays of the store holds the
    two logs of a reachable engine, and every record is sound. *)
Record session_sound (g : WeiqiGame.Game) : Prop := {
  sound_reach : reachable (WeiqiGame.rules g);
  sound_ok : session_ok g;
  sound_live : WeiqiGame.rules_moveHistory g = WeiqiGame.rules_boardHistory g;
  sound_len : length (moveLogs (WeiqiGame.arrays g)) = length (snapLogs (WeiqiGame.arrays g));
  sound_store : ∀ i m s,
    moveLogs (WeiqiGame.arrays g) !! i = Some m →
    snapLogs (WeiqiGame.arrays g) !! i = Some s →
    ∃ later, reachable later ∧ m = moveHistory later ∧ s = boardHistory later;
  sound_slots : ∀ d, d ∈ WeiqiGame.storage g → slot_sound (WeiqiGame.arrays g) d
}.

(** ** Example sessions *)

(** The human has chosen white against the move selector and it is white's
    turn (black has passed). *)
Definition white_human : WeiqiGame.Game :=
  (WeiqiGame.pass (WeiqiGame.handleAISelectClick WeiqiGame.new "play_white"%string)).2.

(** The human, black, has played (3,3) against the move selector, which has
    answered at (15,15). *)
Definition two_moves_in : WeiqiGame.Game :=
  let g := WeiqiGame.handleBoardClick
             (WeiqiGame.handleAISelectClick WeiqiGame.new "play_black"%string) 3 3 in
  WeiqiGame.commit g (makeMove (WeiqiGame.rules g) 15 15 WHITE).2.

(** * Properties *)

(** ** Facts about the grid *)

Lemma copyBoard_id (b : Board) : copyBoard b = b.
Proof.
  unfold copyBoard. induction b as [|row b IH]; csimpl; [done|].
  f_equal; [apply list_fmap_id | exact IH].
Qed.

Lemma getCell_Some (b : Board) x y v :
  getCell b x y = Some v ↔
  0 ≤ x ∧ 0 ≤ y ∧ ∃ row, b !! Z.to_nat x = Some row ∧ row !! Z.to_nat y = Some v.
Proof.
  unfold getCell. case_bool_decide as Hxy.
  - destruct (b !! Z.to_nat x) as [row|] eqn:Hrow; csimpl.
    + split; [intros Hv; repeat split; try tauto; eauto|].
      intros (_ & _ & row' & [= <-] & Hv). exact Hv.
    + split; [done|]. intros (_ & _ & row' & [=] & _).
  - split; [done|]. intros (? & ? & _). tauto.
Qed.

Lemma getCell_setCell_eq (b : Board) x y v :
  is_Some (getCell b x y) → getCell (setCell b x y v) x y = Some v.
Proof.
  intros [w Hw]. apply getCell_Some in Hw as (Hx & Hy & row & Hrow & Hcell).
  apply getCell_Some. repeat split; [done..|].
  exists (<[Z.to_nat y := v]> row). unfold setCell.
  rewrite bool_decide_true by done. split.
  - by rewrite list_lookup_alter_eq, Hrow.
  - apply list_lookup_insert_eq. by eapply lookup_lt_Some.
Qed.

Lemma getCell_setCell_ne (b : Board) x y v x' y' :
  (x, y) ≠ (x', y') → getCell (setCell b x y v) x' y' = getCell b x' y'.
Proof.
  intros Hne. unfold getCell, setCell.
  case_bool_decide as H'; [|done].
  case_bool_decide as H; [|done].
  destruct (decide (Z.to_nat x = Z.to_nat x')) as [Hxx|Hxx].
  - assert (x = x') as <- by lia.
    rewrite list_lookup_alter_eq. destruct (b !! Z.to_nat x) as [row|]; csimpl; [|done].
    apply list_lookup_insert_ne. intros Hyy. apply Hne. f_equal. lia.
  - by rewrite list_lookup_alter_ne.
Qed.

Lemma setCell_setCell (b : Board) x y v w :
  setCell (setCell b x y v) x y w = setCell b x y w.
Proof.
  unfold setCell. case_bool_decide; [|done].
  rewrite list_alter_alter_eq. apply list_alter_ext; [|done].
  intros row _. simpl. apply list_insert_insert_eq.
Qed.

Lemma setCell_id (b : Board) x y v : getCell b x y = Some v → setCell b x y v = b.
Proof.
  intros (Hx & Hy & row & Hrow & Hcell)%getCell_Some. unfold setCell.
  rewrite bool_decide_true by done.
  apply list_eq. intros i. destruct (decide (i = Z.to_nat x)) as [->|Hi].
  - rewrite list_lookup_alter_eq, Hrow. simpl. by rewrite list_insert_id.
  - by rewrite list_lookup_alter_ne.
Qed.

Lemma setCell_restore (b : Board) x y player :
  getCell b x y = Some EMPTY → setCell (setCell b x y player) x y EMPTY = b.
Proof. intros H. rewrite setCell_setCell. by apply setCell_id. Qed.

Lemma set_board_id e : set_board e (board e) = e.
Proof. by destruct e. Qed.

(** [isValidMove] hands back the engine it was given. *)
Lemma isValidMove_state e x y player : (isValidMove e x y player).2 = e.
Proof.
  unfold isValidMove.
  destruct (isOnBoard (size e) x y); simpl; [|done].
  case_bool_decide as Hcell; simpl; [|done].
  destruct (isKoPoint e x y); [done|].
  assert (set_board (set_board e (setCell (board e) x y player))
            (setCell (board (set_board e (setCell (board e) x y player))) x y EMPTY) = e)
    as Hback.
  { destruct e; unfold set_board; simpl in *. f_equal. by apply setCell_restore. }
  repeat (case_bool_decide || case_match); simpl; done.
Qed.

(** Split a call of [isValidMove] into its answer [v] and the engine it
    hands back, which is the engine it was given. *)
Ltac split_isValidMove e x y player v :=
  let Hst := fresh "Hst" in
  let e0 := fresh "e0" in
  pose proof (isValidMove_state e x y player) as Hst;
  destruct (isValidMove e x y player) as [v e0];
  cbn [fst snd] in *; subst e0.

(** C6: [isValidMove] hands back the engine it was given, grid included,
    for all coordinates and players, and a refusal carries one of the four
    reasons out of range, occupied, ko violation, suicide. *)
Theorem isValidMove_leaves_engine_unchanged e x y player :
  (isValidMove e x y player).2 = e ∧
  board (isValidMove e x y player).2 = board e ∧
  ∀ reason, (isValidMove e x y player).1 = Invalid reason →
    reason = OutOfRange ∨ reason = Occupied ∨ reason = KoViolation ∨ reason = Suicide.
Proof.
  split; [apply isValidMove_state|].
  split; [by rewrite isValidMove_state|].
  intros reason. unfold isValidMove.
  repeat (case_bool_decide || case_match); simpl; intros [= <-]; tauto.
Qed.

Lemma isValidMove_leaves_engine_unchanged_witness :
  (isValidMove corner_game 0 2 WHITE).1 = Invalid Occupied ∧
  (isValidMove corner_game 0 2 WHITE).2 = corner_game ∧
  (Occupied = OutOfRange ∨ Occupied = Occupied ∨ Occupied = KoViolation ∨
   Occupied = Suicide).
Proof.
  split; [reflexivity|].
  split; [exact (proj1 (isValidMove_leaves_engine_unchanged corner_game 0 2 WHITE))|].
  exact (proj2 (proj2 (isValidMove_leaves_engine_unchanged corner_game 0 2 WHITE))
           Occupied eq_refl).
Defined.

(** C3: on an empty cell of the grid that is not the ko point,
    [isValidMove] accepts the stone with its captures when it captures,
    whatever the liberties of its own group; refuses it for suicide when
    it captures nothing and its group has no liberty; and accepts it with
    no captures otherwise. *)
Theorem isValidMove_capture_then_suicide e x y player :
  isOnBoard (size e) x y = true →
  getCell (board e) x y = Some EMPTY →
  isKoPoint e x y = false →
  let placed := setCell (board e) x y player in
  let captured := getCapturedStones (size e) placed x y player in
  let own := getGroup (size e) placed x y in
  (captured ≠ [] → (isValidMove e x y player).1 = Valid captured) ∧
  (captured = [] → liberties own = [] →
   (isValidMove e x y player).1 = Invalid Suicide) ∧
  (captured = [] → liberties own ≠ [] →
   (isValidMove e x y player).1 = Valid []).
Proof.
  intros Hon Hcell Hko placed captured own.
  unfold isValidMove. rewrite Hon, Hko. simpl.
  rewrite bool_decide_true by done. simpl.
  fold placed. fold captured. unfold hasLibertyAfterMove. fold own.
  split; [|split].
  - intros Hne. rewrite bool_decide_true; [done|].
    destruct captured; [done | simpl; lia].
  - intros -> ->. by simpl.
  - intros -> Hlib. simpl. rewrite bool_decide_true; [done|].
    destruct (liberties own); [done | simpl; lia].
Qed.

Lemma isValidMove_capture_then_suicide_witness :
  isOnBoard (size corner_game) 1 1 = true ∧
  getCell (board corner_game) 1 1 = Some EMPTY ∧
  isKoPoint corner_game 1 1 = false ∧
  (isValidMove corner_game 1 1 BLACK).1 =
    Valid [(0, 1); (0, 0); (1, 0); (1, 0); (0, 0); (0, 1)].
Proof.
  split; [reflexivity|]. split; [reflexivity|]. split; [reflexivity|].
  exact (proj1 (isValidMove_capture_then_suicide corner_game 1 1 BLACK eq_refl eq_refl eq_refl)
           ltac:(vm_compute; discriminate)).
Defined.

Lemma pass_unfold e :
  pass e = (mkPassResult true (from_option isPass false (last (moveHistory e))),
            passed_engine e).
Proof.
  unfold pass. fold (passed_engine e).
  assert (moveHistory (passed_engine e) = moveHistory e ++ [Passed (currentPlayer e)])
    as -> by done.
  destruct (moveHistory e) as [|m h _] using rev_ind.
  - by simpl.
  - rewrite last_snoc. simpl.
    rewrite bool_decide_true by (rewrite !length_app; simpl; lia).
    replace (length ((h ++ [m]) ++ [Passed (currentPlayer e)]) - 2)%nat
      with (length h + 0)%nat by (rewrite !length_app; simpl; lia).
    rewrite <- (assoc_L (++)). rewrite drop_app_add. simpl.
    by destruct (isPass m).
Qed.

Lemma getOpponent_ne player : getOpponent player ≠ player.
Proof. unfold getOpponent. case_bool_decide; subst; done. Qed.

(** C8: [pass] reports the end of the game exactly when the move log, with
    the new pass appended, ends in two passes; from an empty log the first
    pass does not end the game and the second does; every pass hands the
    turn to the opponent and clears the ko point. *)
Theorem pass_reports_game_end e :
  (gameEnd (pass e).1 = true ↔
   ∃ h a b, moveHistory (pass e).2 = h ++ [a; b] ∧ isPass a = true ∧ isPass b = true) ∧
  moveHistory (pass e).2 = moveHistory e ++ [Passed (currentPlayer e)] ∧
  (moveHistory e = [] →
   gameEnd (pass e).1 = false ∧ gameEnd (pass (pass e).2).1 = true) ∧
  currentPlayer (pass e).2 = getOpponent (currentPlayer e) ∧
  currentPlayer (pass e).2 ≠ currentPlayer e ∧
  koPoint (pass e).2 = None ∧
  pass_success (pass e).1 = true.
Proof.
  rewrite !pass_unfold. simpl.
  split; [|split; [done|split; [|split; [done|split; [apply getOpponent_ne|done]]]]].
  - destruct (moveHistory e) as [|m h _] using rev_ind.
    + simpl. split; [done|]. intros (h & a & b & Heq & _).
      apply (f_equal length) in Heq. rewrite length_app in Heq. simpl in Heq. lia.
    + rewrite last_snoc. simpl. split.
      * intros Hm. exists h, m, (Passed (currentPlayer e)).
        by rewrite <- (assoc_L (++)).
      * intros (h' & a & b & Heq & Ha & _).
        change [a; b] with ([a] ++ [b]) in Heq. rewrite (assoc_L (++)) in Heq.
        apply app_inj_tail in Heq as [Heq _].
        apply app_inj_tail in Heq as [_ ->]. exact Ha.
  - intros He. unfold passed_engine. simpl. rewrite He. by simpl.
Qed.

Lemma pass_reports_game_end_witness :
  moveHistory (init 3) = [] ∧
  gameEnd (pass (init 3)).1 = false ∧
  gameEnd (pass (pass (init 3)).2).1 = true.
Proof.
  split; [reflexivity|].
  exact (proj1 (proj2 (proj2 (pass_reports_game_end (init 3)))) eq_refl).
Defined.

(** ** The snapshot invariant *)

Lemma saveBoardState_unfold e :
  saveBoardState e = set_boardHistory e (boardHistory e ++ [snapshot_of e]).
Proof. unfold saveBoardState, snapshot_of. by rewrite copyBoard_id. Qed.

Lemma saveBoardState_ok e : history_ok (saveBoardState e).
Proof. rewrite saveBoardState_unfold. unfold history_ok. simpl. apply last_snoc. Qed.

Lemma removeGroup_frame e l :
  let e' := (removeGroup e l).2 in
  size e' = size e ∧ currentPlayer e' = currentPlayer e ∧ lastMove e' = lastMove e ∧
  koPoint e' = koPoint e ∧ moveHistory e' = moveHistory e ∧
  boardHistory e' = boardHistory e.
Proof.
  unfold removeGroup. destruct l as [|s0 l]; simpl; [done|].
  case_bool_decide; simpl; done.
Qed.

(** What a successful [makeMove] leaves behind: the engine before the final
    snapshot, whose logs are those of [e] plus the new move. *)
Lemma makeMove_valid_shape e x y player :
  is_valid (isValidMove e x y player).1 = true →
  ∃ e7 count,
    makeMove e x y player = (MoveOk count (koPoint e7), saveBoardState e7) ∧
    size e7 = size e ∧
    moveHistory e7 = moveHistory e ++ [Placed x y player count] ∧
    boardHistory e7 = boardHistory e ∧
    currentPlayer e7 = getOpponent player ∧
    lastMove e7 = Some (mkLastMove x y player).
Proof.
  intros Hv. unfold makeMove.
  split_isValidMove e x y player v.
  destruct v as [|caps]; [done|].
  set (e1 := set_board e _).
  set (captured := getCapturedStones _ _ x y player).
  set (rm := if bool_decide (0 < length captured)%nat then removeGroup e1 captured else (0, e1)).
  assert (size rm.2 = size e ∧ moveHistory rm.2 = moveHistory e ∧
          boardHistory rm.2 = boardHistory e) as (Hs & Hm & Hb).
  { subst rm. case_bool_decide; [|done].
    pose proof (removeGroup_frame e1 captured) as Hf. simpl in Hf. tauto. }
  destruct rm as [count e2]. simpl in Hs, Hm, Hb.
  match goal with |- context [saveBoardState ?e7] => exists e7, count end.
  split; [reflexivity|].
  repeat (case_bool_decide || case_match); simpl; rewrite ?Hs, ?Hm, ?Hb; done.
Qed.

Lemma makeMove_invalid e x y player :
  is_valid (isValidMove e x y player).1 = false → (makeMove e x y player).2 = e.
Proof.
  intros Hv. unfold makeMove.
  split_isValidMove e x y player v. by destruct v.
Qed.

Lemma undoMove_ok e : history_ok e → history_ok (undoMove e).2.
Proof.
  intros Hok. unfold undoMove. case_bool_decide; [done|]. simpl.
  destruct (last (removelast (boardHistory e))) as [prev|] eqn:Hlast; simpl.
  - unfold history_ok. simpl. rewrite Hlast, copyBoard_id. by destruct prev.
  - apply last_None in Hlast.
    destruct (boardHistory e) as [|s h _] using rev_ind; [simpl in *; lia|].
    rewrite removelast_last in Hlast. subst h. simpl in *. lia.
Qed.

Lemma makeMove_history_ok e x y player :
  is_valid (isValidMove e x y player).1 = true → history_ok (makeMove e x y player).2.
Proof.
  intros Hv. destruct (makeMove_valid_shape e x y player Hv) as (e7 & c & -> & _).
  apply saveBoardState_ok.
Qed.

Lemma pass_history_ok e : history_ok (pass e).2.
Proof. rewrite pass_unfold. apply saveBoardState_ok. Qed.

Lemma loadState_history_ok e0 e : history_ok e → history_ok (loadState e0 (getFullGameState e)).
Proof.
  unfold history_ok, loadState, getFullGameState, getBoardState, snapshot_of.
  simpl. by rewrite !copyBoard_id.
Qed.

(** What [undoMove] does to an engine whose snapshot history is [h ++ [s]]
    once the newest entry is gone: it restores [s]. *)
Lemma undoMove_restores e h s newest :
  boardHistory e = h ++ [s; newest] →
  undoMove e =
  (UndoOk,
   mkEngine (size e) (snap_board s) (snap_currentPlayer s) (snap_capturedBlack s)
            (snap_capturedWhite s) (snap_lastMove s) (snap_koPoint s)
            (removelast (moveHistory e)) (h ++ [s])).
Proof.
  intros Hb. unfold undoMove.
  rewrite bool_decide_false by (rewrite Hb, length_app; simpl; lia).
  cbn [set_boardHistory set_moveHistory boardHistory moveHistory size].
  assert (removelast (boardHistory e) = h ++ [s]) as ->.
  { rewrite Hb. change (h ++ [s; newest]) with (h ++ [s] ++ [newest]).
    by rewrite (assoc_L (++)), removelast_last. }
  by rewrite last_snoc, copyBoard_id.
Qed.

Lemma snapshot_fields e s :
  mkEngine (size e) (snap_board s) (snap_currentPlayer s) (snap_capturedBlack s)
           (snap_capturedWhite s) (snap_lastMove s) (snap_koPoint s)
           (moveHistory e) (boardHistory e) = e ↔ s = snapshot_of e.
Proof.
  unfold snapshot_of. destruct e, s; simpl. split; intros [=]; by subst.
Qed.


(** [undoMove] on an engine [m] that differs from [e] by one more entry in
    each log: it gives [e] back exactly when the newest snapshot of [e] is
    the position of [e]. *)
Lemma undoMove_after_push e m entry newest :
  size m = size e →
  moveHistory m = moveHistory e ++ [entry] →
  boardHistory m = boardHistory e ++ [newest] →
  (history_ok e → undoMove m = (UndoOk, e)) ∧ ((undoMove m).2 = e → history_ok e).
Proof.
  intros Hs Hm Hb.
  assert (boardHistory e = [] ∨ ∃ h s, boardHistory e = h ++ [s]) as [Hnil|(h & s & Hhs)]
    by (destruct (boardHistory e) using rev_ind; eauto).
  - split.
    + unfold history_ok. by rewrite Hnil.
    + unfold undoMove. rewrite bool_decide_true by (rewrite Hb, Hnil; simpl; lia).
      simpl. intros <-. apply (f_equal length) in Hm. rewrite length_app in Hm.
      simpl in Hm. lia.
  - rewrite (undoMove_restores m h s newest)
      by (by rewrite Hb, Hhs, <- (assoc_L (++))).
    rewrite Hs, Hm, removelast_last, <- Hhs. unfold history_ok. rewrite Hhs, last_snoc.
    rewrite <- Hhs. cbn [snd]. split.
    + intros [= ->]. f_equal. by apply snapshot_fields.
    + intros He. f_equal. by apply snapshot_fields.
Qed.

(** C5 fails on engines that the game reaches.  A game is saved at its
    start, black plays (3,3) and the slot is loaded: the engine has the
    empty grid of the save with black to move, and the two logs of the
    game after the stone, because the slot holds the engine's own arrays.
    Black's move at (4,4) is legal; [undoMove] after it succeeds and
    restores the grid with the stone at (3,3), white to move and (3,3) as
    the last move, not the position before the move.  On the engine that
    [loadState] makes of the bare record of [getBoardState] the logs are
    empty, and [undoMove] after a legal move answers that there is nothing
    to undo. *)
Theorem makeMove_undoMove_after_load_restores_another_position :
  let saved := WeiqiGame.saveGame WeiqiGame.new (-1) 0 "now"%string in
  let played := WeiqiGame.handleBoardClick saved 3 3 in
  let e := WeiqiGame.rules (WeiqiGame.loadGame played 0) in
  let undone := undoMove (makeMove e 4 4 BLACK).2 in
  let bare := loadState (init 3) (getBoardState (init 3)) in
  (reachable e ∧
   is_valid (isValidMove e 4 4 BLACK).1 = true ∧
   undone.1 = UndoOk ∧
   getCell (board e) 3 3 = Some EMPTY ∧ getCell (board undone.2) 3 3 = Some BLACK ∧
   currentPlayer e = BLACK ∧ currentPlayer undone.2 = WHITE ∧
   lastMove e = None ∧ lastMove undone.2 = Some (mkLastMove 3 3 BLACK)) ∧
  (is_valid (isValidMove bare 1 1 BLACK).1 = true ∧
   undoMove (makeMove bare 1 1 BLACK).2
   = (UndoFail NothingToUndo, (makeMove bare 1 1 BLACK).2)).
Proof.
  intros saved played e undone bare. split; [split|].
  - assert (e = loadState (init BOARD_SIZE)
                  (slotRecord (init BOARD_SIZE) (makeMove (init BOARD_SIZE) 3 3 BLACK).2))
      as -> by (vm_compute; reflexivity).
    apply reach_loadState; [apply reach_init | apply reach_init |].
    apply reach_makeMove, reach_init.
  - vm_compute. repeat split.
  - vm_compute. repeat split.
Qed.

(** C5, amended: a legal [makeMove] always succeeds, and followed by
    [undoMove] it gives back the grid, the player to move, both capture
    tallies, the ko point and the last move, and the two logs with them,
    exactly when the newest snapshot of the engine is its position.  That
    is so in a new game and after every legal [makeMove] and every [pass];
    [undoMove] keeps it, and so does [loadState] of a record that carries
    copies of the two logs of such an engine. *)
Theorem makeMove_undoMove_round_trip e x y player :
  is_valid (isValidMove e x y player).1 = true →
  let moved := makeMove e x y player in
  let undone := undoMove moved.2 in
  move_success moved.1 = true ∧
  (history_ok e →
   undone.1 = UndoOk ∧
   board undone.2 = board e ∧
   currentPlayer undone.2 = currentPlayer e ∧
   capturedBlack undone.2 = capturedBlack e ∧
   capturedWhite undone.2 = capturedWhite e ∧
   koPoint undone.2 = koPoint e ∧
   lastMove undone.2 = lastMove e ∧
   undone.2 = e) ∧
  (undone.2 = e → history_ok e) ∧
  (∀ size, history_ok (init size)) ∧
  history_ok moved.2 ∧
  history_ok (pass e).2 ∧
  (history_ok e →
   history_ok (undoMove e).2 ∧ ∀ e0, history_ok (loadState e0 (getFullGameState e))).
Proof.
  intros Hv moved undone.
  destruct (makeMove_valid_shape e x y player Hv)
    as (e7 & c & Hmove & Hs & Hm & Hb & _).
  destruct (undoMove_after_push e moved.2 (Placed x y player c) (snapshot_of e7))
    as [Hback Hneeds].
  { subst moved. by rewrite Hmove. }
  { subst moved. by rewrite Hmove. }
  { subst moved. rewrite Hmove. cbn [snd]. rewrite saveBoardState_unfold. simpl.
    by rewrite Hb. }
  split; [subst moved; by rewrite Hmove|].
  split; [|split; [exact Hneeds|split; [|split; [|split; [|split]]]]].
  - intros Hok. subst undone. rewrite (Hback Hok). by simpl.
  - intros size. apply saveBoardState_ok.
  - by apply makeMove_history_ok.
  - apply pass_history_ok.
  - by apply undoMove_ok.
  - intros e0. by apply loadState_history_ok.
Qed.

Lemma makeMove_undoMove_round_trip_witness :
  is_valid (isValidMove (pass (init 3)).2 1 1 WHITE).1 = true ∧
  history_ok (pass (init 3)).2 ∧
  (undoMove (makeMove (pass (init 3)).2 1 1 WHITE).2).2 = (pass (init 3)).2.
Proof.
  split; [reflexivity|]. split; [apply pass_history_ok|].
  apply (proj1 (proj2 (makeMove_undoMove_round_trip (pass (init 3)).2 1 1 WHITE eq_refl))),
        pass_history_ok.
Defined.

Lemma reach_play e m : reachable e → reachable (play e m).
Proof. apply reach_makeMove. Qed.

Lemma reach_plays e l : reachable e → reachable (foldl play e l).
Proof. revert e. induction l as [|m l IH]; simpl; auto using reach_play. Qed.

(** C2 fails after a single pass: the record of [getBoardState] has no
    logs, so the restored engine has an empty move log and an empty
    snapshot history; it cannot undo, and its next pass does not end the
    game, where the original's does. *)
Lemma loadState_getBoardState_loses_logs :
  let e := (pass (init 3)).2 in
  let restored := loadState e (getBoardState e) in
  restored ≠ e ∧
  boardHistory e ≠ [] ∧ boardHistory restored = [] ∧
  moveHistory e ≠ [] ∧ moveHistory restored = [] ∧
  (undoMove e).1 = UndoOk ∧ (undoMove restored).1 = UndoFail NothingToUndo ∧
  gameEnd (pass e).1 = true ∧ gameEnd (pass restored).1 = false.
Proof. vm_compute. repeat split; discriminate. Qed.

(** C2, amended: [loadState] of the record of [getBoardState] restores the
    grid, the player to move, both capture tallies, the last move and the
    ko point, and leaves both logs empty; of the record that carries the
    two logs as well ([getFullGameState]) it restores the logs too, and on
    the engine the record came from the round trip is the identity. *)
Theorem loadState_restores_position_and_given_logs e0 e :
  let restored := loadState e0 (getBoardState e) in
  let restoredFull := loadState e0 (getFullGameState e) in
  (board restored = board e ∧ currentPlayer restored = currentPlayer e ∧
   capturedBlack restored = capturedBlack e ∧ capturedWhite restored = capturedWhite e ∧
   lastMove restored = lastMove e ∧ koPoint restored = koPoint e) ∧
  (moveHistory restored = [] ∧ boardHistory restored = []) ∧
  (board restoredFull = board e ∧ currentPlayer restoredFull = currentPlayer e ∧
   capturedBlack restoredFull = capturedBlack e ∧
   capturedWhite restoredFull = capturedWhite e ∧
   lastMove restoredFull = lastMove e ∧ koPoint restoredFull = koPoint e ∧
   moveHistory restoredFull = moveHistory e ∧
   boardHistory restoredFull = boardHistory e) ∧
  loadState e (getFullGameState e) = e.
Proof.
  simpl. rewrite !copyBoard_id. repeat split.
  destruct e; unfold loadState; simpl. by rewrite !copyBoard_id.
Qed.

(** C1, at a position the engine reaches in play: black's stone at (1,1)
    touches the white corner group through two of its stones, (0,1) and
    (1,0).  [getCapturedStones] returns the three white stones twice over,
    and [makeMove] adds 6 to white's captured-stone tally although three
    stones leave the grid; the claim asks for each stone once and a tally
    of 3. *)
Theorem getCapturedStones_counts_shared_group_twice :
  reachable corner_game ∧
  board corner_game = [[WHITE; WHITE; BLACK]; [WHITE; EMPTY; EMPTY]; [BLACK; EMPTY; EMPTY]] ∧
  getCapturedStones 3 (setCell (board corner_game) 1 1 BLACK) 1 1 BLACK
    = [(0, 1); (0, 0); (1, 0); (1, 0); (0, 0); (0, 1)] ∧
  (isValidMove corner_game 1 1 BLACK).1
    = Valid [(0, 1); (0, 0); (1, 0); (1, 0); (0, 0); (0, 1)] ∧
  (makeMove corner_game 1 1 BLACK).1 = MoveOk 6 None ∧
  board (makeMove corner_game 1 1 BLACK).2
    = [[EMPTY; EMPTY; BLACK]; [EMPTY; BLACK; EMPTY]; [BLACK; EMPTY; EMPTY]] ∧
  capturedWhite corner_game = 0 ∧
  capturedWhite (makeMove corner_game 1 1 BLACK).2 = 6.
Proof.
  split; [|vm_compute; repeat split].
  apply reach_play, reach_pass, reach_plays, reach_init.
Qed.

(** ** Score *)

Lemma lookup_seqZ_fmap {A} (l : list A) n :
  length l = Z.to_nat n →
  (λ i, l !! Z.to_nat i) <$> seqZ 0 n = Some <$> l.
Proof.
  intros Hlen. apply list_eq. intros i. rewrite !list_lookup_fmap.
  destruct (decide (Z.of_nat i < n)) as [Hi|Hi].
  - rewrite lookup_seqZ_lt by done. simpl. rewrite Z.add_0_l, Nat2Z.id.
    destruct (lookup_lt_is_Some_2 l i) as [v ->]; [lia | done].
  - rewrite lookup_seqZ_ge by lia. rewrite lookup_ge_None_2 by lia. done.
Qed.

Lemma fmap_bind_list {A B C} (g : B → C) (f : A → list B) (l : list A) :
  g <$> (l ≫= f) = l ≫= λ x, g <$> f x.
Proof. induction l as [|x l IH]; csimpl; [done|]. by rewrite fmap_app, IH. Qed.

(** On a well-formed grid the two nested loops read the cells row by row. *)
Lemma cells_allPoints size (b : Board) :
  wf_board size b →
  (λ p : Point, getCell b p.1 p.2) <$> allPoints size = Some <$> concat b.
Proof.
  intros (Hn & Hlen & Hrows). unfold allPoints.
  rewrite fmap_bind_list.
  transitivity (((λ i, b !! Z.to_nat i) <$> seqZ 0 size) ≫=
                  λ r : option (list Z), from_option (fmap Some) [] r).
  - rewrite list_fmap_bind. apply Forall_bind_ext, Forall_forall.
    intros x Hx%elem_of_seqZ. simpl.
    destruct (b !! Z.to_nat x) as [row|] eqn:Hrow.
    + simpl. rewrite <- (lookup_seqZ_fmap row size).
      * rewrite <- !list_fmap_compose. apply list_fmap_ext.
        intros i y Hy%list_elem_of_lookup_2%elem_of_seqZ. simpl.
        unfold getCell. rewrite bool_decide_true by lia. by rewrite Hrow.
      * eapply Forall_lookup_1 in Hrows; eauto.
    + apply lookup_ge_None in Hrow. lia.
  - rewrite (lookup_seqZ_fmap b size Hlen). rewrite list_fmap_bind.
    clear. induction b as [|row b IH]; [done|]. csimpl. by rewrite fmap_app, IH.
Qed.

Lemma countStep_foldl (l : list Z) acc :
  foldl countStep acc (Some <$> l) =
  (acc.1 + Z.of_nat (length (filter (λ v, v = BLACK) l)),
   acc.2 + Z.of_nat (length (filter (λ v, v = WHITE) l))).
Proof.
  revert acc. induction l as [|v l IH]; intros [a c]; simpl.
  - f_equal; lia.
  - rewrite IH. unfold countStep. rewrite !filter_cons.
    repeat (case_bool_decide || case_decide); simplify_eq/=; try done;
      f_equal; lia.
Qed.

Lemma countStones_wf size (b : Board) :
  wf_board size b →
  countStones size b = (stonesOnBoard BLACK b, stonesOnBoard WHITE b).
Proof.
  intros Hwf. unfold countStones, stonesOnBoard.
  change (foldl _ (0, 0) (allPoints size))
    with (foldl (λ acc (p : Point), countStep acc (getCell b p.1 p.2)) (0, 0)
                (allPoints size)).
  rewrite <- (foldl_fmap countStep (0, 0) (allPoints size)
                (λ p : Point, getCell b p.1 p.2)).
  rewrite (cells_allPoints size b Hwf). by rewrite countStep_foldl.
Qed.

Lemma no_empty_cell size (b : Board) p :
  wf_board size b → EMPTY ∉ concat b → p ∈ allPoints size →
  getCell b p.1 p.2 ≠ Some EMPTY.
Proof.
  intros Hwf Hfull Hp Hcell. apply Hfull.
  assert (Some EMPTY ∈ Some <$> concat b) as Hin.
  { rewrite <- (cells_allPoints size b Hwf), <- Hcell.
    by apply (list_elem_of_fmap_2 (λ p : Point, getCell b p.1 p.2)). }
  apply list_elem_of_fmap in Hin as (v & [= <-] & Hv). exact Hv.
Qed.

Lemma calculateTerritory_full size (b : Board) :
  wf_board size b → EMPTY ∉ concat b →
  calculateTerritory size b = mkTerritory 0 0 0.
Proof.
  intros Hwf Hfull. unfold calculateTerritory.
  assert (∀ l acc, (∀ p, p ∈ l → getCell b p.1 p.2 ≠ Some EMPTY) →
                   foldl (territoryStep size b) acc l = acc) as Hskip.
  { induction l as [|p l IH]; intros acc Hl; simpl; [done|].
    rewrite IH by (intros q Hq; apply Hl; by right).
    unfold territoryStep. destruct acc as [t v].
    rewrite bool_decide_false by (apply Hl; by left). done. }
  rewrite Hskip; [done|]. intros p Hp. by eapply no_empty_cell.
Qed.

Lemma foldl_invariant {A B} (P : A → Prop) (f : A → B → A) (l : list B) (a : A) :
  (∀ a x, P a → P (f a x)) → P a → P (foldl f a l).
Proof. intros Hstep. revert a. induction l; simpl; auto. Qed.

Lemma countStones_nonneg size (b : Board) :
  0 ≤ (countStones size b).1 ∧ 0 ≤ (countStones size b).2.
Proof.
  unfold countStones. apply (foldl_invariant (λ acc : Z * Z, 0 ≤ acc.1 ∧ 0 ≤ acc.2)).
  - intros [a c] p [Ha Hc]; simpl in *. repeat case_bool_decide; simpl; lia.
  - simpl. lia.
Qed.

Lemma calculateTerritory_nonneg size (b : Board) :
  0 ≤ t_black (calculateTerritory size b) ∧ 0 ≤ t_white (calculateTerritory size b).
Proof.
  unfold calculateTerritory.
  apply (foldl_invariant
           (λ acc : Territory * list Point, 0 ≤ t_black acc.1 ∧ 0 ≤ t_white acc.1)).
  - intros [t v] p [Hb Hw]; simpl in *. unfold territoryStep.
    repeat case_match; simpl; lia.
  - simpl. lia.
Qed.

Lemma score_fields e :
  let s := calculateScore e in
  sc_black s = inject_Z (sc_blackStones s + sc_blackTerritory s) ∧
  sc_white s = (inject_Z (sc_whiteStones s + sc_whiteTerritory s) + komi)%Q ∧
  sc_blackStones s = (countStones (size e) (board e)).1 ∧
  sc_whiteStones s = (countStones (size e) (board e)).2 ∧
  sc_blackTerritory s = t_black (calculateTerritory (size e) (board e)) ∧
  sc_whiteTerritory s = t_white (calculateTerritory (size e) (board e)) ∧
  sc_winner s = (if Qlt_le_dec (sc_white s) (sc_black s) then BLACK else WHITE) ∧
  sc_margin s = Qabs (sc_black s - sc_white s).
Proof. unfold calculateScore. destruct (countStones _ _) as [bs ws]. by simpl. Qed.

Lemma integer_ne_half (n m : Z) : ¬ (inject_Z n == inject_Z m + komi)%Q.
Proof. unfold Qeq, Qplus, komi, inject_Z. simpl. lia. Qed.

Lemma winner_cases e :
  let s := calculateScore e in
  (sc_winner s = BLACK ∧ (sc_white s < sc_black s)%Q) ∨
  (sc_winner s = WHITE ∧ (sc_black s < sc_white s)%Q).
Proof.
  intros s. destruct (score_fields e) as (Hb & Hw & _ & _ & _ & _ & Hwin & _).
  fold s in Hb, Hw, Hwin. rewrite Hwin.
  destruct (Qlt_le_dec (sc_white s) (sc_black s)) as [Hlt|Hle]; [by left|right].
  split; [done|]. apply Qle_lteq in Hle as [Hlt|Heq]; [done|].
  rewrite Hb, Hw in Heq. by apply integer_ne_half in Heq.
Qed.

(** C10: black's score is a whole number, white's is a whole number plus
    7.5, the two are never equal, and the winner is BLACK exactly when
    black's score is the greater and WHITE otherwise. *)
Theorem calculateScore_never_ties e :
  let s := calculateScore e in
  (∃ n : Z, 0 ≤ n ∧ n = sc_blackStones s + sc_blackTerritory s ∧
            sc_black s = inject_Z n) ∧
  (∃ m : Z, 0 ≤ m ∧ m = sc_whiteStones s + sc_whiteTerritory s ∧
            sc_white s = (inject_Z m + (15 # 2))%Q) ∧
  ¬ (sc_black s == sc_white s)%Q ∧
  (sc_winner s = BLACK ↔ (sc_white s < sc_black s)%Q) ∧
  (sc_winner s = WHITE ↔ ¬ (sc_white s < sc_black s)%Q).
Proof.
  intros s.
  destruct (score_fields e) as (Hb & Hw & Hbs & Hws & Hbt & Hwt & Hwin & _).
  fold s in Hb, Hw, Hbs, Hws, Hbt, Hwt, Hwin.
  pose proof (countStones_nonneg (size e) (board e)) as [? ?].
  pose proof (calculateTerritory_nonneg (size e) (board e)) as [? ?].
  split; [|split; [|split; [|split]]].
  - eexists. split; [|split; [reflexivity|exact Hb]]. lia.
  - eexists. split; [|split; [reflexivity|exact Hw]]. lia.
  - rewrite Hb, Hw. apply integer_ne_half.
  - rewrite Hwin. destruct (Qlt_le_dec _ _); [done|].
    split; [done|]. intros Hlt. exfalso. eapply Qlt_not_le; eauto.
  - rewrite Hwin. destruct (Qlt_le_dec _ _) as [Hlt|Hle].
    + split; [done|]. intros Hn. by destruct Hn.
    + split; [|done]. intros _ Hlt. eapply Qlt_not_le; eauto.
Qed.

(** ** The easy tier *)

Lemma getAllValidMoves_state e player : (getAllValidMoves e player).2 = e.
Proof.
  unfold getAllValidMoves.
  apply (foldl_invariant (λ acc : list Point * Engine, acc.2 = e)); [|done].
  intros [moves e'] p. simpl. intros ->.
  pose proof (isValidMove_state e p.1 p.2 player) as Hst.
  by destruct (isValidMove e p.1 p.2 player).
Qed.

Lemma pickRandom_singleton r move :
  (0 <= r)%Q → (r < 1)%Q → pickRandom r [move] = Some move.
Proof.
  intros H0 H1. unfold pickRandom.
  change (Z.of_nat (length [move])) with 1.
  assert (Qfloor (r * inject_Z 1) = 0) as ->; [|done].
  assert (r * inject_Z 1 == r)%Q as Hr by apply Qmult_1_r.
  rewrite (Qfloor_comp _ _ Hr).
  pose proof (Qfloor_le r) as Hle. pose proof (Qlt_floor r) as Hlt.
  assert (inject_Z (Qfloor r) < inject_Z 1)%Q as Hup by (eapply Qle_lt_trans; eauto).
  assert (inject_Z 0 < inject_Z (Qfloor r + 1))%Q as Hlow by (eapply Qle_lt_trans; eauto).
  rewrite <- Zlt_Qlt in Hup, Hlow. lia.
Qed.

(** C9: when the colour to play has one legal move and its legality check
    reports captures, the easy tier returns that move for every value
    [Math.random()] can return, and leaves the engine as it was. *)
Theorem getEasyMove_single_capturing_move e color move captured r :
  (getAllValidMoves e color).1 = [move] →
  (isValidMove e move.1 move.2 color).1 = Valid captured →
  captured ≠ [] →
  (0 <= r)%Q → (r < 1)%Q →
  getMove_easy e color r = (Some move, e).
Proof.
  intros Hmoves Hvalid Hcap H0 H1. unfold getMove_easy.
  pose proof (getAllValidMoves_state e color) as Hst.
  destruct (getAllValidMoves e color) as [validMoves e1]. simpl in Hmoves, Hst.
  subst validMoves e1. rewrite <- (pickRandom_singleton r move H0 H1).
  rewrite bool_decide_false by done.
  unfold getEasyMove, findCaptureMoves. cbn [foldl fst snd].
  split_isValidMove e move.1 move.2 color v. subst v.
  rewrite (bool_decide_true (0 < length captured)%nat)
    by (destruct captured; [done | simpl; lia]).
  cbn [app]. by rewrite bool_decide_true by (simpl; lia).
Qed.

Lemma getEasyMove_single_capturing_move_witness :
  (getAllValidMoves last_corner WHITE).1 = [(1, 1)] ∧
  (isValidMove last_corner 1 1 WHITE).1 = Valid [(0, 1); (0, 0); (1, 0); (1, 0); (0, 0); (0, 1)] ∧
  (0 <= 7 # 10)%Q ∧ (7 # 10 < 1)%Q ∧
  getMove_easy last_corner WHITE (7 # 10) = (Some (1, 1), last_corner).
Proof.
  split; [reflexivity|]. split; [reflexivity|].
  split; [done|]. split; [done|].
  apply (getEasyMove_single_capturing_move last_corner WHITE (1, 1)
           [(0, 1); (0, 0); (1, 0); (1, 0); (0, 0); (0, 1)] (7 # 10));
    [reflexivity | reflexivity | discriminate | done | done].
Defined.

(** ** Neighbours and the grid enumeration *)

Lemma isOnBoard_spec size x y :
  isOnBoard size x y = true ↔ 0 ≤ x < size ∧ 0 ≤ y < size.
Proof. unfold isOnBoard. rewrite !andb_true_iff. lia. Qed.

Lemma elem_of_getNeighbors size x y (n : Point) :
  n ∈ getNeighbors size x y ↔
  isOnBoard size n.1 n.2 = true ∧
  (n = (x - 1, y) ∨ n = (x + 1, y) ∨ n = (x, y - 1) ∨ n = (x, y + 1)).
Proof.
  unfold getNeighbors. rewrite list_elem_of_In, filter_In, <- list_elem_of_In.
  unfold directions. simpl. rewrite !elem_of_cons, elem_of_nil.
  replace (x + -1) with (x - 1) by lia. replace (y + -1) with (y - 1) by lia.
  rewrite !Z.add_0_r. tauto.
Qed.

Lemma getNeighbors_onBoard size x y (n : Point) :
  n ∈ getNeighbors size x y → isOnBoard size n.1 n.2 = true.
Proof. by intros [? _]%elem_of_getNeighbors. Qed.

Lemma getNeighbors_ne size x y (n : Point) : n ∈ getNeighbors size x y → n ≠ (x, y).
Proof.
  intros [_ Hn]%elem_of_getNeighbors ->.
  destruct Hn as [[=]|[[=]|[[=]|[=]]]]; lia.
Qed.

Lemma NoDup_getNeighbors size x y : NoDup (getNeighbors size x y).
Proof.
  unfold getNeighbors. apply NoDup_ListNoDup, List.NoDup_filter, NoDup_ListNoDup.
  unfold directions. simpl. repeat (apply NoDup_cons; split);
    rewrite ?elem_of_cons, ?elem_of_nil; try apply NoDup_nil_2.
  all: intros H; repeat destruct H as [H|H]; try done; simplify_eq; lia.
Qed.

Create HintDb grid discriminated.
#[local] Hint Resolve getNeighbors_onBoard getNeighbors_ne NoDup_getNeighbors : grid.

Lemma elem_of_allPoints size (p : Point) :
  p ∈ allPoints size ↔ isOnBoard size p.1 p.2 = true.
Proof.
  unfold allPoints. rewrite list_elem_of_bind, isOnBoard_spec. split.
  - intros (x & (y & -> & Hy%elem_of_seqZ)%list_elem_of_fmap & Hx%elem_of_seqZ).
    simpl. lia.
  - intros [Hx Hy]. exists p.1. rewrite elem_of_seqZ. split; [|lia].
    apply list_elem_of_fmap. exists p.2. rewrite elem_of_seqZ.
    split; [by destruct p | lia].
Qed.

Lemma length_allPoints size : (length (allPoints size) ≤ Z.to_nat (size * size))%nat.
Proof.
  assert (∀ l : list Z,
            length (l ≫= λ x, (λ y, (x, y)) <$> seqZ 0 size)
            = (length l * Z.to_nat size)%nat) as Hlen.
  { induction l as [|x l IH]; csimpl; [done|].
    by rewrite length_app, length_fmap, length_seqZ, IH. }
  unfold allPoints. rewrite Hlen, length_seqZ. nia.
Qed.

(** ** The search of [getGroup] *)

Lemma set_has_true k s : set_has k s = true ↔ k ∈ s.
Proof. unfold set_has. apply bool_decide_eq_true. Qed.

Lemma elem_of_set_add k p s : p ∈ set_add k s ↔ p = k ∨ p ∈ s.
Proof.
  unfold set_add. destruct (set_has k s) eqn:Hhas.
  - apply set_has_true in Hhas. split; [by right|]. by intros [->|].
  - rewrite elem_of_app, list_elem_of_singleton. tauto.
Qed.

Section group_search.
Context (size : Z) (b : Board) (color : option Z) (start : Point).
Implicit Types (st : GroupLoop) (n : Point) (fuel : nat).

Lemma groupVisit_stones st n :
  gl_stones (groupVisit b color st n) = gl_stones st.
Proof. unfold groupVisit. by repeat case_match. Qed.

Lemma groupVisit_inv st n :
  isOnBoard size n.1 n.2 = true →
  group_inv size b start st → group_inv size b start (groupVisit b color st n).
Proof.
  intros Hn [Hv Hnd Hon Hlib]. unfold groupVisit.
  case_bool_decide as Hempty.
  - split; simpl; try done. intros p [->|Hp]%elem_of_set_add; auto.
  - destruct (bool_decide (_ = color) && negb (set_has n (gl_visited st))) eqn:Hpush;
      [|by split].
    apply andb_true_iff in Hpush as [_ Hnew]. apply negb_true_iff in Hnew.
    assert (n ∉ gl_visited st) as Hfresh.
    { intros Hin%set_has_true. congruence. }
    unfold set_add. rewrite Hnew. split; simpl; try done.
    + by rewrite Hv, (assoc_L (++)).
    + apply NoDup_app. split; [done|]. split; [|apply NoDup_singleton].
      intros p Hp ->%list_elem_of_singleton. done.
    + intros p [Hp| ->%list_elem_of_singleton]%elem_of_app; auto.
Qed.

Lemma groupVisits_inv st l :
  (∀ n, n ∈ l → isOnBoard size n.1 n.2 = true) →
  group_inv size b start st →
  group_inv size b start (foldl (groupVisit b color) st l) ∧
  gl_stones (foldl (groupVisit b color) st l) = gl_stones st.
Proof.
  revert st. induction l as [|n l IH]; intros st Hl Hinv; simpl; [done|].
  destruct (IH (groupVisit b color st n)) as [Hinv' Hst'].
  - intros m Hm. apply Hl. by right.
  - apply groupVisit_inv; [|done]. apply Hl. by left.
  - split; [done|]. by rewrite Hst', groupVisit_stones.
Qed.

(** One iteration of the [while] loop keeps the invariant. *)
Lemma group_inv_step st current rest :
  group_inv size b start st →
  gl_queue st = current :: rest →
  let st' := foldl (groupVisit b color)
               (mkGroupLoop rest (gl_visited st) (gl_stones st ++ [current])
                            (gl_liberties st))
               (getNeighbors size current.1 current.2) in
  group_inv size b start st' ∧ gl_stones st' = gl_stones st ++ [current].
Proof.
  intros [Hv Hnd Hon Hlib] Hq. apply groupVisits_inv; [eauto with grid|].
  split; simpl; try done. by rewrite Hv, Hq, <- (assoc_L (++)).
Qed.

Lemma group_inv_bound st :
  group_inv size b start st →
  (length (gl_stones st) + length (gl_queue st) ≤ S (Z.to_nat (size * size)))%nat.
Proof.
  intros [Hv Hnd Hon _]. rewrite <- length_app, <- Hv.
  transitivity (length (start :: allPoints size)).
  - apply submseteq_length, NoDup_submseteq; [done|].
    intros p [->|Hp]%Hon; [by left|]. right. by apply elem_of_allPoints.
  - simpl. pose proof (length_allPoints size). lia.
Qed.

Lemma group_inv_groupLoop fuel st :
  group_inv size b start st → group_inv size b start (groupLoop fuel size b color st).
Proof.
  revert st. induction fuel as [|fuel IH]; intros st Hinv; simpl; [done|].
  destruct (gl_queue st) as [|current rest] eqn:Hq; [done|].
  apply IH. by apply group_inv_step.
Qed.

(** With [searchFuel] the loop stops because the queue is empty, never
    because the fuel is spent. *)
Lemma groupLoop_drains_from fuel st :
  group_inv size b start st →
  (S (Z.to_nat (size * size)) < fuel + length (gl_stones st))%nat →
  gl_queue (groupLoop fuel size b color st) = [].
Proof.
  revert st. induction fuel as [|fuel IH]; intros st Hinv Hfuel; simpl.
  - pose proof (group_inv_bound _ Hinv). lia.
  - destruct (gl_queue st) as [|current rest] eqn:Hq; [done|].
    destruct (group_inv_step st current rest Hinv Hq) as [Hinv' Hst'].
    apply IH; [done|]. rewrite Hst', length_app. simpl. lia.
Qed.

(** Once the queue is empty more fuel changes nothing: the value of
    [getGroup] is the value of the loop run to its end. *)
Lemma groupLoop_more_fuel fuel extra st :
  gl_queue (groupLoop fuel size b color st) = [] →
  groupLoop (fuel + extra) size b color st = groupLoop fuel size b color st.
Proof.
  revert st. induction fuel as [|fuel IH]; intros st Hq; simpl in *.
  - destruct extra; simpl; [done|]. by rewrite Hq.
  - destruct (gl_queue st); [done|]. by apply IH.
Qed.

End group_search.

Lemma group_inv_start size b (x y : Z) :
  group_inv size b (x, y) (mkGroupLoop [(x, y)] [(x, y)] [] []).
Proof.
  split; simpl; try done.
  - apply NoDup_singleton.
  - intros p ->%list_elem_of_singleton. by left.
  - intros p Hp. by apply elem_of_nil in Hp.
Qed.

Lemma groupLoop_drains size b color x y :
  gl_queue (groupLoop (searchFuel size) size b color
                      (mkGroupLoop [(x, y)] [(x, y)] [] [])) = [].
Proof.
  apply (groupLoop_drains_from _ _ _ (x, y)); [apply group_inv_start|].
  unfold searchFuel. simpl. lia.
Qed.

(** The value of [getGroup] does not depend on the fuel: any larger amount
    gives the same search. *)
Lemma groupLoop_enough_fuel size b color x y extra :
  groupLoop (searchFuel size + extra) size b color
            (mkGroupLoop [(x, y)] [(x, y)] [] []) =
  groupLoop (searchFuel size) size b color (mkGroupLoop [(x, y)] [(x, y)] [] []).
Proof. apply groupLoop_more_fuel, groupLoop_drains. Qed.

(** ** What [getGroup] returns *)

(** Every liberty is an empty cell of the grid. *)
Lemma getGroup_liberties size b x y (p : Point) :
  p ∈ liberties (getGroup size b x y) →
  isOnBoard size p.1 p.2 = true ∧ getCell b p.1 p.2 = Some EMPTY.
Proof.
  unfold getGroup. case_bool_decide; simpl; [by intros ?%elem_of_nil|].
  apply (inv_liberties size b (x, y)), group_inv_groupLoop, group_inv_start.
Qed.

Lemma getGroup_stones_NoDup size b x y : NoDup (stones (getGroup size b x y)).
Proof.
  unfold getGroup. case_bool_decide; simpl; [apply NoDup_nil_2|].
  pose proof (group_inv_groupLoop size b (getCell b x y) (x, y) (searchFuel size) _
                (group_inv_start size b x y)) as [Hv Hnd _ _].
  rewrite Hv in Hnd. by apply NoDup_app in Hnd as [? _].
Qed.

Lemma groupVisit_liberties_mono b color st n (p : Point) :
  p ∈ gl_liberties st → p ∈ gl_liberties (groupVisit b color st n).
Proof.
  unfold groupVisit. repeat case_match; simpl; try done.
  intros Hp. apply elem_of_set_add. by right.
Qed.

Lemma groupVisits_liberties_mono b color l st (p : Point) :
  p ∈ gl_liberties st → p ∈ gl_liberties (foldl (groupVisit b color) st l).
Proof.
  revert st. induction l as [|n l IH]; intros st Hp; simpl; [done|].
  by apply IH, groupVisit_liberties_mono.
Qed.

Lemma groupVisits_liberties_found b color l st (n : Point) :
  n ∈ l → getCell b n.1 n.2 = Some EMPTY →
  n ∈ gl_liberties (foldl (groupVisit b color) st l).
Proof.
  revert st. induction l as [|m l IH]; intros st Hn Hcell; [by apply elem_of_nil in Hn|].
  simpl. apply elem_of_cons in Hn as [->|Hn]; [|by apply IH].
  apply groupVisits_liberties_mono. unfold groupVisit.
  rewrite bool_decide_true by done. simpl. apply elem_of_set_add. by left.
Qed.

Lemma groupLoop_liberties_mono fuel size b color st (p : Point) :
  p ∈ gl_liberties st → p ∈ gl_liberties (groupLoop fuel size b color st).
Proof.
  revert st. induction fuel as [|fuel IH]; intros st Hp; simpl; [done|].
  destruct (gl_queue st); [done|]. by apply IH, groupVisits_liberties_mono.
Qed.

Lemma groupVisits_stones b color l st :
  gl_stones (foldl (groupVisit b color) st l) = gl_stones st.
Proof.
  revert st. induction l as [|n l IH]; intros st; simpl; [done|].
  by rewrite IH, groupVisit_stones.
Qed.

Lemma groupLoop_stones_prefix fuel size b color st :
  ∃ more, gl_stones (groupLoop fuel size b color st) = gl_stones st ++ more.
Proof.
  revert st. induction fuel as [|fuel IH]; intros st; simpl.
  - exists []. by rewrite app_nil_r.
  - destruct (gl_queue st) as [|current rest]; [exists []; by rewrite app_nil_r|].
    edestruct IH as [more ->]. rewrite groupVisits_stones. simpl.
    exists (current :: more). by rewrite <- (assoc_L (++)).
Qed.

Lemma groupLoop_first size b color x y :
  groupLoop (searchFuel size) size b color (mkGroupLoop [(x, y)] [(x, y)] [] []) =
  groupLoop (S (Z.to_nat (size * size))) size b color
    (foldl (groupVisit b color) (mkGroupLoop [] [(x, y)] [(x, y)] [])
           (getNeighbors size x y)).
Proof.
  unfold searchFuel.
  replace (Z.to_nat (size * size) + 2)%nat with (S (S (Z.to_nat (size * size)))) by lia.
  done.
Qed.

(** The group of a stone starts with that stone. *)
Lemma getGroup_stones_start size b x y :
  getCell b x y ≠ Some EMPTY →
  ∃ more, stones (getGroup size b x y) = (x, y) :: more.
Proof.
  intros Hcell. unfold getGroup. rewrite bool_decide_false by done.
  cbn [stones]. rewrite groupLoop_first.
  edestruct groupLoop_stones_prefix as [more ->]. rewrite groupVisits_stones.
  simpl. by exists more.
Qed.

(** The empty neighbours of a stone are liberties of its group. *)
Lemma getGroup_liberties_start size b x y (n : Point) :
  getCell b x y ≠ Some EMPTY →
  n ∈ getNeighbors size x y → getCell b n.1 n.2 = Some EMPTY →
  n ∈ liberties (getGroup size b x y).
Proof.
  intros Hcell Hn Hempty. unfold getGroup. rewrite bool_decide_false by done.
  cbn [liberties]. rewrite groupLoop_first.
  by apply groupLoop_liberties_mono, groupVisits_liberties_found.
Qed.

(** ** What [getCapturedStones] returns *)

Lemma getCapturedStones_bind size b x y player :
  getCapturedStones size b x y player =
  getNeighbors size x y ≫= capturedVia size b (getOpponent player).
Proof.
  unfold getCapturedStones.
  assert (∀ l acc,
    foldl (λ captured (neighbor : Point),
             if bool_decide (getCell b neighbor.1 neighbor.2 = Some (getOpponent player))
             then
               let group := getGroup size b neighbor.1 neighbor.2 in
               if bool_decide (length (liberties group) = 0%nat)
               then captured ++ stones group else captured
             else captured) acc l
    = acc ++ (l ≫= capturedVia size b (getOpponent player))) as Hfold.
  { induction l as [|n l IH]; intros acc; csimpl; [by rewrite app_nil_r|].
    rewrite IH. unfold capturedVia at 2.
    repeat case_bool_decide; by rewrite ?app_nil_r, <- ?(assoc_L (++)). }
  by rewrite Hfold.
Qed.

Lemma getOpponent_cases player : getOpponent player = BLACK ∨ getOpponent player = WHITE.
Proof. unfold getOpponent. case_bool_decide; auto. Qed.

Lemma getOpponent_not_empty player : getOpponent player ≠ EMPTY.
Proof. by destruct (getOpponent_cases player) as [-> | ->]. Qed.

Lemma capturedVia_start size b opponent (n : Point) :
  opponent ≠ EMPTY →
  capturedVia size b opponent n = [] ∨
  (getCell b n.1 n.2 = Some opponent ∧ NoDup (capturedVia size b opponent n) ∧
   ∃ more, capturedVia size b opponent n = n :: more).
Proof.
  intros Hopp. unfold capturedVia. case_bool_decide as Hcell; [|by left].
  simpl. case_bool_decide; [|by left]. right. split; [done|].
  split; [apply getGroup_stones_NoDup|].
  destruct n as [nx ny]. apply getGroup_stones_start. simpl in *. congruence.
Qed.

(** A capture of a single stone takes a neighbour of the placed stone. *)
Lemma getCapturedStones_single size b x y player (c : Point) :
  getCapturedStones size b x y player = [c] →
  c ∈ getNeighbors size x y ∧ getCell b c.1 c.2 = Some (getOpponent player).
Proof.
  rewrite getCapturedStones_bind.
  induction (getNeighbors size x y) as [|n l IH]; csimpl; [done|].
  destruct (capturedVia_start size b (getOpponent player) n
              (getOpponent_not_empty player)) as [-> | (Hcell & _ & more & ->)].
  - simpl. intros [Hin Hc]%IH. split; [by right | done].
  - simpl. intros [= <- _]. split; [by left | done].
Qed.

(** ** Colours of the stones found *)

Lemma groupVisit_color b color st (n : Point) :
  (∀ p, p ∈ gl_visited st → getCell b p.1 p.2 = color) →
  ∀ p, p ∈ gl_visited (groupVisit b color st n) → getCell b p.1 p.2 = color.
Proof.
  intros Hcol p. unfold groupVisit. case_bool_decide; [by apply Hcol|].
  destruct (bool_decide (_ = color)) eqn:Hsame; simpl; [|by apply Hcol].
  destruct (set_has n (gl_visited st)); simpl; [by apply Hcol|].
  apply bool_decide_eq_true in Hsame.
  intros [->|Hp]%elem_of_set_add; [done | by apply Hcol].
Qed.

Lemma groupVisits_color b color l st :
  (∀ p, p ∈ gl_visited st → getCell b p.1 p.2 = color) →
  ∀ p, p ∈ gl_visited (foldl (groupVisit b color) st l) → getCell b p.1 p.2 = color.
Proof.
  revert st. induction l as [|n l IH]; intros st Hcol; simpl; [done|].
  by apply IH, groupVisit_color.
Qed.

Lemma groupLoop_color fuel size b color st :
  (∀ p, p ∈ gl_visited st → getCell b p.1 p.2 = color) →
  ∀ p, p ∈ gl_visited (groupLoop fuel size b color st) → getCell b p.1 p.2 = color.
Proof.
  revert st. induction fuel as [|fuel IH]; intros st Hcol; simpl; [done|].
  destruct (gl_queue st); [done|]. by apply IH, groupVisits_color.
Qed.

(** The stones of a group have the colour of the stone the search started
    from. *)
Lemma getGroup_stones_color size b x y (p : Point) :
  p ∈ stones (getGroup size b x y) → getCell b p.1 p.2 = getCell b x y.
Proof.
  unfold getGroup. case_bool_decide; simpl; [by intros ?%elem_of_nil|].
  intros Hp.
  apply (groupLoop_color (searchFuel size) size b (getCell b x y)
           (mkGroupLoop [(x, y)] [(x, y)] [] [])).
  - simpl. by intros q ->%list_elem_of_singleton.
  - pose proof (group_inv_groupLoop size b (getCell b x y) (x, y) (searchFuel size) _
                  (group_inv_start size b x y)) as [-> _ _ _].
    apply elem_of_app. by left.
Qed.

(** Every captured stone is a stone of the opponent on the grid, so taking
    it off writes a cell that exists. *)
Lemma getCapturedStones_color size b x y player (c : Point) :
  c ∈ getCapturedStones size b x y player →
  getCell b c.1 c.2 = Some (getOpponent player).
Proof.
  rewrite getCapturedStones_bind.
  intros (n & Hc & _)%list_elem_of_bind. unfold capturedVia in Hc.
  case_bool_decide as Hn; [|by apply elem_of_nil in Hc].
  simpl in Hc. case_bool_decide; [|by apply elem_of_nil in Hc].
  apply getGroup_stones_color in Hc. by rewrite Hc.
Qed.

(** The tallies after a successful move: the opponent's goes up by the
    length of the list of captured stones, the other one stays. *)
Lemma makeMove_tallies e x y player :
  is_valid (isValidMove e x y player).1 = true →
  let captured :=
    getCapturedStones (size e) (setCell (board e) x y player) x y player in
  let n := Z.of_nat (length captured) in
  let moved := (makeMove e x y player).2 in
  if bool_decide (getOpponent player = BLACK)
  then capturedBlack moved = capturedBlack e + n ∧ capturedWhite moved = capturedWhite e
  else capturedWhite moved = capturedWhite e + n ∧ capturedBlack moved = capturedBlack e.
Proof.
  intros Hv. cbv zeta. unfold makeMove.
  split_isValidMove e x y player v. destruct v as [|caps]; [done|].
  cbn [size board set_board].
  set (placed := setCell (board e) x y player).
  set (captured := getCapturedStones (size e) placed x y player).
  pose proof (getCapturedStones_color (size e) placed x y player) as Hcol.
  fold captured in Hcol.
  destruct captured as [|s0 l] eqn:Hcap.
  - rewrite (bool_decide_false (0 < length [])%nat) by (simpl; lia).
    simpl. case_bool_decide; split; lia.
  - rewrite (bool_decide_true (0 < length (s0 :: l))%nat) by (simpl; lia).
    unfold removeGroup. cbn [board set_board].
    rewrite (Hcol s0) by (by left).
    destruct (getOpponent_cases player) as [Hopp|Hopp]; rewrite Hopp.
    + rewrite !bool_decide_true by done.
      repeat case_match; simpl; done.
    + rewrite !(bool_decide_false (_ WHITE = _ BLACK)) by done.
      rewrite (bool_decide_false (WHITE = BLACK)) by done.
      repeat case_match; simpl; done.
Qed.

(** ** The ko point *)

Lemma isValidMove_valid_inv e x y player :
  is_valid (isValidMove e x y player).1 = true →
  isOnBoard (size e) x y = true ∧ getCell (board e) x y = Some EMPTY ∧
  isKoPoint e x y = false.
Proof.
  unfold isValidMove.
  destruct (isOnBoard (size e) x y); simpl; [|done].
  case_bool_decide; simpl; [|done].
  destruct (isKoPoint e x y); simpl; done.
Qed.

Lemma makeMove_valid_unfold e x y player :
  is_valid (isValidMove e x y player).1 = true →
  let placed := setCell (board e) x y player in
  let captured := getCapturedStones (size e) placed x y player in
  let count := Z.of_nat (length captured) in
  let own := getGroup (size e) (clearStones placed captured) x y in
  (makeMove e x y player).1 = MoveOk count (derivedKo count own) ∧
  size (makeMove e x y player).2 = size e ∧
  board (makeMove e x y player).2 = clearStones placed captured ∧
  koPoint (makeMove e x y player).2 = derivedKo count own.
Proof.
  intros Hv. cbv zeta. unfold makeMove.
  split_isValidMove e x y player v.
  destruct v as [|caps]; [done|].
  cbn [size board set_board].
  set (placed := setCell (board e) x y player).
  set (captured := getCapturedStones (size e) placed x y player).
  set (e1 := set_board e placed).
  assert (∃ e2, (if bool_decide (0 < length captured)%nat
                 then removeGroup e1 captured
                 else (0, e1)) = (Z.of_nat (length captured), e2) ∧
                size e2 = size e ∧ board e2 = clearStones placed captured)
    as (e2 & -> & Hsize & Hboard).
  { destruct captured as [|s0 l] eqn:Hcap.
    - rewrite bool_decide_false by (simpl; lia). by eexists.
    - rewrite bool_decide_true by (simpl; lia). unfold removeGroup.
      eexists. split; [reflexivity|]. by case_bool_decide. }
  unfold derivedKo. cbn [size board koPoint set_koPoint]. rewrite Hsize, Hboard.
  repeat case_match; simpl; done.
Qed.

Lemma head_elem_of {A} (l : list A) k : head l = Some k → k ∈ l.
Proof. destruct l; intros [= ->]. by left. Qed.

(** While the ko point stands, a stone there is refused for ko, whoever
    plays it. *)
Lemma ko_point_refused e x y player k :
  is_valid (isValidMove e x y player).1 = true →
  koPoint (makeMove e x y player).2 = Some k →
  isOnBoard (size e) k.1 k.2 = true ∧
  getCell (board (makeMove e x y player).2) k.1 k.2 = Some EMPTY ∧
  ∀ p, (isValidMove (makeMove e x y player).2 k.1 k.2 p).1 = Invalid KoViolation.
Proof.
  intros Hv Hko.
  destruct (makeMove_valid_unfold e x y player Hv) as (_ & Hsize & Hboard & Hko').
  set (e' := (makeMove e x y player).2) in *.
  rewrite Hko in Hko'. unfold derivedKo in Hko'.
  repeat case_match; try done. symmetry in Hko'.
  assert (k ∈ liberties
            (getGroup (size e)
               (clearStones (setCell (board e) x y player)
                  (getCapturedStones (size e) (setCell (board e) x y player) x y player))
               x y)) as Hin.
  { by apply head_elem_of. }
  apply getGroup_liberties in Hin as [Hon Hempty]. rewrite <- Hboard in Hempty.
  split; [done|]. split; [done|]. intros p. unfold isValidMove.
  rewrite Hsize, Hon, Hempty.
  rewrite (bool_decide_true (Some EMPTY = Some EMPTY)) by done. cbn [negb].
  unfold isKoPoint. rewrite Hko.
  by rewrite (bool_decide_true (k.1 = k.1)), (bool_decide_true (k.2 = k.2)).
Qed.

(** A move that sets a ko point sets it on the cell of the stone it took,
    which was not empty before the move. *)
Lemma new_ko_point_was_occupied e x y player k :
  is_valid (isValidMove e x y player).1 = true →
  koPoint (makeMove e x y player).2 = Some k →
  getCell (board e) k.1 k.2 = Some (getOpponent player).
Proof.
  intros Hv Hko.
  destruct (makeMove_valid_unfold e x y player Hv) as (_ & _ & _ & Hko').
  destruct (isValidMove_valid_inv e x y player Hv) as (Hon & Hcell & _).
  rewrite Hko in Hko'. unfold derivedKo in Hko'.
  set (placed := setCell (board e) x y player) in *.
  set (captured := getCapturedStones (size e) placed x y player) in *.
  set (own := getGroup (size e) (clearStones placed captured) x y) in *.
  case_bool_decide as Hcount; [|done].
  destruct (bool_decide (length (stones own) = 1%nat)) eqn:Hstones; [|done].
  case_bool_decide as Hlibs; [|done]. simpl in Hko'.
  apply bool_decide_eq_true in Hstones.
  destruct captured as [|c [|? ?]] eqn:Hcap; simpl in Hcount; try lia.
  destruct (getCapturedStones_single _ _ _ _ _ _ Hcap) as [Hc Hccell].
  pose proof (getNeighbors_ne _ _ _ _ Hc) as Hne.
  assert (getCell (board e) c.1 c.2 = Some (getOpponent player)) as Hbefore.
  { rewrite <- Hccell. symmetry. apply getCell_setCell_ne.
    destruct c. simpl. congruence. }
  assert (getCell (clearStones placed [c]) c.1 c.2 = Some EMPTY) as Hcleared.
  { simpl. apply getCell_setCell_eq. by rewrite Hccell. }
  assert (getCell (clearStones placed [c]) x y ≠ Some EMPTY) as Hown.
  { intros Hempty. unfold own, getGroup in Hstones.
    rewrite bool_decide_true in Hstones by done. done. }
  pose proof (getGroup_liberties_start (size e) _ x y c Hown Hc Hcleared) as Hin.
  fold own in Hin. destruct (liberties own) as [|k' [|? ?]]; simpl in Hlibs; try lia.
  apply list_elem_of_singleton in Hin. simplify_eq/=. done.
Qed.

Lemma bind_pieces_nonempty (piece : Point → list Point) (l : list Point) :
  (∀ n, piece n = [] ∨ ∃ more, piece n = n :: more) →
  l ≫= piece ≠ [] → ∃ n, n ∈ l ∧ n ∈ l ≫= piece.
Proof.
  intros Hpiece. induction l as [|n l IH]; csimpl; [done|].
  destruct (Hpiece n) as [Hn | [more Hn]]; rewrite Hn; simpl.
  - intros (m & Hm & Hin)%IH. exists m. split; [by right | done].
  - intros _. exists n. split; by left.
Qed.

(** Pieces that each start with their own key and repeat nothing: when all
    the stones collected are one and the same, one stone was collected. *)
Lemma bind_pieces_single (piece : Point → list Point) (l : list Point) (s : Point) :
  NoDup l →
  (∀ n, piece n = [] ∨ (NoDup (piece n) ∧ ∃ more, piece n = n :: more)) →
  (∀ p, p ∈ l ≫= piece → p = s) →
  l ≫= piece ≠ [] → length (l ≫= piece) = 1%nat.
Proof.
  intros Hnd Hpiece. induction Hnd as [|n l Hn Hnd IH]; csimpl; [done|].
  intros Hall Hne.
  destruct (Hpiece n) as [Hpn | [Hpnd [more Hpn]]]; rewrite Hpn in *; simpl in *.
  - by apply IH.
  - assert (n = s) as -> by (apply Hall; by left).
    destruct more as [|m more].
    + destruct (decide (l ≫= piece = [])) as [-> | Hrest]; [done|].
      destruct (bind_pieces_nonempty piece l) as (m & Hm & Hin); [|done|].
      * intros k. destruct (Hpiece k) as [? | [_ ?]]; auto.
      * assert (m = s) as -> by (apply Hall; by right). done.
    + assert (m = s) as -> by (apply Hall; right; by left).
      apply NoDup_cons in Hpnd as [Hnotin _]. exfalso. apply Hnotin. by left.
Qed.

(** The list of captured stones has one entry exactly when it holds one
    position. *)
Lemma getCapturedStones_single_iff size b x y player :
  length (getCapturedStones size b x y player) = 1%nat ↔
  length (remove_dups (getCapturedStones size b x y player)) = 1%nat.
Proof.
  split.
  - intros Hlen. destruct (getCapturedStones _ _ _ _ _) as [|c [|? ?]]; done.
  - intros Hlen. rewrite getCapturedStones_bind in *.
    set (piece := capturedVia size b (getOpponent player)) in *.
    destruct (remove_dups (getNeighbors size x y ≫= piece)) as [|s [|? ?]] eqn:Hdups;
      try done.
    apply (bind_pieces_single piece _ s).
    + apply NoDup_getNeighbors.
    + intros n. destruct (capturedVia_start size b (getOpponent player) n
                            (getOpponent_not_empty player)) as [? | (_ & ? & ?)]; auto.
    + intros p Hp%elem_of_remove_dups. rewrite Hdups in Hp.
      by apply list_elem_of_singleton in Hp.
    + intros Hnil. by rewrite Hnil in Hdups.
Qed.

Lemma makeMove_success_valid e x y player :
  move_success (makeMove e x y player).1 = is_valid (isValidMove e x y player).1.
Proof.
  unfold makeMove. destruct (isValidMove e x y player) as [[r|caps] e0]; [done|].
  simpl. by destruct (if bool_decide _ then _ else _).
Qed.

Lemma isKoPoint_false e x y : koPoint e ≠ Some (x, y) → isKoPoint e x y = false.
Proof.
  unfold isKoPoint. destruct (koPoint e) as [[kx ky]|]; [|done]. simpl.
  intros Hne. apply andb_false_iff.
  destruct (decide (kx = x)) as [->|]; [right | left]; apply bool_decide_eq_false;
    congruence.
Qed.

(** Off the ko point, an empty cell of the grid is refused for suicide or
    not at all. *)
Lemma isValidMove_off_ko e x y player :
  isOnBoard (size e) x y = true → getCell (board e) x y = Some EMPTY →
  koPoint e ≠ Some (x, y) →
  (isValidMove e x y player).1 = Invalid Suicide ∨
  is_valid (isValidMove e x y player).1 = true.
Proof.
  intros Hon Hcell Hko%isKoPoint_false. unfold isValidMove.
  rewrite Hon, Hcell, Hko. rewrite (bool_decide_true (Some EMPTY = Some EMPTY)) by done.
  simpl. repeat case_match; simpl; auto.
Qed.

Lemma pass_frame e :
  size (pass e).2 = size e ∧ board (pass e).2 = board e ∧ koPoint (pass e).2 = None.
Proof. by rewrite pass_unfold. Qed.

(** C4, amended.  After a successful [makeMove]: the capture count is 1
    exactly when one stone was taken; the ko point is set exactly when
    that count is 1 and the group of the placed stone is one stone with
    one liberty, and it is that liberty.  While it is set, [isValidMove]
    on it answers ko violation for every player.  A pass clears it and a
    further successful move never sets it on the same point again, so
    after either, if the cell is still empty, a stone there is no longer
    refused for ko: it is accepted, or refused as suicide. *)
Theorem ko_point_set_refused_and_cleared e x y player :
  move_success (makeMove e x y player).1 = true →
  let moved := (makeMove e x y player).2 in
  let captured :=
    getCapturedStones (size e) (setCell (board e) x y player) x y player in
  let own := getGroup (size moved) (board moved) x y in
  (makeMove e x y player).1 = MoveOk (Z.of_nat (length captured)) (koPoint moved) ∧
  (length captured = 1%nat ↔ length (remove_dups captured) = 1%nat) ∧
  (is_Some (koPoint moved) ↔
   length captured = 1%nat ∧ length (stones own) = 1%nat ∧
   length (liberties own) = 1%nat) ∧
  (∀ k, koPoint moved = Some k →
     liberties own = [k] ∧
     (∀ p, (isValidMove moved k.1 k.2 p).1 = Invalid KoViolation) ∧
     koPoint (pass moved).2 = None ∧
     (∀ x' y' p', move_success (makeMove moved x' y' p').1 = true →
                  koPoint (makeMove moved x' y' p').2 ≠ Some k) ∧
     (∀ next p,
        next = (pass moved).2 ∨
        (∃ x' y' p', move_success (makeMove moved x' y' p').1 = true ∧
                     next = (makeMove moved x' y' p').2) →
        getCell (board next) k.1 k.2 = Some EMPTY →
        (isValidMove next k.1 k.2 p).1 ≠ Invalid KoViolation ∧
        ((isValidMove next k.1 k.2 p).1 = Invalid Suicide ∨
         is_valid (isValidMove next k.1 k.2 p).1 = true))).
Proof.
  rewrite makeMove_success_valid. intros Hv moved captured own.
  destruct (makeMove_valid_unfold e x y player Hv) as (Hres & Hsize & Hboard & Hko).
  fold moved in Hsize, Hboard, Hko. fold captured in Hres, Hboard, Hko.
  assert (own = getGroup (size e) (clearStones (setCell (board e) x y player) captured)
                         x y) as Hown by (unfold own; by rewrite Hsize, Hboard).
  rewrite <- Hown in Hres, Hko.
  assert (∀ k, koPoint moved = Some k → koPoint moved = head (liberties own) ∧
               length captured = 1%nat ∧ length (stones own) = 1%nat ∧
               length (liberties own) = 1%nat) as Hset.
  { intros k Hk. rewrite Hko in Hk |- *. unfold derivedKo in *.
    case_bool_decide; [|done].
    destruct (bool_decide (length (stones own) = 1%nat)) eqn:Hs; [|done].
    case_bool_decide; [|done]. apply bool_decide_eq_true in Hs.
    simpl. repeat split; try done. lia. }
  split; [by rewrite Hres, Hko|].
  split; [apply getCapturedStones_single_iff|].
  split.
  { split.
    - intros [k Hk]. by destruct (Hset k Hk) as (_ & ? & ? & ?).
    - intros (Hc & Hs & Hl). rewrite Hko. unfold derivedKo.
      rewrite !bool_decide_true by (done || lia). simpl.
      destruct (liberties own); [done | by eexists]. }
  intros k Hk. destruct (Hset k Hk) as (Hhead & _ & _ & Hl).
  destruct (ko_point_refused e x y player k Hv Hk) as (Hon & Hempty & Hrefused).
  fold moved in Hempty, Hrefused.
  assert (∀ x' y' p', move_success (makeMove moved x' y' p').1 = true →
                      koPoint (makeMove moved x' y' p').2 ≠ Some k) as Hnext.
  { intros x' y' p'. rewrite makeMove_success_valid. intros Hv' Hk'.
    pose proof (new_ko_point_was_occupied moved x' y' p' k Hv' Hk') as Hocc.
    rewrite Hempty in Hocc. injection Hocc as Hocc.
    by apply (getOpponent_not_empty p'). }
  split; [|split; [exact Hrefused|split; [apply pass_frame|split; [exact Hnext|]]]].
  { rewrite Hk in Hhead. destruct (liberties own) as [|k' [|? ?]]; simplify_eq/=. done. }
  intros next p Hstep Hcell.
  assert (size next = size e ∧ koPoint next ≠ Some k) as [Hsz Hnk].
  { destruct Hstep as [-> | (x' & y' & p' & Hok & ->)].
    - destruct (pass_frame moved) as (-> & _ & ->). by rewrite Hsize.
    - split; [|by apply Hnext]. rewrite makeMove_success_valid in Hok.
      destruct (makeMove_valid_unfold moved x' y' p' Hok) as (_ & -> & _).
      exact Hsize. }
  assert ((isValidMove next k.1 k.2 p).1 = Invalid Suicide ∨
          is_valid (isValidMove next k.1 k.2 p).1 = true) as Hres'.
  { apply isValidMove_off_ko; [by rewrite Hsz | done | by destruct k]. }
  split; [|done]. intros Heq. rewrite Heq in Hres'. by destruct Hres'.
Qed.

(** ** The search of [calculateTerritory] *)

Section region_search.
Context (size : Z) (b : Board) (earlier : list Point).
Implicit Types (st : RegionLoop) (n : Point) (fuel : nat).

Lemma regionVisit_inv st n :
  isOnBoard size n.1 n.2 = true →
  region_inv size earlier st →
  region_inv size earlier (regionVisit b st n) ∧
  rl_region (regionVisit b st n) = rl_region st.
Proof.
  intros Hn [Hv [Hnd Hon]]. unfold regionVisit.
  repeat case_bool_decide; try done.
  destruct (set_has n (rl_visited st)) eqn:Hhas; simpl; [done|].
  assert (n ∉ rl_visited st) as Hfresh.
  { intros Hin%set_has_true. congruence. }
  split; [|done]. unfold set_add. rewrite Hhas. split; simpl.
  - by rewrite Hv, !(assoc_L (++)).
  - split.
    + apply NoDup_app. split; [done|]. split; [|apply NoDup_singleton].
      intros p Hp ->%list_elem_of_singleton. done.
    + intros p [Hp| ->%list_elem_of_singleton]%elem_of_app; auto.
Qed.

Lemma regionVisits_inv st l :
  (∀ n, n ∈ l → isOnBoard size n.1 n.2 = true) →
  region_inv size earlier st →
  region_inv size earlier (foldl (regionVisit b) st l) ∧
  rl_region (foldl (regionVisit b) st l) = rl_region st.
Proof.
  revert st. induction l as [|n l IH]; intros st Hl Hinv; simpl; [done|].
  destruct (regionVisit_inv st n) as [Hinv' Hreg]; [|done|].
  { apply Hl. by left. }
  destruct (IH (regionVisit b st n)) as [Hinv'' Hreg']; [|done|].
  { intros m Hm. apply Hl. by right. }
  split; [done|]. by rewrite Hreg', Hreg.
Qed.

Lemma region_inv_bound st :
  region_inv size earlier st →
  (length (rl_region st) + length (rl_queue st) ≤ Z.to_nat (size * size))%nat.
Proof.
  intros [Hv [Hnd Hon]].
  transitivity (length (rl_visited st)).
  - rewrite Hv, !length_app. lia.
  - transitivity (length (allPoints size)); [|apply length_allPoints].
    apply submseteq_length, NoDup_submseteq; [done|].
    intros p Hp. by apply elem_of_allPoints, Hon.
Qed.

Lemma regionLoop_inv fuel st :
  region_inv size earlier st → region_inv size earlier (regionLoop fuel size b st).
Proof.
  revert st. induction fuel as [|fuel IH]; intros st Hinv; simpl; [done|].
  destruct (rl_queue st) as [|current rest] eqn:Hq; [done|].
  apply IH, regionVisits_inv; [eauto with grid|].
  destruct Hinv as [Hv Hok]. split; simpl; [|done].
  by rewrite Hv, Hq, <- !(assoc_L (++)).
Qed.

Lemma regionLoop_drains_from fuel st :
  region_inv size earlier st →
  (Z.to_nat (size * size) < fuel + length (rl_region st))%nat →
  rl_queue (regionLoop fuel size b st) = [].
Proof.
  revert st. induction fuel as [|fuel IH]; intros st Hinv Hfuel; simpl.
  - pose proof (region_inv_bound _ Hinv). lia.
  - destruct (rl_queue st) as [|current rest] eqn:Hq; [done|].
    destruct (regionVisits_inv
                (mkRegionLoop rest (rl_visited st) (rl_region st ++ [current])
                              (rl_touchesBlack st) (rl_touchesWhite st))
                (getNeighbors size current.1 current.2)) as [Hinv' Hreg].
    + eauto with grid.
    + destruct Hinv as [Hv Hok]. split; simpl; [|done].
      by rewrite Hv, Hq, <- !(assoc_L (++)).
    + apply IH; [done|]. rewrite Hreg. simpl. rewrite length_app. simpl. lia.
Qed.

Lemma regionLoop_more_fuel fuel extra st :
  rl_queue (regionLoop fuel size b st) = [] →
  regionLoop (fuel + extra) size b st = regionLoop fuel size b st.
Proof.
  revert st. induction fuel as [|fuel IH]; intros st Hq; simpl in *.
  - destruct extra; simpl; [done|]. by rewrite Hq.
  - destruct (rl_queue st); [done|]. by apply IH.
Qed.

End region_search.

Lemma region_inv_start size visited (p : Point) :
  visited_ok size visited → isOnBoard size p.1 p.2 = true → set_has p visited = false →
  region_inv size visited (mkRegionLoop [p] (set_add p visited) [] false false).
Proof.
  intros [Hnd Hon] Hp Hhas. unfold set_add. rewrite Hhas.
  assert (p ∉ visited) as Hfresh by (intros Hin%set_has_true; congruence).
  split; simpl; [done|]. split.
  - apply NoDup_app. split; [done|]. split; [|apply NoDup_singleton].
    intros q Hq ->%list_elem_of_singleton. done.
  - intros q [Hq| ->%list_elem_of_singleton]%elem_of_app; auto.
Qed.

(** Every search that [calculateTerritory] starts runs until its queue is
    empty, and hands a well-formed visited set to the next one. *)
Lemma territoryStep_search_complete size b territory visited (p : Point) :
  visited_ok size visited → p ∈ allPoints size →
  getCell b p.1 p.2 = Some EMPTY → set_has p visited = false →
  rl_queue (regionLoop (searchFuel size) size b
              (mkRegionLoop [p] (set_add p visited) [] false false)) = [] ∧
  visited_ok size (territoryStep size b (territory, visited) p).2.
Proof.
  intros Hok Hp%elem_of_allPoints Hcell Hhas.
  pose proof (region_inv_start size visited p Hok Hp Hhas) as Hinv.
  split.
  - apply (regionLoop_drains_from _ _ visited); [done|].
    unfold searchFuel. simpl. lia.
  - unfold territoryStep. cbv beta iota. rewrite Hcell, Hhas.
    rewrite (bool_decide_true (Some EMPTY = Some EMPTY)) by done. cbn [negb orb snd].
    by destruct (regionLoop_inv size b visited (searchFuel size) _ Hinv).
Qed.

Lemma territoryStep_visited_ok size b acc (p : Point) :
  visited_ok size acc.2 → p ∈ allPoints size →
  visited_ok size (territoryStep size b acc p).2.
Proof.
  destruct acc as [territory visited]. intros Hok Hp. cbn [snd] in Hok.
  destruct (decide (getCell b p.1 p.2 = Some EMPTY)) as [Hcell|Hcell];
    [destruct (set_has p visited) eqn:Hhas|].
  - unfold territoryStep. cbv beta iota. by rewrite Hhas, orb_true_r.
  - by apply territoryStep_search_complete.
  - unfold territoryStep. cbv beta iota. by rewrite bool_decide_false.
Qed.

Lemma calculateTerritory_visited_ok size b l acc :
  visited_ok size acc.2 → (∀ p, p ∈ l → p ∈ allPoints size) →
  visited_ok size (foldl (territoryStep size b) acc l).2.
Proof.
  revert acc. induction l as [|p l IH]; intros acc Hok Hl; simpl; [done|].
  apply IH.
  - apply territoryStep_visited_ok; [done|]. apply Hl. by left.
  - intros q Hq. apply Hl. by right.
Qed.

(** ** The ko example *)

(** C4 fails in its last clause: black takes the corner stone and the ko
    point is (0,0); white answers at (0,2), which clears the ko point and
    takes the last outside liberty of black's stones.  The cell (0,0) is
    still empty, and black's stone there is refused as suicide. *)
Lemma old_ko_point_can_be_suicide :
  let moved := (makeMove ko_game 1 0 BLACK).2 in
  let next := (makeMove moved 0 2 WHITE).2 in
  reachable ko_game ∧
  (makeMove ko_game 1 0 BLACK).1 = MoveOk 1 (Some (0, 0)) ∧
  koPoint moved = Some (0, 0) ∧
  (makeMove moved 0 2 WHITE).1 = MoveOk 0 None ∧
  koPoint next = None ∧
  getCell (board next) 0 0 = Some EMPTY ∧
  currentPlayer next = BLACK ∧
  (isValidMove next 0 0 BLACK).1 = Invalid Suicide ∧
  is_valid (isValidMove next 0 0 BLACK).1 = false.
Proof.
  split; [|vm_compute; repeat split].
  unfold ko_game. apply reach_play, reach_pass, reach_play, reach_pass, reach_plays.
  apply reach_init.
Qed.

Lemma ko_point_set_refused_and_cleared_witness :
  move_success (makeMove ko_game 1 0 BLACK).1 = true ∧
  koPoint (makeMove ko_game 1 0 BLACK).2 = Some (0, 0) ∧
  (isValidMove (makeMove ko_game 1 0 BLACK).2 0 0 WHITE).1 = Invalid KoViolation ∧
  (isValidMove (makeMove ko_game 1 0 BLACK).2 0 0 BLACK).1 = Invalid KoViolation.
Proof.
  assert (move_success (makeMove ko_game 1 0 BLACK).1 = true) as Hok
    by (vm_compute; reflexivity).
  assert (koPoint (makeMove ko_game 1 0 BLACK).2 = Some (0, 0)) as Hko
    by (vm_compute; reflexivity).
  split; [exact Hok|]. split; [exact Hko|].
  pose proof (ko_point_set_refused_and_cleared ko_game 1 0 BLACK Hok) as Hrule.
  destruct Hrule as (_ & _ & _ & Hset).
  destruct (Hset (0, 0) Hko) as (_ & Hrefused & _).
  split; apply Hrefused.
Defined.

(** * Further properties of the engine *)

(** ** Further facts about the grid *)

Lemma getCell_clearStones (b : Board) (l : list Point) (q : Point) :
  (∀ c, c ∈ l → is_Some (getCell b c.1 c.2)) →
  getCell (clearStones b l) q.1 q.2 =
  if bool_decide (q ∈ l) then Some EMPTY else getCell b q.1 q.2.
Proof.
  revert b. induction l as [|c l IH]; intros b Hl.
  - done.
  - change (clearStones b (c :: l)) with (clearStones (setCell b c.1 c.2 EMPTY) l).
    rewrite IH.
    + destruct (decide (q = c)) as [->|Hne].
      * rewrite (bool_decide_true (c ∈ c :: l)) by (by left).
        case_bool_decide; [done|]. apply getCell_setCell_eq, Hl. by left.
      * rewrite getCell_setCell_ne by (destruct c, q; simpl; congruence).
        rewrite (bool_decide_ext (q ∈ c :: l) (q ∈ l)); [done|].
        rewrite elem_of_cons. tauto.
    + intros c' Hc'. destruct (decide (c' = c)) as [->|Hne].
      * exists EMPTY. apply getCell_setCell_eq, Hl. by left.
      * rewrite getCell_setCell_ne by (destruct c, c'; simpl; congruence).
        apply Hl. by right.
Qed.

(** X1: [getNeighbors] returns at most four positions and none twice; each
    of them is on the grid, differs from the point and lies at distance 1
    from it along one axis; every position of the grid at that distance is
    returned; and for a point of the grid the relation is symmetric: the
    point is a neighbour of each of its neighbours. *)
Theorem getNeighbors_adjacency size x y :
  NoDup (getNeighbors size x y) ∧
  (length (getNeighbors size x y) ≤ 4)%nat ∧
  (∀ n : Point, n ∈ getNeighbors size x y →
     isOnBoard size n.1 n.2 = true ∧ n ≠ (x, y) ∧ Z.abs (n.1 - x) + Z.abs (n.2 - y) = 1) ∧
  (∀ n : Point, isOnBoard size x y = true →
     n ∈ getNeighbors size x y → (x, y) ∈ getNeighbors size n.1 n.2) ∧
  (∀ n : Point, isOnBoard size n.1 n.2 = true →
     Z.abs (n.1 - x) + Z.abs (n.2 - y) = 1 → n ∈ getNeighbors size x y).
Proof.
  split; [apply NoDup_getNeighbors|]. split.
  { unfold getNeighbors. etransitivity; [apply List.filter_length_le|].
    by rewrite length_fmap. }
  split; [|split].
  - intros n Hn. split; [by eapply getNeighbors_onBoard|].
    split; [by eapply getNeighbors_ne|].
    apply elem_of_getNeighbors in Hn as [_ Hn].
    destruct Hn as [-> | [-> | [-> | ->]]]; simpl; lia.
  - intros n Hon [_ Hn]%elem_of_getNeighbors. apply elem_of_getNeighbors.
    split; [done|].
    destruct Hn as [-> | [-> | [-> | ->]]]; simpl;
      [right; left | left | do 3 right | do 2 right; left]; f_equal; lia.
  - intros [nx ny] Hon Hdist. simpl in *. apply elem_of_getNeighbors.
    split; [done|]. simpl.
    assert ((nx = x - 1 ∧ ny = y) ∨ (nx = x + 1 ∧ ny = y) ∨
            (nx = x ∧ ny = y - 1) ∨ (nx = x ∧ ny = y + 1)) as Hc by lia.
    destruct Hc as [[-> ->] | [[-> ->] | [[-> ->] | [-> ->]]]]; auto.
Qed.

Lemma getNeighbors_adjacency_witness :
  isOnBoard 19 3 3 = true ∧ (3, 4) ∈ getNeighbors 19 3 3 ∧
  (3, 3) ∈ getNeighbors 19 3 4.
Proof.
  split; [reflexivity|].
  assert ((3, 4) ∈ getNeighbors 19 3 3) as Hin.
  { apply (proj2 (proj2 (proj2 (proj2 (getNeighbors_adjacency 19 3 3)))) (3, 4));
      [reflexivity | simpl; lia]. }
  split; [exact Hin|].
  exact (proj1 (proj2 (proj2 (proj2 (getNeighbors_adjacency 19 3 3)))) (3, 4)
           eq_refl Hin).
Defined.

(** ** [makeMove] *)

(** X2: [makeMove] fails exactly when [isValidMove] refuses the move, and
    with the same reason; a failed [makeMove] leaves the engine as it was;
    a point off the grid is refused as out of range and a cell of the grid
    that does not read EMPTY as occupied. *)
Theorem makeMove_refusal e x y player :
  (∀ reason, (isValidMove e x y player).1 = Invalid reason ↔
             (makeMove e x y player).1 = MoveFail reason) ∧
  (move_success (makeMove e x y player).1 = false → (makeMove e x y player).2 = e) ∧
  (isOnBoard (size e) x y = false →
   makeMove e x y player = (MoveFail OutOfRange, e)) ∧
  (isOnBoard (size e) x y = true → getCell (board e) x y ≠ Some EMPTY →
   makeMove e x y player = (MoveFail Occupied, e)).
Proof.
  split; [|split; [|split]].
  - intros reason. unfold makeMove.
    destruct (isValidMove e x y player) as [[r|caps] e0]; simpl.
    + split; intros [= ->]; done.
    + destruct (if bool_decide _ then _ else _). split; intros [=].
  - rewrite makeMove_success_valid. apply makeMove_invalid.
  - intros Hoff. unfold makeMove, isValidMove. by rewrite Hoff.
  - intros Hon Hocc. unfold makeMove, isValidMove. rewrite Hon. simpl.
    by rewrite bool_decide_false.
Qed.

Lemma makeMove_refusal_witness :
  isOnBoard (size corner_game) 0 0 = true ∧
  getCell (board corner_game) 0 0 ≠ Some EMPTY ∧
  isOnBoard (size corner_game) 3 0 = false ∧
  makeMove corner_game 0 0 BLACK = (MoveFail Occupied, corner_game) ∧
  makeMove corner_game 3 0 BLACK = (MoveFail OutOfRange, corner_game).
Proof.
  assert (getCell (board corner_game) 0 0 ≠ Some EMPTY) as Hocc
    by (vm_compute; discriminate).
  split; [reflexivity|]. split; [exact Hocc|]. split; [reflexivity|]. split.
  - exact (proj2 (proj2 (proj2 (makeMove_refusal corner_game 0 0 BLACK))) eq_refl Hocc).
  - exact (proj1 (proj2 (proj2 (makeMove_refusal corner_game 3 0 BLACK))) eq_refl).
Defined.

Lemma captured_excludes_played e x y player :
  getCell (board e) x y = Some EMPTY →
  (x, y) ∉ getCapturedStones (size e) (setCell (board e) x y player) x y player.
Proof.
  intros Hcell Hin%getCapturedStones_color. simpl in Hin.
  rewrite getCell_setCell_eq in Hin by (by rewrite Hcell).
  injection Hin as Hin. by apply (getOpponent_ne player).
Qed.

(** Every cell after a successful [makeMove]: empty where a stone was
    captured, as on the grid with the stone placed elsewhere. *)
Lemma makeMove_reads e x y player :
  is_valid (isValidMove e x y player).1 = true →
  let placed := setCell (board e) x y player in
  let captured := getCapturedStones (size e) placed x y player in
  ∀ q : Point,
    getCell (board (makeMove e x y player).2) q.1 q.2 =
    if bool_decide (q ∈ captured) then Some EMPTY else getCell placed q.1 q.2.
Proof.
  intros Hv placed captured q.
  destruct (makeMove_valid_unfold e x y player Hv) as (_ & _ & Hboard & _).
  rewrite Hboard. apply getCell_clearStones.
  intros c Hc. by rewrite (getCapturedStones_color _ _ _ _ _ _ Hc).
Qed.

(** X3: after a successful [makeMove] the cell played, which was empty,
    holds the player's stone; every position returned by
    [getCapturedStones] held a stone of the opponent and is now empty; every
    other cell reads as before; the size is unchanged. *)
Theorem makeMove_board_effect e x y player :
  move_success (makeMove e x y player).1 = true →
  let captured :=
    getCapturedStones (size e) (setCell (board e) x y player) x y player in
  let moved := (makeMove e x y player).2 in
  getCell (board e) x y = Some EMPTY ∧
  getCell (board moved) x y = Some player ∧
  (∀ c : Point, c ∈ captured →
     getCell (board e) c.1 c.2 = Some (getOpponent player) ∧
     getCell (board moved) c.1 c.2 = Some EMPTY) ∧
  (∀ q : Point, q ≠ (x, y) → q ∉ captured →
     getCell (board moved) q.1 q.2 = getCell (board e) q.1 q.2) ∧
  size moved = size e.
Proof.
  rewrite makeMove_success_valid. intros Hv captured moved.
  destruct (makeMove_valid_unfold e x y player Hv) as (_ & Hsize & Hboard & _).
  destruct (isValidMove_valid_inv e x y player Hv) as (Hon & Hcell & _).
  fold moved in Hsize, Hboard. fold captured in Hboard.
  set (placed := setCell (board e) x y player) in *.
  assert (∀ c : Point, c ∈ captured → getCell placed c.1 c.2 = Some (getOpponent player))
    as Hcol by (intros c; apply getCapturedStones_color).
  pose proof (makeMove_reads e x y player Hv) as Hread.
  cbv zeta in Hread. fold placed captured moved in Hread.
  split; [done|]. split; [|split; [|split; [|done]]].
  - pose proof (Hread (x, y)) as Hxy. cbn [fst snd] in Hxy. rewrite Hxy.
    rewrite bool_decide_false by (by apply captured_excludes_played).
    apply getCell_setCell_eq. by rewrite Hcell.
  - intros c Hc. split.
    + rewrite <- (Hcol c Hc). symmetry. apply getCell_setCell_ne.
      intros Heq. apply (captured_excludes_played e x y player Hcell).
      destruct c. simpl in *. by rewrite Heq.
    + by rewrite Hread, bool_decide_true.
  - intros q Hq Hnc. rewrite Hread, bool_decide_false by done.
    apply getCell_setCell_ne. destruct q. simpl. congruence.
Qed.

Lemma makeMove_board_effect_witness :
  move_success (makeMove corner_game 1 1 BLACK).1 = true ∧
  getCell (board (makeMove corner_game 1 1 BLACK).2) 1 1 = Some BLACK ∧
  getCell (board (makeMove corner_game 1 1 BLACK).2) 0 0 = Some EMPTY.
Proof.
  assert (move_success (makeMove corner_game 1 1 BLACK).1 = true) as Hok
    by (vm_compute; reflexivity).
  pose proof (makeMove_board_effect corner_game 1 1 BLACK Hok) as (_ & Hp & Hc & _).
  split; [exact Hok|]. split; [exact Hp|].
  apply (Hc (0, 0)). apply list_elem_of_In. vm_compute. right; left; reflexivity.
Defined.

(** X4: a successful [makeMove] reports as number of captures the length
    of the list of [getCapturedStones], hands the turn to the opponent,
    records the move as the last move, appends one entry with that number to
    the move log and the snapshot of the new position to the history, and
    adds the number to the tally of the colour taken ([capturedWhite] when
    black plays, [capturedBlack] otherwise), leaving the other tally as it
    was. *)
Theorem makeMove_bookkeeping e x y player :
  move_success (makeMove e x y player).1 = true →
  let captured :=
    getCapturedStones (size e) (setCell (board e) x y player) x y player in
  let count := Z.of_nat (length captured) in
  let moved := (makeMove e x y player).2 in
  (∃ ko, (makeMove e x y player).1 = MoveOk count ko) ∧
  currentPlayer moved = getOpponent player ∧
  lastMove moved = Some (mkLastMove x y player) ∧
  moveHistory moved = moveHistory e ++ [Placed x y player count] ∧
  boardHistory moved = boardHistory e ++ [snapshot_of moved] ∧
  (player = BLACK →
   capturedWhite moved = capturedWhite e + count ∧ capturedBlack moved = capturedBlack e) ∧
  (player ≠ BLACK →
   capturedBlack moved = capturedBlack e + count ∧ capturedWhite moved = capturedWhite e).
Proof.
  rewrite makeMove_success_valid. intros Hv captured count moved.
  destruct (makeMove_valid_unfold e x y player Hv) as (Hres & _).
  destruct (makeMove_valid_shape e x y player Hv)
    as (e7 & count' & Hmove & _ & Hlog & Hsnaps & Hcur & Hlast).
  pose proof (makeMove_tallies e x y player Hv) as Htally.
  cbv zeta in Htally. fold captured count moved in Hres, Htally.
  rewrite Hmove in Hres. simpl in Hres. injection Hres as -> _.
  assert (moved = saveBoardState e7) as Hmoved by (unfold moved; by rewrite Hmove).
  split; [by rewrite Hmove; eexists|].
  rewrite Hmoved in *. rewrite saveBoardState_unfold.
  split; [done|]. split; [done|]. split; [done|].
  split; [simpl; by rewrite Hsnaps|].
  rewrite saveBoardState_unfold in Htally. simpl in *.
  unfold getOpponent in Htally. split.
  - intros ->. rewrite (bool_decide_true (BLACK = BLACK)) in Htally by done.
    by rewrite bool_decide_false in Htally.
  - intros Hne. rewrite (bool_decide_false (player = BLACK)) in Htally by done.
    by rewrite bool_decide_true in Htally.
Qed.

Lemma makeMove_bookkeeping_witness :
  move_success (makeMove ko_game 1 0 BLACK).1 = true ∧
  capturedWhite (makeMove ko_game 1 0 BLACK).2 = capturedWhite ko_game + 1 ∧
  currentPlayer (makeMove ko_game 1 0 BLACK).2 = WHITE.
Proof.
  assert (move_success (makeMove ko_game 1 0 BLACK).1 = true) as Hok
    by (vm_compute; reflexivity).
  pose proof (makeMove_bookkeeping ko_game 1 0 BLACK Hok)
    as (_ & Hcur & _ & _ & _ & Hblack & _).
  split; [exact Hok|]. split; [|exact Hcur].
  destruct (Hblack eq_refl) as [Hw _]. exact Hw.
Defined.

(** X5: after a successful [makeMove] of a colour other than EMPTY the
    stone just played has at least one liberty, and the group that
    [getGroup] finds from it starts with it. *)
Theorem makeMove_leaves_liberty e x y player :
  move_success (makeMove e x y player).1 = true →
  player ≠ EMPTY →
  let moved := (makeMove e x y player).2 in
  (0 < countLiberties (size moved) (board moved) x y) ∧
  ∃ rest, stones (getGroup (size moved) (board moved) x y) = (x, y) :: rest.
Proof.
  intros Hok Hplayer moved.
  rewrite makeMove_success_valid in Hok.
  destruct (makeMove_valid_unfold e x y player Hok) as (_ & Hsize & Hboard & _).
  destruct (isValidMove_valid_inv e x y player Hok) as (_ & Hcell & _).
  pose proof (makeMove_reads e x y player Hok) as Hread. cbv zeta in Hread.
  fold moved in Hsize, Hboard, Hread.
  set (captured := getCapturedStones (size e) (setCell (board e) x y player) x y player)
    in *.
  assert (getCell (board moved) x y = Some player) as Hplaced.
  { pose proof (Hread (x, y)) as Hxy. cbn [fst snd] in Hxy. rewrite Hxy.
    rewrite bool_decide_false by (by apply captured_excludes_played).
    apply getCell_setCell_eq. by rewrite Hcell. }
  assert (∀ c : Point, c ∈ captured → getCell (board moved) c.1 c.2 = Some EMPTY) as Hcap.
  { intros c Hc. by rewrite Hread, bool_decide_true. }
  assert (getCell (board moved) x y ≠ Some EMPTY) as Hstone
    by (rewrite Hplaced; congruence).
  split; [|by apply getGroup_stones_start].
  unfold countLiberties.
  enough (liberties (getGroup (size moved) (board moved) x y) ≠ []) as Hne
    by (destruct (liberties _); [done | simpl; lia]).
  destruct captured as [|c l] eqn:Hcaptured.
  - (* no capture: the liberty check of isValidMove was made on this grid *)
    simpl in Hboard. rewrite Hboard, Hsize.
    destruct (isValidMove_valid_inv e x y player Hok) as (Hon & _ & Hko).
    unfold isValidMove in Hok. rewrite Hon, Hko, Hcell in Hok.
    rewrite (bool_decide_true (Some EMPTY = Some EMPTY)) in Hok by done.
    cbn [negb size board set_board] in Hok. fold captured in Hok.
    rewrite Hcaptured in Hok.
    rewrite (bool_decide_false (0 < length [])%nat) in Hok by (simpl; lia).
    unfold hasLibertyAfterMove in Hok.
    case_bool_decide as Hlib; [|done].
    intros Hnil. rewrite Hnil in Hlib. simpl in Hlib. lia.
  - (* a capture: a captured neighbour is now an empty cell next to the stone *)
    assert (∃ n : Point, n ∈ getNeighbors (size e) x y ∧ n ∈ captured) as (n & Hn & Hnc).
    { unfold captured. rewrite getCapturedStones_bind.
      apply bind_pieces_nonempty.
      - intros k. destruct (capturedVia_start (size e) (setCell (board e) x y player)
                              (getOpponent player) k (getOpponent_not_empty player))
          as [? | (_ & _ & ?)]; auto.
      - rewrite <- getCapturedStones_bind. fold captured. by rewrite Hcaptured. }
    rewrite <- Hcaptured in Hcap.
    pose proof (Hcap n Hnc) as Hempty.
    intros Hnil.
    pose proof (getGroup_liberties_start (size moved) (board moved) x y n Hstone) as Hin.
    rewrite Hsize in Hin at 1. specialize (Hin Hn Hempty).
    rewrite Hnil in Hin. by apply elem_of_nil in Hin.
Qed.

Lemma makeMove_leaves_liberty_witness :
  move_success (makeMove corner_game 1 1 BLACK).1 = true ∧ BLACK ≠ EMPTY ∧
  0 < countLiberties 3 (board (makeMove corner_game 1 1 BLACK).2) 1 1.
Proof.
  assert (move_success (makeMove corner_game 1 1 BLACK).1 = true) as Hok
    by (vm_compute; reflexivity).
  assert (BLACK ≠ EMPTY) as Hne by done.
  split; [exact Hok|]. split; [exact Hne|].
  exact (proj1 (makeMove_leaves_liberty corner_game 1 1 BLACK Hok Hne)).
Defined.

(** ** The two logs *)

Lemma length_removelast {A} (l : list A) : length (removelast l) = pred (length l).
Proof.
  destruct l as [|x l _] using rev_ind; [done|].
  rewrite removelast_last, length_app. simpl. lia.
Qed.

Lemma reachable_logs_aligned e :
  reachable e → length (boardHistory e) = S (length (moveHistory e)).
Proof.
  induction 1 as [n|e x y player _ IH|e _ IH|e _ IH|e saved later _ _ _ _ _ IH].
  - done.
  - destruct (is_valid (isValidMove e x y player).1) eqn:Hv.
    + destruct (makeMove_valid_shape e x y player Hv) as (e7 & c & -> & _ & Hm & Hb & _).
      rewrite saveBoardState_unfold. simpl. rewrite Hm, Hb, !length_app. simpl. lia.
    + by rewrite makeMove_invalid.
  - rewrite pass_unfold. unfold passed_engine. rewrite saveBoardState_unfold.
    simpl. rewrite !length_app. simpl. lia.
  - unfold undoMove. case_bool_decide as Hlen; [done|].
    assert (length (boardHistory (undoMove e).2) = pred (length (boardHistory e)) ∧
            length (moveHistory (undoMove e).2) = pred (length (moveHistory e)))
      as [Hb Hm].
    { unfold undoMove. rewrite bool_decide_false by done. simpl.
      destruct (last (removelast (boardHistory e))); simpl;
        by rewrite !length_removelast. }
    unfold undoMove in Hb, Hm. rewrite bool_decide_false in Hb, Hm by done.
    rewrite Hb, Hm. lia.
  - exact IH.
Qed.

(** X6: on a reachable engine, the engines restored from a save slot
    after further play included, the snapshot history has one entry more
    than the move log; when the move log is empty [undoMove] fails with
    nothing to undo and leaves the engine as it was; otherwise it succeeds,
    drops the last entry of both logs and leaves the newest snapshot equal
    to the position it restored. *)
Theorem undoMove_available_after_a_move e :
  reachable e →
  length (boardHistory e) = S (length (moveHistory e)) ∧
  (moveHistory e = [] → undoMove e = (UndoFail NothingToUndo, e)) ∧
  (moveHistory e ≠ [] →
   (undoMove e).1 = UndoOk ∧
   moveHistory (undoMove e).2 = removelast (moveHistory e) ∧
   boardHistory (undoMove e).2 = removelast (boardHistory e) ∧
   last (boardHistory (undoMove e).2) = Some (snapshot_of (undoMove e).2)).
Proof.
  intros Hreach. pose proof (reachable_logs_aligned e Hreach) as Hlen.
  split; [done|]. split.
  - intros Hnil. unfold undoMove. rewrite Hnil in Hlen.
    by rewrite bool_decide_true by (simpl in Hlen; lia).
  - intros Hne.
    assert (length (moveHistory e) ≠ 0%nat) by (by destruct (moveHistory e)).
    assert (∃ h s newest, boardHistory e = h ++ [s; newest]) as (h & s & newest & Hb).
    { destruct (boardHistory e) as [|newest l _] using rev_ind; [simpl in Hlen; lia|].
      destruct l as [|s h _] using rev_ind; [simpl in Hlen; lia|].
      exists h, s, newest. by rewrite <- (assoc_L (++)). }
    rewrite (undoMove_restores e h s newest Hb). cbn [fst snd moveHistory boardHistory].
    split; [done|]. split; [done|]. split.
    + rewrite Hb. change (h ++ [s; newest]) with (h ++ [s] ++ [newest]).
      by rewrite (assoc_L (++)), removelast_last.
    + rewrite last_snoc. by destruct s.
Qed.

Lemma undoMove_available_after_a_move_witness :
  (reachable (init 19) ∧ moveHistory (init 19) = [] ∧
   undoMove (init 19) = (UndoFail NothingToUndo, init 19)) ∧
  (reachable corner_game ∧ moveHistory corner_game ≠ [] ∧
   (undoMove corner_game).1 = UndoOk).
Proof.
  split.
  - split; [apply reach_init|]. split; [reflexivity|].
    exact (proj1 (proj2 (undoMove_available_after_a_move (init 19) (reach_init 19)))
             eq_refl).
  - assert (reachable corner_game) as Hreach
      by apply reach_play, reach_pass, reach_plays, reach_init.
    assert (moveHistory corner_game ≠ []) as Hne by (vm_compute; discriminate).
    split; [exact Hreach|]. split; [exact Hne|].
    exact (proj1 (proj2 (proj2 (undoMove_available_after_a_move corner_game Hreach)) Hne)).
Defined.

(** X7: [pass] followed by [undoMove] succeeds and gives back the engine
    before the pass, logs included, exactly when the newest snapshot of that
    engine is its position, as it is in a new game and after every legal
    [makeMove] and every [pass]; on any other engine, such as the one
    restored from a save slot after further play, the two calls do not give
    the engine back. *)
Theorem pass_undoMove_round_trip e :
  (history_ok e → undoMove (pass e).2 = (UndoOk, e)) ∧
  ((undoMove (pass e).2).2 = e → history_ok e).
Proof.
  apply (undoMove_after_push e (pass e).2 (Passed (currentPlayer e))
           (snapshot_of (set_koPoint
              (set_currentPlayer
                 (set_moveHistory e (moveHistory e ++ [Passed (currentPlayer e)]))
                 (getOpponent (currentPlayer e))) None))).
  - by rewrite pass_unfold.
  - by rewrite pass_unfold.
  - rewrite pass_unfold. cbn [snd]. unfold passed_engine.
    by rewrite saveBoardState_unfold.
Qed.

Lemma pass_undoMove_round_trip_witness :
  history_ok corner_game ∧ undoMove (pass corner_game).2 = (UndoOk, corner_game).
Proof.
  assert (history_ok corner_game) as Hok by (unfold history_ok; vm_compute; reflexivity).
  split; [exact Hok|]. exact (proj1 (pass_undoMove_round_trip corner_game) Hok).
Defined.

(** ** [getAllValidMoves] *)

Lemma getAllValidMoves_filter e player l :
  foldl (λ (acc : list Point * Engine) (p : Point),
           let '(validation, e') := isValidMove acc.2 p.1 p.2 player in
           (if is_valid validation then acc.1 ++ [p] else acc.1, e'))
        ([], e) l
  = (List.filter (λ p : Point, is_valid (isValidMove e p.1 p.2 player).1) l, e).
Proof.
  induction l as [|p l IH] using rev_ind; [done|].
  rewrite foldl_snoc, IH, List.filter_app. simpl.
  split_isValidMove e p.1 p.2 player v.
  destruct (is_valid v); by rewrite ?app_nil_r.
Qed.

Lemma NoDup_allPoints size : NoDup (allPoints size).
Proof.
  unfold allPoints. apply NoDup_bind.
  - intros x1 x2 p _ _ (y1 & -> & _)%list_elem_of_fmap (y2 & [= -> _] & _)%list_elem_of_fmap.
    done.
  - intros x _. apply NoDup_fmap_2; [|apply NoDup_seqZ]. by intros y1 y2 [=].
  - apply NoDup_seqZ.
Qed.

(** X8: [getAllValidMoves] leaves the engine as it was and lists, each
    once and in the order of the scan of the grid, exactly the points for
    which [isValidMove] answers valid. *)
Theorem getAllValidMoves_lists_the_legal_points e player :
  (getAllValidMoves e player).2 = e ∧
  NoDup (getAllValidMoves e player).1 ∧
  (∀ p : Point, p ∈ (getAllValidMoves e player).1 ↔
                is_valid (isValidMove e p.1 p.2 player).1 = true) ∧
  (getAllValidMoves e player).1 =
    List.filter (λ p : Point, is_valid (isValidMove e p.1 p.2 player).1)
                (allPoints (size e)).
Proof.
  unfold getAllValidMoves. rewrite getAllValidMoves_filter. simpl.
  split; [done|]. split; [|split; [|done]].
  - apply NoDup_ListNoDup, List.NoDup_filter, NoDup_ListNoDup, NoDup_allPoints.
  - intros p. rewrite list_elem_of_In, filter_In, <- list_elem_of_In, elem_of_allPoints.
    split; [tauto|]. intros Hv. split; [|done].
    by destruct (isValidMove_valid_inv e p.1 p.2 player Hv).
Qed.

(** ** A new game *)

Lemma getCell_replicate size x y :
  isOnBoard size x y = true →
  getCell (replicate (Z.to_nat size) (replicate (Z.to_nat size) EMPTY)) x y = Some EMPTY.
Proof.
  intros [Hx Hy]%isOnBoard_spec. apply getCell_Some. split; [lia|]. split; [lia|].
  exists (replicate (Z.to_nat size) EMPTY). split; apply lookup_replicate_2; lia.
Qed.

(** X9: in a new game every point of the grid is a legal move for a
    colour other than EMPTY, with no capture and the engine left as it was,
    when the grid has two lines or more; on the grid of one point the point
    is refused as suicide. *)
Theorem init_every_point_is_legal sz x y player :
  player ≠ EMPTY → isOnBoard sz x y = true →
  (2 ≤ sz → isValidMove (init sz) x y player = (Valid [], init sz)) ∧
  (sz = 1 → isValidMove (init sz) x y player = (Invalid Suicide, init sz)).
Proof.
  intros Hplayer Hon.
  set (b := replicate (Z.to_nat sz) (replicate (Z.to_nat sz) EMPTY)).
  assert (board (init sz) = b ∧ size (init sz) = sz
          ∧ koPoint (init sz) = None) as (Hb & Hs & Hk) by done.
  assert (getCell b x y = Some EMPTY) as Hcell by (by apply getCell_replicate).
  set (placed := setCell b x y player).
  assert (∀ nb : Point, nb ∈ getNeighbors sz x y → getCell placed nb.1 nb.2 = Some EMPTY)
    as Hnbr.
  { intros nb Hn. unfold placed. rewrite getCell_setCell_ne.
    - apply getCell_replicate. by eapply getNeighbors_onBoard.
    - intros Heq. apply (getNeighbors_ne _ _ _ _ Hn). by destruct nb.
  }
  assert (getCapturedStones sz placed x y player = []) as Hcap.
  { rewrite getCapturedStones_bind.
    induction (getNeighbors sz x y) as [|nb l IH]; csimpl; [done|].
    rewrite IH by (intros m Hm; apply Hnbr; by right).
    unfold capturedVia. rewrite (Hnbr nb) by (by left).
    rewrite bool_decide_false; [done|].
    intros [= Heq]. by apply (getOpponent_not_empty player). }
  assert (getCell placed x y ≠ Some EMPTY) as Hstone.
  { unfold placed. rewrite getCell_setCell_eq by (by rewrite Hcell). congruence. }
  assert (isValidMove (init sz) x y player =
          (if bool_decide (0 < length (liberties (getGroup sz placed x y)))%nat
           then Valid [] else Invalid Suicide, init sz)) as Hcheck.
  { rewrite (surjective_pairing (isValidMove _ _ _ _)), isValidMove_state. f_equal.
    unfold isValidMove. rewrite Hs, Hb, Hon, Hcell.
    rewrite (bool_decide_true (Some EMPTY = Some EMPTY)) by done.
    unfold isKoPoint. rewrite Hk. cbn [negb size board set_board fst].
    rewrite ?Hs, ?Hb. fold placed. rewrite Hcap.
    rewrite (bool_decide_false (0 < length [])%nat) by (simpl; lia).
    unfold hasLibertyAfterMove. by case_bool_decide. }
  rewrite Hcheck. apply isOnBoard_spec in Hon as [Hx Hy]. split.
  - intros Hsize. rewrite bool_decide_true; [done|].
    assert (∃ nb : Point, nb ∈ getNeighbors sz x y) as [nb Hn].
    { destruct (decide (x + 1 < sz)); [exists (x + 1, y) | exists (x - 1, y)];
        apply elem_of_getNeighbors; (split; [apply isOnBoard_spec; simpl; lia | auto]). }
    pose proof (getGroup_liberties_start sz placed x y nb Hstone Hn (Hnbr nb Hn)) as Hin.
    destruct (liberties _); [by apply elem_of_nil in Hin | simpl; lia].
  - intros ->. rewrite bool_decide_false; [done|].
    assert (liberties (getGroup 1 placed x y) = []) as ->; [|simpl; lia].
    destruct (liberties (getGroup 1 placed x y)) as [|l ls] eqn:Hl; [done|].
    assert (l ∈ liberties (getGroup 1 placed x y)) as Hin by (rewrite Hl; by left).
    apply getGroup_liberties in Hin as [Hlon Hlempty].
    apply isOnBoard_spec in Hlon. assert (l = (x, y)) as -> by (destruct l; simpl in *; f_equal; lia).
    simpl in Hlempty. done.
Qed.

Lemma init_every_point_is_legal_witness :
  BLACK ≠ EMPTY ∧ isOnBoard 19 3 3 = true ∧ isOnBoard 1 0 0 = true ∧
  isValidMove (init 19) 3 3 BLACK = (Valid [], init 19) ∧
  isValidMove (init 1) 0 0 BLACK = (Invalid Suicide, init 1).
Proof.
  assert (BLACK ≠ EMPTY) as Hne by done.
  split; [exact Hne|]. split; [reflexivity|]. split; [reflexivity|]. split.
  - apply (proj1 (init_every_point_is_legal 19 3 3 BLACK Hne eq_refl)). lia.
  - exact (proj2 (init_every_point_is_legal 1 0 0 BLACK Hne eq_refl) eq_refl).
Defined.

(** ** The group that [getGroup] finds *)

Section group_exactness.
Context (size : Z) (b : Board) (color : option Z) (start : Point).
Hypothesis color_stone : color ≠ Some EMPTY.
Implicit Types (st : GroupLoop) (n p : Point).

Lemma NoDup_set_add k (s : list Point) : NoDup s → NoDup (set_add k s).
Proof.
  intros Hnd. unfold set_add. destruct (set_has k s) eqn:Hhas; [done|].
  apply NoDup_app. split; [done|]. split; [|apply NoDup_singleton].
  intros p Hp ->%list_elem_of_singleton.
  apply set_has_true in Hp. congruence.
Qed.

Lemma groupVisit_exact st n :
  let st' := groupVisit b color st n in
  gl_stones st' = gl_stones st ∧
  (∀ p, p ∈ gl_visited st' ↔ p ∈ gl_visited st ∨ (p = n ∧ getCell b p.1 p.2 = color)) ∧
  (∀ p, p ∈ gl_liberties st' ↔
        p ∈ gl_liberties st ∨ (p = n ∧ getCell b p.1 p.2 = Some EMPTY)) ∧
  (NoDup (gl_liberties st) → NoDup (gl_liberties st')).
Proof.
  unfold groupVisit. case_bool_decide as Hempty; simpl.
  - split; [done|]. split; [|split].
    + intros p. split; [by left|]. intros [?|[-> Hc]]; [done|]. congruence.
    + intros p. rewrite elem_of_set_add. split.
      * intros [->|?]; [by right | by left].
      * intros [?|[-> _]]; [by right | by left].
    + apply NoDup_set_add.
  - destruct (bool_decide (getCell b n.1 n.2 = color)) eqn:Hsame; simpl.
    + apply bool_decide_eq_true in Hsame.
      destruct (set_has n (gl_visited st)) eqn:Hhas; simpl.
      * apply set_has_true in Hhas. split; [done|]. split; [|split; [|done]].
        -- intros p. split; [by left|]. by intros [?|[-> _]].
        -- intros p. split; [by left|]. intros [?|[-> ?]]; [done|]. congruence.
      * split; [done|]. split; [|split; [|done]].
        -- intros p. rewrite elem_of_set_add. split.
           ++ intros [->|?]; [by right | by left].
           ++ intros [?|[-> _]]; [by right | by left].
        -- intros p. split; [by left|]. intros [?|[-> ?]]; [done|]. congruence.
    + apply bool_decide_eq_false in Hsame. split; [done|]. split; [|split; [|done]].
      * intros p. split; [by left|]. intros [?|[-> ?]]; [done|]. congruence.
      * intros p. split; [by left|]. intros [?|[-> ?]]; [done|]. congruence.
Qed.

Lemma groupVisits_exact l st :
  let st' := foldl (groupVisit b color) st l in
  gl_stones st' = gl_stones st ∧
  (∀ p, p ∈ gl_visited st' ↔ p ∈ gl_visited st ∨ (p ∈ l ∧ getCell b p.1 p.2 = color)) ∧
  (∀ p, p ∈ gl_liberties st' ↔
        p ∈ gl_liberties st ∨ (p ∈ l ∧ getCell b p.1 p.2 = Some EMPTY)) ∧
  (NoDup (gl_liberties st) → NoDup (gl_liberties st')).
Proof.
  revert st. induction l as [|n l IH]; intros st; simpl.
  - split; [done|]. split; [|split; [|done]]; intros p; rewrite elem_of_nil; tauto.
  - destruct (IH (groupVisit b color st n)) as (Hs & Hv & Hl & Hnd).
    destruct (groupVisit_exact st n) as (Hs1 & Hv1 & Hl1 & Hnd1).
    split; [by rewrite Hs, Hs1|]. split; [|split; [|auto]].
    + intros p. rewrite Hv, Hv1, elem_of_cons. tauto.
    + intros p. rewrite Hl, Hl1, elem_of_cons. tauto.
Qed.

Lemma group_exact_step st current rest :
  group_inv size b start st → group_exact size b color start st →
  gl_queue st = current :: rest →
  group_exact size b color start
    (foldl (groupVisit b color)
       (mkGroupLoop rest (gl_visited st) (gl_stones st ++ [current]) (gl_liberties st))
       (getNeighbors size current.1 current.2)).
Proof.
  intros [Hvis _ _ _] [Hstart Hchain Hclosed Hfound Hlib Hnd] Hq.
  destruct (groupVisits_exact (getNeighbors size current.1 current.2)
              (mkGroupLoop rest (gl_visited st) (gl_stones st ++ [current])
                           (gl_liberties st))) as (Hs & Hv & Hl & Hnd').
  simpl in Hs, Hv, Hl, Hnd'.
  assert (current ∈ gl_visited st) as Hcur.
  { rewrite Hvis, Hq. apply elem_of_app. right. by left. }
  split.
  - apply Hv. by left.
  - intros p [Hp|[Hp Hc]]%Hv; [by apply Hchain|].
    eapply chain_step; [apply Hchain, Hcur | done..].
  - intros s n. rewrite Hs. intros [Hin| ->%list_elem_of_singleton]%elem_of_app Hn Hc.
    + apply Hv. left. by eapply Hclosed.
    + apply Hv. by right.
  - intros s n. rewrite Hs. intros [Hin| ->%list_elem_of_singleton]%elem_of_app Hn Hc.
    + apply Hl. left. by eapply Hfound.
    + apply Hl. by right.
  - intros l [Hin|[Hin Hc]]%Hl.
    + destruct (Hlib l Hin) as (He & s & Hs' & Hn). split; [done|].
      exists s. rewrite Hs. split; [|done]. apply elem_of_app. by left.
    + split; [done|]. exists current. rewrite Hs. split; [|done].
      apply elem_of_app. right. by left.
  - by apply Hnd'.
Qed.

Lemma group_exact_groupLoop fuel st :
  group_inv size b start st → group_exact size b color start st →
  group_exact size b color start (groupLoop fuel size b color st).
Proof.
  revert st. induction fuel as [|fuel IH]; intros st Hinv Hex; simpl; [done|].
  destruct (gl_queue st) as [|current rest] eqn:Hq; [done|].
  apply IH; [by apply group_inv_step | by apply group_exact_step].
Qed.

End group_exactness.

Lemma group_exact_start size b color (x y : Z) :
  group_exact size b color (x, y) (mkGroupLoop [(x, y)] [(x, y)] [] []).
Proof.
  split; simpl.
  - by left.
  - intros p ->%list_elem_of_singleton. apply chain_here.
  - by intros s n ?%elem_of_nil.
  - by intros s n ?%elem_of_nil.
  - by intros l ?%elem_of_nil.
  - apply NoDup_nil_2.
Qed.

(** The group found from a cell that is not empty, read off the grid. *)
Lemma getGroup_exact size b x y :
  getCell b x y ≠ Some EMPTY →
  (∀ q : Point, q ∈ stones (getGroup size b x y) ↔ chain size b (getCell b x y) (x, y) q) ∧
  (∀ l : Point, l ∈ liberties (getGroup size b x y) ↔
     getCell b l.1 l.2 = Some EMPTY ∧
     ∃ s : Point, s ∈ stones (getGroup size b x y) ∧ l ∈ getNeighbors size s.1 s.2).
Proof.
  intros Hstone.
  set (st := groupLoop (searchFuel size) size b (getCell b x y)
                       (mkGroupLoop [(x, y)] [(x, y)] [] [])).
  assert (stones (getGroup size b x y) = gl_stones st ∧
          liberties (getGroup size b x y) = gl_liberties st) as [-> ->].
  { unfold getGroup. by rewrite bool_decide_false. }
  pose proof (group_inv_groupLoop size b (getCell b x y) (x, y) (searchFuel size) _
                (group_inv_start size b x y)) as [Hvis _ _ _].
  pose proof (group_exact_groupLoop size b (getCell b x y) (x, y) Hstone
                (searchFuel size) _ (group_inv_start size b x y)
                (group_exact_start size b (getCell b x y) x y))
    as [Hstart Hchain Hclosed Hfound Hlib _].
  fold st in Hvis, Hstart, Hchain, Hclosed, Hfound, Hlib.
  assert (gl_queue st = []) as Hq by apply groupLoop_drains.
  rewrite Hq, app_nil_r in Hvis. rewrite Hvis in *.
  split.
  - intros q. split; [apply Hchain|].
    induction 1 as [|q n _ IH Hn Hc]; [done|]. by eapply Hclosed.
  - intros l. split; [apply Hlib|].
    intros (He & s & Hs & Hn). by eapply Hfound.
Qed.

(** X10: [getGroup] from an empty cell returns no stone and no liberty;
    from any other cell it returns exactly the positions joined to the
    start by a chain of adjacent cells that read as the start does, and as
    liberties exactly the empty cells adjacent to one of them; no position
    is listed twice, and [countLiberties] is the number of liberties. *)
Theorem getGroup_is_the_connected_group size b x y :
  let group := getGroup size b x y in
  (getCell b x y = Some EMPTY → stones group = [] ∧ liberties group = []) ∧
  (getCell b x y ≠ Some EMPTY →
   (∀ q : Point, q ∈ stones group ↔ chain size b (getCell b x y) (x, y) q) ∧
   (∀ l : Point, l ∈ liberties group ↔
      getCell b l.1 l.2 = Some EMPTY ∧
      ∃ s : Point, s ∈ stones group ∧ l ∈ getNeighbors size s.1 s.2)) ∧
  NoDup (stones group) ∧ NoDup (liberties group) ∧
  countLiberties size b x y = Z.of_nat (length (liberties group)).
Proof.
  intros group. split; [|split; [|split; [|split; [|done]]]].
  - intros Hcell. unfold group, getGroup. by rewrite bool_decide_true.
  - intros Hstone. apply (getGroup_exact size b x y Hstone).
  - apply getGroup_stones_NoDup.
  - unfold group, getGroup. case_bool_decide; simpl; [apply NoDup_nil_2|].
    apply (ge_nodup size b (getCell b x y) (x, y)).
    apply group_exact_groupLoop; [done | apply group_inv_start | apply group_exact_start].
Qed.

Lemma getGroup_is_the_connected_group_witness :
  getCell (board corner_game) 0 0 ≠ Some EMPTY ∧
  (1, 0) ∈ stones (getGroup 3 (board corner_game) 0 0) ∧
  (1, 1) ∈ liberties (getGroup 3 (board corner_game) 0 0).
Proof.
  assert (getCell (board corner_game) 0 0 ≠ Some EMPTY) as Hstone
    by (vm_compute; discriminate).
  destruct (proj1 (proj2 (getGroup_is_the_connected_group 3 (board corner_game) 0 0))
              Hstone) as [Hstones Hlibs].
  assert ((1, 0) ∈ stones (getGroup 3 (board corner_game) 0 0)) as Hin.
  { apply Hstones. eapply (chain_step _ _ _ _ (0, 0)); [apply chain_here | |reflexivity].
    apply list_elem_of_In. vm_compute. left; reflexivity. }
  split; [exact Hstone|]. split; [exact Hin|].
  apply Hlibs. split; [reflexivity|]. exists (1, 0). split; [exact Hin|].
  apply list_elem_of_In. vm_compute. right; right; left; reflexivity.
Defined.

(** ** The flood fill of [calculateTerritory] *)

Section region_facts.
Context (size : Z) (b : Board).
Implicit Types (st : RegionLoop) (n p : Point).

Lemma regionVisit_facts st n :
  let st' := regionVisit b st n in
  (∀ p, p ∈ rl_visited st → p ∈ rl_visited st') ∧
  ((∀ p, p ∈ rl_visited st → open_cell b p) → ∀ p, p ∈ rl_visited st' → open_cell b p) ∧
  (rl_touchesBlack st' = true →
   rl_touchesBlack st = true ∨ getCell b n.1 n.2 = Some BLACK) ∧
  (rl_touchesWhite st' = true →
   rl_touchesWhite st = true ∨ getCell b n.1 n.2 = Some WHITE).
Proof.
  unfold regionVisit. case_bool_decide as Hb; simpl; [by auto|].
  case_bool_decide as Hw; simpl; [by auto|].
  destruct (set_has n (rl_visited st)) eqn:Hhas; simpl; [by auto|].
  split; [|split; [|by auto]].
  - intros p Hp. apply elem_of_set_add. by right.
  - intros Hopen p [->|Hp]%elem_of_set_add; [by split | by apply Hopen].
Qed.

Lemma regionVisits_facts l st :
  (∀ n, n ∈ l → isOnBoard size n.1 n.2 = true) →
  let st' := foldl (regionVisit b) st l in
  (∀ p, p ∈ rl_visited st → p ∈ rl_visited st') ∧
  ((∀ p, p ∈ rl_visited st → open_cell b p) → ∀ p, p ∈ rl_visited st' → open_cell b p) ∧
  (rl_touchesBlack st' = true →
   rl_touchesBlack st = true ∨
   ∃ n, isOnBoard size n.1 n.2 = true ∧ getCell b n.1 n.2 = Some BLACK) ∧
  (rl_touchesWhite st' = true →
   rl_touchesWhite st = true ∨
   ∃ n, isOnBoard size n.1 n.2 = true ∧ getCell b n.1 n.2 = Some WHITE).
Proof.
  revert st. induction l as [|n l IH]; intros st Hl; simpl; [by auto|].
  destruct (IH (regionVisit b st n)) as (Hm & Ho & Hb & Hw).
  { intros m Hm. apply Hl. by right. }
  destruct (regionVisit_facts st n) as (Hm1 & Ho1 & Hb1 & Hw1).
  assert (isOnBoard size n.1 n.2 = true) as Hn by (apply Hl; by left).
  split; [by auto|]. split; [by auto|]. split.
  - intros [[?|?]%Hb1|?]%Hb; eauto.
  - intros [[?|?]%Hw1|?]%Hw; eauto.
Qed.

Lemma regionLoop_facts fuel st :
  let st' := regionLoop fuel size b st in
  (∀ p, p ∈ rl_visited st → p ∈ rl_visited st') ∧
  ((∀ p, p ∈ rl_visited st → open_cell b p) → ∀ p, p ∈ rl_visited st' → open_cell b p) ∧
  (rl_touchesBlack st' = true →
   rl_touchesBlack st = true ∨
   ∃ n, isOnBoard size n.1 n.2 = true ∧ getCell b n.1 n.2 = Some BLACK) ∧
  (rl_touchesWhite st' = true →
   rl_touchesWhite st = true ∨
   ∃ n, isOnBoard size n.1 n.2 = true ∧ getCell b n.1 n.2 = Some WHITE).
Proof.
  revert st. induction fuel as [|fuel IH]; intros st; simpl; [by auto|].
  destruct (rl_queue st) as [|current rest]; [by auto|].
  set (st1 := mkRegionLoop rest (rl_visited st) (rl_region st ++ [current])
                           (rl_touchesBlack st) (rl_touchesWhite st)).
  destruct (IH (foldl (regionVisit b) st1 (getNeighbors size current.1 current.2)))
    as (Hm & Ho & Hb & Hw).
  destruct (regionVisits_facts (getNeighbors size current.1 current.2) st1)
    as (Hm1 & Ho1 & Hb1 & Hw1); [apply getNeighbors_onBoard|].
  split; [by auto|]. split; [by auto|]. split.
  - intros [[?|?]%Hb1|?]%Hb; eauto.
  - intros [[?|?]%Hw1|?]%Hw; eauto.
Qed.

(** One point of the scan. *)
Lemma territoryStep_inv acc p :
  territory_inv size b acc → p ∈ allPoints size →
  territory_inv size b (territoryStep size b acc p) ∧
  (∀ q, q ∈ acc.2 → q ∈ (territoryStep size b acc p).2) ∧
  (getCell b p.1 p.2 = Some EMPTY → p ∈ (territoryStep size b acc p).2) ∧
  (t_black (territoryStep size b acc p).1 ≠ t_black acc.1 →
   ∃ n, isOnBoard size n.1 n.2 = true ∧ getCell b n.1 n.2 = Some BLACK) ∧
  (t_white (territoryStep size b acc p).1 ≠ t_white acc.1 →
   ∃ n, isOnBoard size n.1 n.2 = true ∧ getCell b n.1 n.2 = Some WHITE).
Proof.
  destruct acc as [t visited]. intros (Hok & Hopen & Hsum) Hp. cbn [fst snd] in *.
  unfold territoryStep. cbv beta iota.
  assert (territory_inv size b (t, visited)) as Hsame by (by split).
  destruct (decide (getCell b p.1 p.2 = Some EMPTY)) as [Hcell|Hcell];
    [|rewrite bool_decide_false by done; cbn [negb orb fst snd];
      split; [done|]; split; [done|]; split; [done|]; split; by intros ?].
  rewrite bool_decide_true by done. cbn [negb orb].
  destruct (set_has p visited) eqn:Hhas.
  { apply set_has_true in Hhas. cbn [fst snd].
    split; [done|]. split; [done|]. split; [done|]. split; by intros ?. }
  set (st0 := mkRegionLoop [p] (set_add p visited) [] false false).
  set (st := regionLoop (searchFuel size) size b st0).
  pose proof (region_inv_start size visited p Hok (proj1 (elem_of_allPoints _ _) Hp) Hhas)
    as Hinv0. fold st0 in Hinv0.
  pose proof (regionLoop_inv size b visited (searchFuel size) st0 Hinv0) as [Hvis Hok'].
  fold st in Hvis, Hok'.
  assert (rl_queue st = []) as Hq.
  { apply (regionLoop_drains_from size b visited); [done|].
    unfold searchFuel. simpl. lia. }
  rewrite Hq, app_nil_r in Hvis.
  destruct (regionLoop_facts (searchFuel size) st0) as (Hmono & Hopen' & Hblack & Hwhite).
  fold st in Hmono, Hopen', Hblack, Hwhite.
  assert (∀ q, q ∈ rl_visited st0 ↔ q = p ∨ q ∈ visited) as Hst0
    by (intros q; apply elem_of_set_add).
  assert (Z.of_nat (length (rl_visited st)) =
          Z.of_nat (length visited) + Z.of_nat (length (rl_region st))) as Hlen
    by (rewrite Hvis, length_app; lia).
  split; [split; [|split]|split; [|split; [|split]]]; cbn [fst snd].
  - done.
  - apply Hopen'. intros q [->|Hq']%Hst0; [|by apply Hopen].
    split; rewrite Hcell; done.
  - repeat case_match; simpl; lia.
  - intros q Hq'. apply Hmono, Hst0. by right.
  - intros _. apply Hmono, Hst0. by left.
  - destruct (rl_touchesBlack st) eqn:Hb, (rl_touchesWhite st) eqn:Hw; simpl;
      try done. intros _. by destruct Hblack as [?|?].
  - destruct (rl_touchesBlack st) eqn:Hb, (rl_touchesWhite st) eqn:Hw; simpl;
      try done. intros _. by destruct Hwhite as [?|?].
Qed.

Lemma territory_scan l acc :
  territory_inv size b acc → (∀ p, p ∈ l → p ∈ allPoints size) →
  let acc' := foldl (territoryStep size b) acc l in
  territory_inv size b acc' ∧
  (∀ q, q ∈ acc.2 → q ∈ acc'.2) ∧
  (∀ p, p ∈ l → getCell b p.1 p.2 = Some EMPTY → p ∈ acc'.2) ∧
  (t_black acc'.1 ≠ t_black acc.1 →
   ∃ n, isOnBoard size n.1 n.2 = true ∧ getCell b n.1 n.2 = Some BLACK) ∧
  (t_white acc'.1 ≠ t_white acc.1 →
   ∃ n, isOnBoard size n.1 n.2 = true ∧ getCell b n.1 n.2 = Some WHITE).
Proof.
  revert acc. induction l as [|p l IH]; intros acc Hinv Hl; simpl.
  { split; [done|]. split; [done|]. split; [by intros ? ?%elem_of_nil|]. done. }
  destruct (territoryStep_inv acc p Hinv) as (Hinv1 & Hm1 & Hp1 & Hb1 & Hw1).
  { apply Hl. by left. }
  destruct (IH (territoryStep size b acc p) Hinv1) as (Hinv2 & Hm2 & Hp2 & Hb2 & Hw2).
  { intros q Hq. apply Hl. by right. }
  split; [done|]. split; [by auto|]. split; [|split].
  - intros q [->|Hq]%elem_of_cons Hc; [by auto | by apply Hp2].
  - intros Hne.
    destruct (decide (t_black (territoryStep size b acc p).1 = t_black acc.1)) as [Heq|?];
      [rewrite <- Heq in Hne|]; auto.
  - intros Hne.
    destruct (decide (t_white (territoryStep size b acc p).1 = t_white acc.1)) as [Heq|?];
      [rewrite <- Heq in Hne|]; auto.
Qed.

End region_facts.

Lemma cell_in_concat size (b : Board) (p : Point) v :
  wf_board size b → p ∈ allPoints size → getCell b p.1 p.2 = Some v → v ∈ concat b.
Proof.
  intros Hwf Hp Hcell.
  assert (Some v ∈ Some <$> concat b) as Hin.
  { rewrite <- (cells_allPoints size b Hwf), <- Hcell.
    by apply (list_elem_of_fmap_2 (λ p : Point, getCell b p.1 p.2)). }
  apply list_elem_of_fmap in Hin as (w & [= <-] & Hw). exact Hw.
Qed.

Lemma length_filter_cells (b : Board) (l : list Point) (k : list Z) c :
  (λ p : Point, getCell b p.1 p.2) <$> l = Some <$> k →
  length (filter (λ p : Point, getCell b p.1 p.2 = Some c) l) =
  length (filter (λ v, v = c) k).
Proof.
  revert k. induction l as [|p l IH]; intros [|v k]; try done.
  csimpl. intros [= Hp Hl]. rewrite !filter_cons, Hp.
  repeat case_decide; simplify_eq; simpl; by rewrite (IH k Hl).
Qed.

Lemma calculateTerritory_neutral_nonneg size (b : Board) :
  0 ≤ t_neutral (calculateTerritory size b).
Proof.
  unfold calculateTerritory.
  apply (foldl_invariant (λ acc : Territory * list Point, 0 ≤ t_neutral acc.1)); [|done].
  intros [t v] p Hn; simpl in *. unfold territoryStep.
  repeat case_match; simpl; lia.
Qed.

(** The three counts add up to the number of empty cells. *)
Lemma calculateTerritory_sum size (b : Board) :
  wf_board size b →
  (∀ v, v ∈ concat b → v = EMPTY ∨ v = BLACK ∨ v = WHITE) →
  t_black (calculateTerritory size b) + t_white (calculateTerritory size b)
  + t_neutral (calculateTerritory size b) = stonesOnBoard EMPTY b.
Proof.
  intros Hwf.
  destruct (territory_scan size b (allPoints size) (mkTerritory 0 0 0, []))
    as ((Hok & Hopen & Hsum) & _ & Hcover & _).
  { split; [split; [apply NoDup_nil_2 | by intros ? ?%elem_of_nil]|].
    split; [by intros ? ?%elem_of_nil | done]. }
  { done. }
  unfold calculateTerritory.
  set (acc := foldl (territoryStep size b) (mkTerritory 0 0 0, []) (allPoints size)) in *.
  cbn [fst snd] in *.
  intros Hvals. rewrite Hsum. unfold stonesOnBoard. f_equal.
  rewrite <- (length_filter_cells b (allPoints size) (concat b) EMPTY)
    by (by apply cells_allPoints).
  apply Permutation_length, NoDup_Permutation.
  - apply Hok.
  - apply NoDup_filter, NoDup_allPoints.
  - intros p. rewrite list_elem_of_filter. split.
    + intros Hp. destruct Hok as [_ Hon]. specialize (Hon p Hp).
      apply elem_of_allPoints in Hon. split; [|done].
      destruct (Hopen p Hp) as [Hnb Hnw].
      assert (is_Some (getCell b p.1 p.2)) as [v Hv].
      { assert (getCell b p.1 p.2 ∈ Some <$> concat b) as Hin.
        { rewrite <- (cells_allPoints size b Hwf).
          by apply (list_elem_of_fmap_2 (λ p : Point, getCell b p.1 p.2)). }
        apply list_elem_of_fmap in Hin as (w & -> & _). by eexists. }
      rewrite Hv in *.
      destruct (Hvals v (cell_in_concat size b p v Hwf Hon Hv)) as [-> | [-> | ->]]; done.
    + intros [Hc Hp]. by apply Hcover.
Qed.

(** X11: on a grid of size rows of size cells the three counts of
    [calculateTerritory] are not negative; when every cell holds EMPTY,
    BLACK or WHITE they add up to the number of empty cells; on a grid
    without a black stone black's territory is 0, and on a grid without a
    white stone white's territory is 0. *)
Theorem calculateTerritory_counts_every_empty_point size b :
  wf_board size b →
  let t := calculateTerritory size b in
  (0 ≤ t_black t ∧ 0 ≤ t_white t ∧ 0 ≤ t_neutral t) ∧
  ((∀ v, v ∈ concat b → v = EMPTY ∨ v = BLACK ∨ v = WHITE) →
   t_black t + t_white t + t_neutral t = stonesOnBoard EMPTY b) ∧
  (BLACK ∉ concat b → t_black t = 0) ∧
  (WHITE ∉ concat b → t_white t = 0).
Proof.
  intros Hwf t.
  destruct (territory_scan size b (allPoints size) (mkTerritory 0 0 0, []))
    as ((Hok & Hopen & Hsum) & _ & Hcover & Hblack & Hwhite).
  { split; [split; [apply NoDup_nil_2 | by intros ? ?%elem_of_nil]|].
    split; [by intros ? ?%elem_of_nil | done]. }
  { done. }
  set (acc := foldl (territoryStep size b) (mkTerritory 0 0 0, []) (allPoints size)) in *.
  assert (t = acc.1) as Ht by done. cbn [fst snd] in *.
  split; [|split; [|split]].
  - pose proof (calculateTerritory_nonneg size b) as [? ?].
    pose proof (calculateTerritory_neutral_nonneg size b). done.
  - intros Hvals. rewrite Ht. by apply calculateTerritory_sum.
  - intros Hnone. rewrite Ht.
    destruct (decide (t_black acc.1 = 0)) as [?|Hne]; [done|].
    destruct (Hblack Hne) as (n & Hn & Hc). exfalso. apply Hnone.
    eapply cell_in_concat; [done| |done]. by apply elem_of_allPoints.
  - intros Hnone. rewrite Ht.
    destruct (decide (t_white acc.1 = 0)) as [?|Hne]; [done|].
    destruct (Hwhite Hne) as (n & Hn & Hc). exfalso. apply Hnone.
    eapply cell_in_concat; [done| |done]. by apply elem_of_allPoints.
Qed.

Lemma calculateTerritory_counts_every_empty_point_witness :
  wf_board 2 [[EMPTY; BLACK]; [EMPTY; EMPTY]] ∧
  let t := calculateTerritory 2 [[EMPTY; BLACK]; [EMPTY; EMPTY]] in
  t_black t + t_white t + t_neutral t = stonesOnBoard EMPTY [[EMPTY; BLACK]; [EMPTY; EMPTY]] ∧
  t_white t = 0.
Proof.
  assert (wf_board 2 [[EMPTY; BLACK]; [EMPTY; EMPTY]]) as Hwf.
  { split; [lia|]. split; [reflexivity|]. by repeat constructor. }
  split; [exact Hwf|].
  destruct (calculateTerritory_counts_every_empty_point 2 _ Hwf) as (_ & Hsum & _ & Hwhite).
  split.
  - apply Hsum. intros v Hv. apply list_elem_of_In in Hv. simpl in Hv.
    unfold EMPTY, BLACK, WHITE in *. intuition lia.
  - apply Hwhite. intros Hin. apply list_elem_of_In in Hin. simpl in Hin.
    unfold EMPTY, BLACK, WHITE in *. intuition lia.
Defined.

(** ** The grid stays a grid *)

Lemma elem_of_concat {A} (ls : list (list A)) (v : A) :
  v ∈ concat ls ↔ ∃ row, v ∈ row ∧ row ∈ ls.
Proof.
  rewrite list_elem_of_In, in_concat. split.
  - intros (row & Hrow & Hv). exists row. by rewrite !list_elem_of_In.
  - intros (row & Hv & Hrow). exists row. by rewrite <- !list_elem_of_In.
Qed.

Lemma elem_of_concat_setCell (b : Board) x y v w :
  w ∈ concat (setCell b x y v) → w = v ∨ w ∈ concat b.
Proof.
  unfold setCell. case_bool_decide; [|by right].
  intros (row' & Hw & Hrow')%elem_of_concat.
  apply list_elem_of_lookup in Hrow' as [i Hi].
  destruct (decide (i = Z.to_nat x)) as [->|Hne].
  - rewrite list_lookup_alter_eq in Hi.
    destruct (b !! Z.to_nat x) as [row|] eqn:Hrow; [|done]. simpl in Hi.
    injection Hi as <-.
    apply list_elem_of_lookup in Hw as [j Hj].
    apply list_lookup_insert_Some in Hj as [(_ & -> & _)|[_ Hj]]; [by left|].
    right. apply elem_of_concat. exists row.
    split; [by eapply list_elem_of_lookup_2 | by eapply list_elem_of_lookup_2].
  - rewrite list_lookup_alter_ne in Hi by done.
    right. apply elem_of_concat. exists row'.
    split; [done | by eapply list_elem_of_lookup_2].
Qed.

Lemma valid_grid_setCell size (b : Board) x y v :
  valid_grid size b → v = EMPTY ∨ v = BLACK ∨ v = WHITE →
  valid_grid size (setCell b x y v).
Proof.
  intros [(Hn & Hlen & Hrows) Hvals] Hv. split; [split; [done|split]|].
  - unfold setCell. case_bool_decide; [|done]. by rewrite length_alter.
  - unfold setCell. case_bool_decide; [|done].
    apply Forall_lookup. intros i row' Hi.
    destruct (decide (i = Z.to_nat x)) as [->|Hne].
    + rewrite list_lookup_alter_eq in Hi.
      destruct (b !! Z.to_nat x) as [row|] eqn:Hrow; [|done]. simpl in Hi.
      injection Hi as <-. rewrite length_insert.
      by eapply (Forall_lookup_1 _ _ _ _ Hrows).
    + rewrite list_lookup_alter_ne in Hi by done.
      by eapply (Forall_lookup_1 _ _ _ _ Hrows).
  - intros w [->|Hw]%elem_of_concat_setCell; auto.
Qed.

Lemma valid_grid_clearStones size (b : Board) l :
  valid_grid size b → valid_grid size (clearStones b l).
Proof.
  revert b. induction l as [|c l IH]; intros b Hb; [done|].
  apply (IH (setCell b c.1 c.2 EMPTY)), valid_grid_setCell; auto.
Qed.

Lemma valid_grid_replicate size :
  0 ≤ size → valid_grid size (replicate (Z.to_nat size) (replicate (Z.to_nat size) EMPTY)).
Proof.
  intros Hn. split; [split; [done|split]|].
  - by rewrite length_replicate.
  - apply Forall_replicate. by rewrite length_replicate.
  - intros v (row & Hv & ->%elem_of_replicate_inv)%elem_of_concat.
    apply elem_of_replicate_inv in Hv. auto.
Qed.

Lemma Forall_removelast {A} (P : A → Prop) (l : list A) :
  Forall P l → Forall P (removelast l).
Proof.
  destruct l as [|x l _] using rev_ind; [done|].
  rewrite removelast_last. by intros [? _]%Forall_app.
Qed.

(** X12: a new game has a valid grid (size rows of size cells, each EMPTY,
    BLACK or WHITE) in the engine and in every snapshot, and [makeMove] of
    BLACK or WHITE, [pass] and [undoMove] keep it so. *)
Theorem engine_keeps_a_valid_grid e :
  (∀ size, 0 ≤ size → engine_grids_ok (init size)) ∧
  (engine_grids_ok e →
   (∀ x y player, player = BLACK ∨ player = WHITE →
                  engine_grids_ok (makeMove e x y player).2) ∧
   engine_grids_ok (pass e).2 ∧
   engine_grids_ok (undoMove e).2).
Proof.
  split.
  { intros n Hn. unfold init. rewrite saveBoardState_unfold.
    split; simpl; [by apply valid_grid_replicate|].
    apply Forall_singleton. by apply valid_grid_replicate. }
  intros [Hgrid Hsnaps]. split; [|split].
  - intros x y player Hplayer.
    destruct (is_valid (isValidMove e x y player).1) eqn:Hv;
      [|by rewrite makeMove_invalid].
    destruct (makeMove_valid_unfold e x y player Hv) as (_ & Hsize & Hboard & _).
    destruct (makeMove_valid_shape e x y player Hv) as (e7 & c & Hmove & _ & _ & Hb & _).
    assert (valid_grid (size e) (board (makeMove e x y player).2)) as Hnew.
    { rewrite Hboard. apply valid_grid_clearStones, valid_grid_setCell; [done|].
      destruct Hplayer as [-> | ->]; auto. }
    split; rewrite Hsize; [done|].
    rewrite Hmove in Hnew |- *. rewrite saveBoardState_unfold in Hnew |- *.
    simpl in *. rewrite Hb. apply Forall_app. split; [done|].
    by apply Forall_singleton.
  - rewrite pass_unfold. unfold passed_engine. rewrite saveBoardState_unfold.
    split; simpl; [done|]. apply Forall_app. split; [done|].
    by apply Forall_singleton.
  - unfold undoMove. case_bool_decide; [done|]. simpl.
    pose proof (Forall_removelast _ _ Hsnaps) as Hpopped.
    destruct (last (removelast (boardHistory e))) as [prev|] eqn:Hlast; simpl.
    + split; simpl; [|done]. rewrite copyBoard_id.
      apply last_Some in Hlast as [h Hh]. rewrite Hh in Hpopped.
      rewrite Forall_app, Forall_singleton in Hpopped. by destruct Hpopped.
    + by split.
Qed.

Lemma engine_keeps_a_valid_grid_witness :
  engine_grids_ok (init 19) ∧ engine_grids_ok (makeMove (init 19) 3 3 BLACK).2.
Proof.
  assert (engine_grids_ok (init 19)) as Hinit
    by (apply (proj1 (engine_keeps_a_valid_grid (init 19))); lia).
  split; [exact Hinit|].
  apply (proj1 (proj2 (engine_keeps_a_valid_grid (init 19)) Hinit)). by left.
Defined.

(** ** The easy tier, in general *)

Lemma findCaptureMoves_filter e validMoves color :
  findCaptureMoves e validMoves color = (List.filter (capturesAt e color) validMoves, e).
Proof.
  unfold findCaptureMoves.
  induction validMoves as [|m l IH] using rev_ind; [done|].
  rewrite foldl_snoc, IH, List.filter_app. cbn [List.filter fst snd].
  assert (capturesAt e color m =
          match (isValidMove e m.1 m.2 color).1 with
          | Valid captured => bool_decide (0 < length captured)%nat
          | Invalid _ => false
          end) as -> by done.
  split_isValidMove e m.1 m.2 color v.
  destruct v as [|caps]; [by rewrite app_nil_r|].
  case_bool_decide; by rewrite ?app_nil_r.
Qed.

Lemma filterSafeMoves_filter e validMoves color :
  filterSafeMoves e validMoves color = (List.filter (safeAt e color) validMoves, e).
Proof.
  unfold filterSafeMoves.
  induction validMoves as [|m l IH] using rev_ind; [done|].
  rewrite foldl_snoc, IH, List.filter_app. cbn [List.filter fst snd size board set_board].
  assert (safeAt e color m =
          bool_decide
            (2 ≤ length (liberties (getGroup (size e) (setCell (board e) m.1 m.2 color)
                                             m.1 m.2)))%nat) as -> by done.
  rewrite copyBoard_id. f_equal; [|by destruct e].
  case_bool_decide; by rewrite ?app_nil_r.
Qed.

Lemma Qfloor_scaled_index r (n : nat) :
  (0 <= r)%Q → (r < 1)%Q → (0 < n)%nat →
  0 ≤ Qfloor (r * inject_Z (Z.of_nat n)) < Z.of_nat n.
Proof.
  intros H0 H1 Hn.
  set (q := (r * inject_Z (Z.of_nat n))%Q).
  assert (0 < inject_Z (Z.of_nat n))%Q as Hpos.
  { change 0%Q with (inject_Z 0). rewrite <- Zlt_Qlt. lia. }
  assert (0 <= q)%Q as Hq0.
  { apply Qmult_le_0_compat; [done | by apply Qlt_le_weak]. }
  assert (q < inject_Z (Z.of_nat n))%Q as Hq1.
  { unfold q. rewrite <- (Qmult_1_l (inject_Z (Z.of_nat n))) at 2.
    by apply Qmult_lt_compat_r. }
  pose proof (Qfloor_le q) as Hle. pose proof (Qlt_floor q) as Hlt.
  assert (inject_Z 0 < inject_Z (Qfloor q + 1))%Q as Hlow by (eapply Qle_lt_trans; eauto).
  assert (inject_Z (Qfloor q) < inject_Z (Z.of_nat n))%Q as Hup
    by (eapply Qle_lt_trans; eauto).
  rewrite <- Zlt_Qlt in Hlow, Hup. lia.
Qed.

Lemma pickRandom_member r (moves : list Point) :
  (0 <= r)%Q → (r < 1)%Q → moves ≠ [] →
  ∃ m, pickRandom r moves = Some m ∧ m ∈ moves.
Proof.
  intros H0 H1 Hne. unfold pickRandom.
  assert (0 < length moves)%nat as Hlen by (destruct moves; [done | simpl; lia]).
  pose proof (Qfloor_scaled_index r (length moves) H0 H1 Hlen) as [Hi0 Hi1].
  rewrite bool_decide_true by done.
  destruct (lookup_lt_is_Some_2 moves (Z.to_nat (Qfloor (r * inject_Z (Z.of_nat (length moves))))))
    as [m Hm]; [lia|].
  exists m. split; [done | by eapply list_elem_of_lookup_2].
Qed.

Lemma filter_nonempty_length {A} (f : A → bool) (l : list A) :
  bool_decide (0 < length (List.filter f l))%nat = true ↔ ∃ x, x ∈ l ∧ f x = true.
Proof.
  rewrite bool_decide_eq_true. split.
  - destruct (List.filter f l) as [|x k] eqn:Hf; simpl; [lia|]. intros _.
    exists x. rewrite list_elem_of_In. apply filter_In. rewrite Hf. by left.
  - intros (x & Hx & Hfx).
    assert (In x (List.filter f l)) as Hin by (apply filter_In; by rewrite <- list_elem_of_In).
    destruct (List.filter f l); [done | simpl; lia].
Qed.

(** X13: for a random draw in [0,1), [getMove] of the easy tier leaves the
    engine as it was, returns no move exactly when the colour has no legal
    move, and otherwise returns a legal move; the move captures whenever
    some legal move captures, and when no move captures it is safe (its
    group has two liberties or more once the stone is placed) whenever some
    legal move is. *)
Theorem getMove_easy_returns_a_legal_move e color r :
  (0 <= r)%Q → (r < 1)%Q →
  (getMove_easy e color r).2 = e ∧
  ((getMove_easy e color r).1 = None ↔
   ∀ p : Point, is_valid (isValidMove e p.1 p.2 color).1 = false) ∧
  (∀ m : Point, (getMove_easy e color r).1 = Some m →
     is_valid (isValidMove e m.1 m.2 color).1 = true ∧
     ((∃ p : Point, is_valid (isValidMove e p.1 p.2 color).1 = true ∧
                    capturesAt e color p = true) →
      capturesAt e color m = true) ∧
     ((∀ p : Point, capturesAt e color p = false) →
      (∃ p : Point, is_valid (isValidMove e p.1 p.2 color).1 = true ∧
                    safeAt e color p = true) →
      safeAt e color m = true)).
Proof.
  intros H0 H1. unfold getMove_easy.
  pose proof (getAllValidMoves_state e color) as Hst.
  assert (∀ p : Point, p ∈ (getAllValidMoves e color).1 ↔
                       is_valid (isValidMove e p.1 p.2 color).1 = true) as Hmem.
  { intros p. unfold getAllValidMoves. rewrite getAllValidMoves_filter. simpl.
    rewrite list_elem_of_In, filter_In, <- list_elem_of_In, elem_of_allPoints.
    split; [tauto|]. intros Hv. split; [|done].
    by destruct (isValidMove_valid_inv e p.1 p.2 color Hv). }
  destruct (getAllValidMoves e color) as [validMoves e1]. simpl in Hst, Hmem. subst e1.
  destruct validMoves as [|m0 l] eqn:Hvm.
  { simpl. split; [done|]. split; [|done]. split; [|done].
    intros _ p. destruct (is_valid _) eqn:Hv; [|done].
    apply Hmem in Hv. by apply elem_of_nil in Hv. }
  rewrite <- Hvm in *. assert (validMoves ≠ []) as Hne by (by rewrite Hvm).
  rewrite bool_decide_false by (rewrite Hvm; simpl; lia).
  unfold getEasyMove. rewrite findCaptureMoves_filter, filterSafeMoves_filter.
  set (caps := List.filter (capturesAt e color) validMoves).
  set (safe := List.filter (safeAt e color) validMoves).
  assert (∀ (f : Point → bool) (m : Point),
            m ∈ List.filter f validMoves → m ∈ validMoves ∧ f m = true) as Hfilter.
  { intros f m. rewrite list_elem_of_In, filter_In, <- list_elem_of_In. tauto. }
  destruct (bool_decide (0 < length caps)%nat) eqn:Hcaps.
  - destruct (pickRandom_member r caps H0 H1) as (m & Hpick & Hm).
    { intros Hnil. rewrite Hnil in Hcaps. apply bool_decide_eq_true in Hcaps.
      simpl in Hcaps. lia. }
    rewrite Hpick. simpl. split; [done|]. split; [split; [done|] |].
    { intros Hnone. specialize (Hnone m0). assert (m0 ∈ validMoves) as Hin
        by (rewrite Hvm; by left). apply Hmem in Hin. congruence. }
    intros m' [= <-]. destruct (Hfilter _ _ Hm) as [Hin Hc].
    split; [by apply Hmem|]. split; [done|].
    intros Hnocap. by rewrite Hnocap in Hc.
  - assert (∀ p : Point, p ∈ validMoves → capturesAt e color p = false) as Hnocaps.
    { intros p Hp. destruct (capturesAt e color p) eqn:Hc; [|done].
      assert (bool_decide (0 < length caps)%nat = true) as Habs
        by (apply filter_nonempty_length; eauto). congruence. }
    destruct (bool_decide (0 < length safe)%nat) eqn:Hsafe.
    + destruct (pickRandom_member r safe H0 H1) as (m & Hpick & Hm).
      { intros Hnil. rewrite Hnil in Hsafe. apply bool_decide_eq_true in Hsafe.
        simpl in Hsafe. lia. }
      rewrite Hpick. simpl. split; [done|]. split; [split; [done|] |].
      { intros Hnone. specialize (Hnone m0). assert (m0 ∈ validMoves) as Hin
          by (rewrite Hvm; by left). apply Hmem in Hin. congruence. }
      intros m' [= <-]. destruct (Hfilter _ _ Hm) as [Hin Hs].
      split; [by apply Hmem|]. split; [|done].
      intros (p & Hp%Hmem & Hc). rewrite Hnocaps in Hc; done.
    + destruct (pickRandom_member r validMoves H0 H1 Hne) as (m & Hpick & Hm).
      rewrite Hpick. simpl. split; [done|]. split; [split; [done|] |].
      { intros Hnone. specialize (Hnone m0). assert (m0 ∈ validMoves) as Hin
          by (rewrite Hvm; by left). apply Hmem in Hin. congruence. }
      intros m' [= <-]. split; [by apply Hmem|]. split.
      * intros (p & Hp%Hmem & Hc). rewrite Hnocaps in Hc; done.
      * intros _ (p & Hp%Hmem & Hs).
        assert (bool_decide (0 < length safe)%nat = true) as Habs
          by (apply filter_nonempty_length; eauto). congruence.
Qed.

Lemma getMove_easy_returns_a_legal_move_witness :
  (0 <= 1 # 3)%Q ∧ (1 # 3 < 1)%Q ∧
  (getMove_easy corner_game BLACK (1 # 3)).2 = corner_game ∧
  (getMove_easy corner_game BLACK (1 # 3)).1 = Some (1, 1) ∧
  capturesAt corner_game BLACK (1, 1) = true.
Proof.
  assert (0 <= 1 # 3)%Q as H0 by done. assert (1 # 3 < 1)%Q as H1 by done.
  destruct (getMove_easy_returns_a_legal_move corner_game BLACK (1 # 3) H0 H1)
    as (Hst & _ & Hsome).
  assert ((getMove_easy corner_game BLACK (1 # 3)).1 = Some (1, 1)) as Hm
    by (vm_compute; reflexivity).
  split; [exact H0|]. split; [exact H1|]. split; [exact Hst|]. split; [exact Hm|].
  destruct (Hsome (1, 1) Hm) as (_ & Hcap & _). apply Hcap.
  exists (1, 1). split; vm_compute; reflexivity.
Defined.

(** ** The playouts *)

Lemma count_setCell_outside (b : Board) (p : Point) v c (l : list Point) :
  p ∉ l →
  length (List.filter (λ q : Point, bool_decide (getCell (setCell b p.1 p.2 v) q.1 q.2 = Some c)) l)
  = length (List.filter (λ q : Point, bool_decide (getCell b q.1 q.2 = Some c)) l).
Proof.
  induction l as [|q l IH]; [done|]. intros Hnotin.
  apply not_elem_of_cons in Hnotin as [Hne Hnotin]. simpl.
  rewrite getCell_setCell_ne by (destruct p, q; simpl; congruence).
  destruct (bool_decide _); simpl; by rewrite IH.
Qed.

Lemma count_setCell_inside (b : Board) (p : Point) old v c (l : list Point) :
  NoDup l → p ∈ l → getCell b p.1 p.2 = Some old →
  (length (List.filter (λ q : Point, bool_decide (getCell (setCell b p.1 p.2 v) q.1 q.2 = Some c)) l)
   + (if bool_decide (old = c) then 1 else 0)
   = length (List.filter (λ q : Point, bool_decide (getCell b q.1 q.2 = Some c)) l)
     + (if bool_decide (v = c) then 1 else 0))%nat.
Proof.
  intros Hnd Hin Hold. induction Hnd as [|q l Hq Hnd IH]; [by apply elem_of_nil in Hin|].
  apply elem_of_cons in Hin as [<-|Hin]; simpl.
  - rewrite getCell_setCell_eq by (by rewrite Hold). rewrite Hold.
    pose proof (count_setCell_outside b p v c l Hq) as Hout.
    rewrite (bool_decide_ext (Some v = Some c) (v = c)) by (split; congruence).
    rewrite (bool_decide_ext (Some old = Some c) (old = c)) by (split; congruence).
    do 2 case_bool_decide; simpl; lia.
  - assert (q ≠ p) as Hne by (intros ->; done).
    rewrite getCell_setCell_ne by (destruct p, q; simpl; congruence).
    specialize (IH Hin). destruct (bool_decide (getCell b q.1 q.2 = Some c)); simpl; lia.
Qed.

(** Putting a stone on an empty cell of the grid changes the counts in one
    way, whichever cell it is. *)
Lemma same_counts_place size b1 b2 (m1 m2 : Point) color :
  same_counts size b1 b2 →
  m1 ∈ allPoints size → getCell b1 m1.1 m1.2 = Some EMPTY →
  m2 ∈ allPoints size → getCell b2 m2.1 m2.2 = Some EMPTY →
  same_counts size (setCell b1 m1.1 m1.2 color) (setCell b2 m2.1 m2.2 color).
Proof.
  intros Hsame Hm1 Hc1 Hm2 Hc2 c. unfold cellCount.
  pose proof (count_setCell_inside b1 m1 EMPTY color c (allPoints size)
                (NoDup_allPoints size) Hm1 Hc1) as H1.
  pose proof (count_setCell_inside b2 m2 EMPTY color c (allPoints size)
                (NoDup_allPoints size) Hm2 Hc2) as H2.
  specialize (Hsame c). unfold cellCount in Hsame. lia.
Qed.

Lemma simpleScore_counts size b aiColor :
  simpleScore size b aiColor =
  Z.of_nat (cellCount size b aiColor) - Z.of_nat (cellCount size b (getOpponent aiColor)).
Proof.
  unfold simpleScore, cellCount.
  assert (∀ l acc,
    foldl (λ (acc : Z * Z) (p : Point),
             if bool_decide (getCell b p.1 p.2 = Some aiColor) then (acc.1 + 1, acc.2)
             else if bool_decide (getCell b p.1 p.2 = Some (getOpponent aiColor))
                  then (acc.1, acc.2 + 1)
                  else acc) acc l
    = (acc.1 + Z.of_nat (length (List.filter
                          (λ p : Point, bool_decide (getCell b p.1 p.2 = Some aiColor)) l)),
       acc.2 + Z.of_nat (length (List.filter
                          (λ p : Point, bool_decide (getCell b p.1 p.2
                                                     = Some (getOpponent aiColor))) l))))
    as Hfold.
  { induction l as [|p l IH]; intros [a c]; simpl; [f_equal; lia|].
    rewrite IH. pose proof (getOpponent_ne aiColor).
    repeat case_bool_decide; simplify_eq; simpl; f_equal; lia. }
  rewrite Hfold. simpl. lia.
Qed.

Lemma getSimValidMoves_empty size b color (m : Point) :
  m ∈ getSimValidMoves size b color →
  m ∈ allPoints size ∧ getCell b m.1 m.2 = Some EMPTY.
Proof.
  unfold getSimValidMoves.
  rewrite list_elem_of_In, filter_In, <- list_elem_of_In, bool_decide_eq_true. tauto.
Qed.

Lemma simLoop_same_counts size rand1 rand2 remaining :
  (∀ k, (0 <= rand1 k)%Q ∧ (rand1 k < 1)%Q) →
  (∀ k, (0 <= rand2 k)%Q ∧ (rand2 k < 1)%Q) →
  ∀ b1 b2 color passCount d1 d2,
    same_counts size b1 b2 →
    ∃ f1 f2,
      simLoop remaining size rand1 b1 color passCount d1 = Some f1 ∧
      simLoop remaining size rand2 b2 color passCount d2 = Some f2 ∧
      same_counts size f1 f2.
Proof.
  intros Hr1 Hr2. induction remaining as [|remaining IH];
    intros b1 b2 color passCount d1 d2 Hsame; simpl; [by eauto|].
  case_bool_decide; [|by eauto].
  assert (length (getSimValidMoves size b1 color) = length (getSimValidMoves size b2 color))
    as Hlen by apply (Hsame EMPTY).
  rewrite <- Hlen.
  case_bool_decide as Hnone; [by apply IH|].
  destruct (pickRandom_member (rand1 d1) (getSimValidMoves size b1 color))
    as (m1 & -> & [Hm1 Hc1]%getSimValidMoves_empty); [apply Hr1..| |].
  { intros Hnil. by rewrite Hnil in Hnone. }
  destruct (pickRandom_member (rand2 d2) (getSimValidMoves size b2 color))
    as (m2 & -> & [Hm2 Hc2]%getSimValidMoves_empty); [apply Hr2..| |].
  { intros Hnil. rewrite Hlen, Hnil in Hnone. done. }
  apply IH. by apply same_counts_place.
Qed.

(** X14: the verdict of a playout does not depend on the numbers it draws
    nor on the first move: from the same grid, for any two empty points of
    the grid as first move and any two sources of random numbers in [0,1),
    [simulateGame] ends and returns the same answer (the playout fills
    empty cells in turn and never removes a stone). *)
Theorem simulateGame_ignores_the_random_source size b (move1 move2 : Point) aiColor
        (rand1 rand2 : nat → Q) :
  (∀ k, (0 <= rand1 k)%Q ∧ (rand1 k < 1)%Q) →
  (∀ k, (0 <= rand2 k)%Q ∧ (rand2 k < 1)%Q) →
  isOnBoard size move1.1 move1.2 = true → getCell b move1.1 move1.2 = Some EMPTY →
  isOnBoard size move2.1 move2.2 = true → getCell b move2.1 move2.2 = Some EMPTY →
  ∃ win : bool,
    simulateGame size b move1 aiColor rand1 = Some win ∧
    simulateGame size b move2 aiColor rand2 = Some win.
Proof.
  intros Hr1 Hr2 Hon1 Hc1 Hon2 Hc2. unfold simulateGame. rewrite !copyBoard_id.
  destruct (simLoop_same_counts size rand1 rand2 maxMoves Hr1 Hr2
              (setCell b move1.1 move1.2 aiColor) (setCell b move2.1 move2.2 aiColor)
              (getOpponent aiColor) 0 0%nat 0%nat) as (f1 & f2 & -> & -> & Hsame).
  { apply same_counts_place; [done | by apply elem_of_allPoints | done
                              | by apply elem_of_allPoints | done]. }
  eexists. split; [reflexivity|].
  by rewrite !simpleScore_counts, !Hsame.
Qed.

Lemma simulateGame_ignores_the_random_source_witness :
  ∃ win : bool,
    simulateGame 19 (board (init 19)) (3, 3) BLACK (λ _, 0%Q) = Some win ∧
    simulateGame 19 (board (init 19)) (15, 16) BLACK (λ k, 1 - 1 # Pos.of_nat (k + 2))%Q
    = Some win.
Proof.
  apply (simulateGame_ignores_the_random_source 19 (board (init 19)) (3, 3) (15, 16));
    try reflexivity.
  - intros k. split; done.
  - intros k. split.
    + apply (proj2 (Qle_minus_iff _ _)). unfold Qle. simpl. lia.
    + apply (proj2 (Qlt_minus_iff _ _)). unfold Qlt. simpl. lia.
Defined.

(** ** The stones that a move takes *)

(** X21: [getCapturedStones] returns exactly the stones of the groups of the
    opponent that touch the point played and have no liberty on the grid it
    is given: a position is returned if and only if it is joined by a chain
    of opponent stones to a neighbour of the point that holds an opponent
    stone, and no stone of that chain has an empty neighbour. *)
Theorem getCapturedStones_takes_the_dead_groups size b x y player (q : Point) :
  q ∈ getCapturedStones size b x y player ↔
  ∃ n : Point,
    n ∈ getNeighbors size x y ∧
    getCell b n.1 n.2 = Some (getOpponent player) ∧
    chain size b (Some (getOpponent player)) n q ∧
    ∀ s l : Point, chain size b (Some (getOpponent player)) n s →
                   l ∈ getNeighbors size s.1 s.2 → getCell b l.1 l.2 ≠ Some EMPTY.
Proof.
  rewrite getCapturedStones_bind, list_elem_of_bind.
  split.
  - intros (n & Hq & Hn). exists n. unfold capturedVia in Hq.
    case_bool_decide as Hcell; [|by apply elem_of_nil in Hq].
    cbv zeta in Hq. case_bool_decide as Hdead; [|by apply elem_of_nil in Hq].
    assert (getCell b n.1 n.2 ≠ Some EMPTY) as Hstone.
    { rewrite Hcell. intros [= Hopp]. by apply (getOpponent_not_empty player). }
    destruct (getGroup_exact size b n.1 n.2 Hstone) as [Hstones Hlibs].
    rewrite Hcell in Hstones. destruct n as [nx ny]; cbn [fst snd] in *.
    split; [done|]. split; [done|]. split; [by apply Hstones|].
    intros s l Hs Hl Hempty.
    assert (l ∈ liberties (getGroup size b nx ny)) as Hin.
    { apply Hlibs. split; [done|]. exists s. split; [by apply Hstones|done]. }
    destruct (liberties (getGroup size b nx ny)); [by apply elem_of_nil in Hin|done].
  - intros (n & Hn & Hcell & Hq & Hdead). exists n. split; [|done].
    assert (getCell b n.1 n.2 ≠ Some EMPTY) as Hstone.
    { rewrite Hcell. intros [= Hopp]. by apply (getOpponent_not_empty player). }
    destruct (getGroup_exact size b n.1 n.2 Hstone) as [Hstones Hlibs].
    rewrite Hcell in Hstones. destruct n as [nx ny]; cbn [fst snd] in *.
    unfold capturedVia. cbn [fst snd]. rewrite bool_decide_true by done. cbv zeta.
    rewrite bool_decide_true; [by apply Hstones|].
    destruct (liberties (getGroup size b nx ny)) as [|l ls] eqn:Hl; [done|].
    destruct (proj1 (Hlibs l)) as (Hempty & s & Hs & Hnb); [by left|].
    exfalso. apply (Hdead s l); [by apply Hstones|done|done].
Qed.

(** ** Regions of empty cells *)

Lemma getNeighbors_sym size x y (n : Point) :
  isOnBoard size x y = true → n ∈ getNeighbors size x y →
  (x, y) ∈ getNeighbors size n.1 n.2.
Proof.
  intros Hon [Hn Hcase]%elem_of_getNeighbors. apply elem_of_getNeighbors.
  split; [done|]. destruct n as [nx ny]. cbn [fst snd] in *.
  destruct Hcase as [[= -> ->] | [[= -> ->] | [[= -> ->] | [= -> ->]]]].
  - right; left. f_equal; lia.
  - left. f_equal; lia.
  - right; right; right. f_equal; lia.
  - right; right; left. f_equal; lia.
Qed.

Lemma chain_inv size b color (p q : Point) :
  chain size b color p q →
  q = p ∨ (isOnBoard size q.1 q.2 = true ∧ getCell b q.1 q.2 = color).
Proof.
  destruct 1 as [|q n _ Hn Hc]; [by left|]. right.
  split; [by eapply getNeighbors_onBoard | done].
Qed.

Lemma chain_trans size b color (p q s : Point) :
  chain size b color p q → chain size b color q s → chain size b color p s.
Proof. intros Hpq. induction 1; [done|]. by eapply chain_step. Qed.

Lemma chain_sym size b color (p q : Point) :
  isOnBoard size p.1 p.2 = true → getCell b p.1 p.2 = color →
  chain size b color p q → chain size b color q p.
Proof.
  intros Hon Hcell. induction 1 as [|q n Hpq IH Hn Hc]; [apply chain_here|].
  apply (chain_trans _ _ _ n q p); [|done].
  assert (isOnBoard size q.1 q.2 = true ∧ getCell b q.1 q.2 = color) as [Hq Hqc].
  { destruct (chain_inv _ _ _ _ _ Hpq) as [->|?]; done. }
  eapply chain_step; [apply chain_here| |done].
  destruct q as [qx qy]. by apply (getNeighbors_sym size qx qy n).
Qed.

(** Two cells of one region touch the same colours. *)
Lemma touches_chain size b (p q : Point) c :
  isOnBoard size p.1 p.2 = true → getCell b p.1 p.2 = Some EMPTY →
  chain size b (Some EMPTY) p q →
  touches size b q c ↔ touches size b p c.
Proof.
  intros Hon Hcell Hpq. split; intros (s & n & Hs & Hn & Hc); exists s, n.
  - split; [by eapply chain_trans | done].
  - split; [|done]. eapply chain_trans; [|done]. by apply chain_sym.
Qed.

Section fill_exactness.
Context (size : Z) (b : Board).
Hypothesis cells : ∀ n : Point, isOnBoard size n.1 n.2 = true →
  getCell b n.1 n.2 = Some EMPTY ∨ getCell b n.1 n.2 = Some BLACK ∨
  getCell b n.1 n.2 = Some WHITE.
Implicit Types (st : RegionLoop) (n p q : Point).

Lemma regionVisit_exact st n :
  isOnBoard size n.1 n.2 = true →
  let st' := regionVisit b st n in
  rl_region st' = rl_region st ∧
  (∀ q, q ∈ rl_visited st' ↔
        q ∈ rl_visited st ∨ (q = n ∧ getCell b q.1 q.2 = Some EMPTY)) ∧
  (rl_touchesBlack st' = true ↔
   rl_touchesBlack st = true ∨ getCell b n.1 n.2 = Some BLACK) ∧
  (rl_touchesWhite st' = true ↔
   rl_touchesWhite st = true ∨ getCell b n.1 n.2 = Some WHITE).
Proof.
  intros Hn. unfold regionVisit. cbv zeta.
  destruct (cells n Hn) as [Hc | [Hc | Hc]]; rewrite Hc.
  - rewrite !bool_decide_false by done.
    destruct (set_has n (rl_visited st)) eqn:Hhas; simpl.
    + apply set_has_true in Hhas.
      split; [done|]. split; [|split].
      * intros q. split; [by left|]. by intros [?|[-> _]].
      * split; [by left|]. by intros [?|?].
      * split; [by left|]. by intros [?|?].
    + split; [done|]. split; [|split].
      * intros q. rewrite elem_of_set_add. split.
        -- intros [->|?]; [by right | by left].
        -- intros [?|[-> _]]; [by right | by left].
      * split; [by left|]. by intros [?|?].
      * split; [by left|]. by intros [?|?].
  - rewrite bool_decide_true by done. simpl.
    split; [done|]. split; [|split].
    + intros q. split; [by left|]. intros [?|[-> He]]; [done|]. rewrite Hc in He. done.
    + split; [by right|done].
    + split; [by left|]. by intros [?|?].
  - rewrite bool_decide_false by done. rewrite bool_decide_true by done. simpl.
    split; [done|]. split; [|split].
    + intros q. split; [by left|]. intros [?|[-> He]]; [done|]. rewrite Hc in He. done.
    + split; [by left|]. by intros [?|?].
    + split; [by right|done].
Qed.

Lemma regionVisits_exact l st :
  (∀ n, n ∈ l → isOnBoard size n.1 n.2 = true) →
  let st' := foldl (regionVisit b) st l in
  rl_region st' = rl_region st ∧
  (∀ q, q ∈ rl_visited st' ↔
        q ∈ rl_visited st ∨ (q ∈ l ∧ getCell b q.1 q.2 = Some EMPTY)) ∧
  (rl_touchesBlack st' = true ↔
   rl_touchesBlack st = true ∨ ∃ n, n ∈ l ∧ getCell b n.1 n.2 = Some BLACK) ∧
  (rl_touchesWhite st' = true ↔
   rl_touchesWhite st = true ∨ ∃ n, n ∈ l ∧ getCell b n.1 n.2 = Some WHITE).
Proof.
  revert st. induction l as [|n l IH]; intros st Hl; simpl.
  - split; [done|]. split; [|split].
    + intros q. rewrite elem_of_nil. tauto.
    + split; [by left|]. intros [?|(n & ?%elem_of_nil & _)]; done.
    + split; [by left|]. intros [?|(n & ?%elem_of_nil & _)]; done.
  - destruct (IH (regionVisit b st n)) as (Hr & Hv & Hb & Hw).
    { intros m Hm. apply Hl. by right. }
    destruct (regionVisit_exact st n) as (Hr1 & Hv1 & Hb1 & Hw1).
    { apply Hl. by left. }
    split; [by rewrite Hr, Hr1|]. split; [|split].
    + intros q. rewrite Hv, Hv1, elem_of_cons. tauto.
    + rewrite Hb, Hb1. split.
      * intros [[?|?]|(m & ? & ?)]; [by left | right; exists n | right; exists m];
          (split; [|done]); [by left | by right].
      * intros [?|(m & [->|?]%elem_of_cons & ?)]; [by left; left | by left; right |].
        right. by exists m.
    + rewrite Hw, Hw1. split.
      * intros [[?|?]|(m & ? & ?)]; [by left | right; exists n | right; exists m];
          (split; [|done]); [by left | by right].
      * intros [?|(m & [->|?]%elem_of_cons & ?)]; [by left; left | by left; right |].
        right. by exists m.
Qed.

Lemma fill_exact_step earlier p st current rest :
  region_inv size earlier st → fill_exact size b earlier p st →
  rl_queue st = current :: rest →
  fill_exact size b earlier p
    (foldl (regionVisit b)
       (mkRegionLoop rest (rl_visited st) (rl_region st ++ [current])
                     (rl_touchesBlack st) (rl_touchesWhite st))
       (getNeighbors size current.1 current.2)).
Proof.
  intros [Hvis [Hnd Hon]] [Hpath Hclosed Hblack Hwhite] Hq.
  destruct (regionVisits_exact (getNeighbors size current.1 current.2)
              (mkRegionLoop rest (rl_visited st) (rl_region st ++ [current])
                            (rl_touchesBlack st) (rl_touchesWhite st)))
    as (Hr & Hv & Hb & Hw); [apply getNeighbors_onBoard|].
  cbn [rl_region rl_visited rl_touchesBlack rl_touchesWhite] in Hr, Hv, Hb, Hw.
  assert (chain size b (Some EMPTY) p current) as Hcur.
  { destruct (Hpath current) as [Hin|?]; [|exfalso|done].
    - rewrite Hvis, Hq. apply elem_of_app. right. apply elem_of_app. right. by left.
    - rewrite Hvis, Hq in Hnd. apply NoDup_app in Hnd as (_ & Hdisj & _).
      apply (Hdisj current Hin). apply elem_of_app. right. by left. }
  split.
  - intros q [Hq'|[Hq' Hc]]%Hv; [by apply Hpath|].
    right. by eapply chain_step.
  - intros s n. rewrite Hr.
    intros [Hin| ->%list_elem_of_singleton]%elem_of_app Hn Hc; apply Hv.
    + left. by eapply Hclosed.
    + by right.
  - rewrite Hb, Hblack, Hr. split.
    + intros [(s & n & Hs & Hn & Hc)|(n & Hn & Hc)].
      * exists s, n. split; [|done]. apply elem_of_app. by left.
      * exists current, n. split; [|done]. apply elem_of_app. right. by left.
    + intros (s & n & [Hs| ->%list_elem_of_singleton]%elem_of_app & Hn & Hc).
      * left. by exists s, n.
      * right. by exists n.
  - rewrite Hw, Hwhite, Hr. split.
    + intros [(s & n & Hs & Hn & Hc)|(n & Hn & Hc)].
      * exists s, n. split; [|done]. apply elem_of_app. by left.
      * exists current, n. split; [|done]. apply elem_of_app. right. by left.
    + intros (s & n & [Hs| ->%list_elem_of_singleton]%elem_of_app & Hn & Hc).
      * left. by exists s, n.
      * right. by exists n.
Qed.

Lemma fill_exact_regionLoop earlier p fuel st :
  region_inv size earlier st → fill_exact size b earlier p st →
  fill_exact size b earlier p (regionLoop fuel size b st).
Proof.
  revert st. induction fuel as [|fuel IH]; intros st Hinv Hex; simpl; [done|].
  destruct (rl_queue st) as [|current rest] eqn:Hq; [done|].
  apply IH; [|by apply fill_exact_step].
  apply regionVisits_inv; [apply getNeighbors_onBoard|].
  destruct Hinv as [Hv Hok]. split; simpl; [|done].
  by rewrite Hv, Hq, <- !(assoc_L (++)).
Qed.

End fill_exactness.

Section scan_exactness.
Context (size : Z) (b : Board).
Hypothesis cells : ∀ n : Point, isOnBoard size n.1 n.2 = true →
  getCell b n.1 n.2 = Some EMPTY ∨ getCell b n.1 n.2 = Some BLACK ∨
  getCell b n.1 n.2 = Some WHITE.
Implicit Types (st : RegionLoop) (n p q : Point).

(** The flood fill started at an empty cell [p] that no earlier fill has
    visited finds the region of [p] and what it touches. *)
Lemma fill_result visited p :
  visited_ok size visited →
  (∀ q, q ∈ visited → getCell b q.1 q.2 = Some EMPTY) →
  (∀ q n, q ∈ visited → n ∈ getNeighbors size q.1 q.2 →
          getCell b n.1 n.2 = Some EMPTY → n ∈ visited) →
  isOnBoard size p.1 p.2 = true → getCell b p.1 p.2 = Some EMPTY → p ∉ visited →
  let st := regionLoop (searchFuel size) size b
              (mkRegionLoop [p] (set_add p visited) [] false false) in
  rl_visited st = visited ++ rl_region st ∧
  visited_ok size (rl_visited st) ∧
  (∀ q, q ∈ rl_region st ↔ chain size b (Some EMPTY) p q) ∧
  (rl_touchesBlack st = true ↔ touches size b p BLACK) ∧
  (rl_touchesWhite st = true ↔ touches size b p WHITE).
Proof.
  intros Hok Hempty Hclosed Hp Hcell Hfresh.
  assert (set_has p visited = false) as Hhas.
  { destruct (set_has p visited) eqn:Hhas; [|done]. by apply set_has_true in Hhas. }
  set (st0 := mkRegionLoop [p] (set_add p visited) [] false false).
  intros st.
  pose proof (region_inv_start size visited p Hok Hp Hhas) as Hinv0. fold st0 in Hinv0.
  pose proof (regionLoop_inv size b visited (searchFuel size) st0 Hinv0) as [Hvis Hok'].
  fold st in Hvis, Hok'.
  assert (rl_queue st = []) as Hq.
  { apply (regionLoop_drains_from size b visited); [done|].
    unfold searchFuel. simpl. lia. }
  rewrite Hq, app_nil_r in Hvis.
  assert (fill_exact size b visited p st0) as Hex0.
  { split; cbn [st0 rl_visited rl_region rl_touchesBlack rl_touchesWhite].
    - intros q [->|Hq']%elem_of_set_add; [right; apply chain_here | by left].
    - by intros s n ?%elem_of_nil.
    - split; [done|]. by intros (s & n & ?%elem_of_nil & _).
    - split; [done|]. by intros (s & n & ?%elem_of_nil & _). }
  pose proof (fill_exact_regionLoop size b cells visited p (searchFuel size) st0 Hinv0 Hex0)
    as [Hpath Hclo Hblack Hwhite].
  fold st in Hpath, Hclo, Hblack, Hwhite.
  destruct (regionLoop_facts size b (searchFuel size) st0) as (Hmono & _).
  fold st in Hmono.
  assert (NoDup (visited ++ rl_region st)) as Hnd by (rewrite <- Hvis; apply Hok').
  apply NoDup_app in Hnd as (_ & Hdisj & _).
  assert (∀ q, q ∈ rl_region st ↔ chain size b (Some EMPTY) p q) as Hregion.
  { intros q. split.
    - intros Hq'. destruct (Hpath q) as [Hin|?]; [|exfalso; by apply (Hdisj q)|done].
      rewrite Hvis. apply elem_of_app. by right.
    - induction 1 as [|q n Hpq IH Hn Hc].
      + assert (p ∈ rl_visited st) as Hin.
        { apply Hmono. apply elem_of_set_add. by left. }
        rewrite Hvis in Hin. by apply elem_of_app in Hin as [?|?].
      + assert (n ∈ rl_visited st) as Hin by (by eapply Hclo).
        rewrite Hvis in Hin. apply elem_of_app in Hin as [Hin|?]; [exfalso|done].
        apply (Hdisj q); [|done].
        assert (isOnBoard size q.1 q.2 = true ∧ getCell b q.1 q.2 = Some EMPTY)
          as [Hqon Hqc].
        { destruct (chain_inv _ _ _ _ _ Hpq) as [->|?]; done. }
        apply (Hclosed n q Hin); [|done].
        destruct q as [qx qy]. by apply (getNeighbors_sym size qx qy n). }
  split; [done|]. split; [done|]. split; [done|]. split.
  - rewrite Hblack. unfold touches. split.
    + intros (s & n & Hs%Hregion & ?). by exists s, n.
    + intros (s & n & Hs%Hregion & ?). by exists s, n.
  - rewrite Hwhite. unfold touches. split.
    + intros (s & n & Hs%Hregion & ?). by exists s, n.
    + intros (s & n & Hs%Hregion & ?). by exists s, n.
Qed.

Lemma territoryStep_exact acc lb lw ln p :
  scan_exact size b acc lb lw ln → p ∈ allPoints size →
  ∃ lb' lw' ln',
    scan_exact size b (territoryStep size b acc p) lb' lw' ln' ∧
    (∀ q, q ∈ acc.2 → q ∈ (territoryStep size b acc p).2) ∧
    (getCell b p.1 p.2 = Some EMPTY → p ∈ (territoryStep size b acc p).2).
Proof.
  destruct acc as [t visited].
  intros Hscan Hp%elem_of_allPoints.
  pose proof Hscan as [Hperm Hb Hw Hn Hok Hempty Hclosed Hlb Hlw Hln].
  cbn [fst snd] in *.
  unfold territoryStep. cbv beta iota.
  destruct (decide (getCell b p.1 p.2 = Some EMPTY)) as [Hcell|Hcell];
    [|rewrite bool_decide_false by done; cbn [negb orb fst snd];
      exists lb, lw, ln; split; [done|]; split; done].
  rewrite bool_decide_true by done. cbn [negb orb].
  destruct (set_has p visited) eqn:Hhas.
  { apply set_has_true in Hhas. exists lb, lw, ln. split; [done|]. split; done. }
  assert (p ∉ visited) as Hfresh by (intros Hin%set_has_true; congruence).
  destruct (fill_result visited p Hok Hempty Hclosed Hp Hcell Hfresh)
    as (Hvis & Hok' & Hregion & Hblack & Hwhite).
  set (st := regionLoop (searchFuel size) size b
               (mkRegionLoop [p] (set_add p visited) [] false false)) in *.
  assert (∀ q, q ∈ rl_region st → getCell b q.1 q.2 = Some EMPTY) as Hrempty.
  { intros q Hq%Hregion. destruct (chain_inv _ _ _ _ _ Hq) as [->|[_ ?]]; done. }
  assert (∀ q c, q ∈ rl_region st → touches size b q c ↔ touches size b p c) as Hsame.
  { intros q c Hq%Hregion. by apply touches_chain. }
  assert (∀ q, q ∈ rl_visited st → getCell b q.1 q.2 = Some EMPTY) as Hempty'.
  { intros q. rewrite Hvis. intros [?|?]%elem_of_app; auto. }
  assert (∀ q n, q ∈ rl_visited st → n ∈ getNeighbors size q.1 q.2 →
                 getCell b n.1 n.2 = Some EMPTY → n ∈ rl_visited st) as Hclosed'.
  { intros q n. rewrite Hvis. intros [Hq|Hq]%elem_of_app Hnb Hc; apply elem_of_app.
    - left. by eapply Hclosed.
    - right. apply Hregion. eapply chain_step; [by apply Hregion|done..]. }
  assert (∀ q, q ∈ visited → q ∈ rl_visited st) as Hmono.
  { intros q Hq. rewrite Hvis. apply elem_of_app. by left. }
  assert (p ∈ rl_visited st) as Hpin.
  { rewrite Hvis. apply elem_of_app. right. apply Hregion, chain_here. }
  destruct (rl_touchesBlack st) eqn:Htb, (rl_touchesWhite st) eqn:Htw; cbn [andb negb].
  - (* both colours *)
    exists lb, lw, (ln ++ rl_region st). split; [|by split]. split; cbn [fst snd]; try done.
    + rewrite Hvis, Hperm. by rewrite <- !(assoc_L (++)).
    + cbn [t_black t_white t_neutral]. rewrite length_app. lia.
    + intros q [?|Hq]%elem_of_app; [by apply Hln|].
      rewrite !(Hsame q _ Hq), <- Hblack, <- Hwhite. done.
  - (* black only *)
    exists (lb ++ rl_region st), lw, ln. split; [|by split]. split; cbn [fst snd]; try done.
    + rewrite Hvis, Hperm. rewrite <- !(assoc_L (++)). f_equiv.
      rewrite (assoc_L (++) lw ln). apply Permutation_app_comm.
    + cbn [t_black t_white t_neutral]. rewrite length_app. lia.
    + intros q [?|Hq]%elem_of_app; [by apply Hlb|].
      rewrite !(Hsame q _ Hq), <- Hblack, <- Hwhite. done.
  - (* white only *)
    exists lb, (lw ++ rl_region st), ln. split; [|by split]. split; cbn [fst snd]; try done.
    + rewrite Hvis, Hperm. rewrite <- !(assoc_L (++)). do 2 f_equiv.
      apply Permutation_app_comm.
    + cbn [t_black t_white t_neutral]. rewrite length_app. lia.
    + intros q [?|Hq]%elem_of_app; [by apply Hlw|].
      rewrite !(Hsame q _ Hq), <- Hblack, <- Hwhite. done.
  - (* neither *)
    exists lb, lw, (ln ++ rl_region st). split; [|by split]. split; cbn [fst snd]; try done.
    + rewrite Hvis, Hperm. by rewrite <- !(assoc_L (++)).
    + cbn [t_black t_white t_neutral]. rewrite length_app. lia.
    + intros q [?|Hq]%elem_of_app; [by apply Hln|].
      rewrite !(Hsame q _ Hq), <- Hblack, <- Hwhite. done.
Qed.

Lemma territory_scan_exact l acc lb lw ln :
  scan_exact size b acc lb lw ln → (∀ p, p ∈ l → p ∈ allPoints size) →
  ∃ lb' lw' ln',
    scan_exact size b (foldl (territoryStep size b) acc l) lb' lw' ln' ∧
    (∀ q, q ∈ acc.2 → q ∈ (foldl (territoryStep size b) acc l).2) ∧
    (∀ p, p ∈ l → getCell b p.1 p.2 = Some EMPTY →
          p ∈ (foldl (territoryStep size b) acc l).2).
Proof.
  revert acc lb lw ln. induction l as [|p l IH]; intros acc lb lw ln Hscan Hl; simpl.
  { exists lb, lw, ln. split; [done|]. split; [done|]. by intros ? ?%elem_of_nil. }
  destruct (territoryStep_exact acc lb lw ln p Hscan) as (lb1 & lw1 & ln1 & H1 & Hm1 & Hp1).
  { apply Hl. by left. }
  destruct (IH _ lb1 lw1 ln1 H1) as (lb2 & lw2 & ln2 & H2 & Hm2 & Hp2).
  { intros q Hq. apply Hl. by right. }
  exists lb2, lw2, ln2. split; [done|]. split; [by auto|].
  intros q [->|Hq]%elem_of_cons Hc; [by auto | by apply Hp2].
Qed.

End scan_exactness.

Lemma valid_grid_cells size (b : Board) (n : Point) :
  valid_grid size b → isOnBoard size n.1 n.2 = true →
  getCell b n.1 n.2 = Some EMPTY ∨ getCell b n.1 n.2 = Some BLACK ∨
  getCell b n.1 n.2 = Some WHITE.
Proof.
  intros [Hwf Hvals] Hn%elem_of_allPoints.
  assert (is_Some (getCell b n.1 n.2)) as [v Hv].
  { assert (getCell b n.1 n.2 ∈ Some <$> concat b) as Hin.
    { rewrite <- (cells_allPoints size b Hwf).
      by apply (list_elem_of_fmap_2 (λ p : Point, getCell b p.1 p.2)). }
    apply list_elem_of_fmap in Hin as (w & -> & _). by eexists. }
  rewrite Hv.
  destruct (Hvals v (cell_in_concat size b n v Hwf Hn Hv)) as [-> | [-> | ->]]; auto.
Qed.

(** X22: on a valid grid [calculateTerritory] credits every region of empty
    cells to the one colour it touches: the empty cells of the grid split
    into three lists without repetition whose lengths are the three counts,
    the cells whose region has a black neighbour and no white one, those
    whose region has a white neighbour and no black one, and those whose
    region touches both colours or neither. *)
Theorem calculateTerritory_credits_each_region size b :
  valid_grid size b →
  ∃ lb lw ln : list Point,
    NoDup (lb ++ lw ++ ln) ∧
    t_black (calculateTerritory size b) = Z.of_nat (length lb) ∧
    t_white (calculateTerritory size b) = Z.of_nat (length lw) ∧
    t_neutral (calculateTerritory size b) = Z.of_nat (length ln) ∧
    ∀ p : Point,
      let empty := isOnBoard size p.1 p.2 = true ∧ getCell b p.1 p.2 = Some EMPTY in
      (p ∈ lb ↔ empty ∧ touches size b p BLACK ∧ ¬ touches size b p WHITE) ∧
      (p ∈ lw ↔ empty ∧ touches size b p WHITE ∧ ¬ touches size b p BLACK) ∧
      (p ∈ ln ↔ empty ∧ (touches size b p BLACK ↔ touches size b p WHITE)).
Proof.
  intros Hvalid.
  destruct (territory_scan_exact size b (λ n, valid_grid_cells size b n Hvalid)
              (allPoints size) (mkTerritory 0 0 0, []) [] [] [])
    as (lb & lw & ln & [Hperm Hb Hw Hn Hok Hempty _ Hlb Hlw Hln] & _ & Hcover).
  { split; cbn [fst snd]; try done.
    - split; [apply NoDup_nil_2 | by intros ? ?%elem_of_nil].
    - by intros ? ?%elem_of_nil.
    - by intros ? ? ?%elem_of_nil.
    - by intros ? ?%elem_of_nil.
    - by intros ? ?%elem_of_nil.
    - by intros ? ?%elem_of_nil. }
  { done. }
  unfold calculateTerritory.
  set (acc := foldl (territoryStep size b) (mkTerritory 0 0 0, []) (allPoints size)) in *.
  exists lb, lw, ln.
  split; [rewrite <- Hperm; apply Hok|]. split; [done|]. split; [done|]. split; [done|].
  intros p.
  set (empty := isOnBoard size p.1 p.2 = true ∧ getCell b p.1 p.2 = Some EMPTY).
  assert (∀ q, q ∈ lb ++ lw ++ ln → isOnBoard size q.1 q.2 = true ∧
                                    getCell b q.1 q.2 = Some EMPTY) as Hin.
  { intros q Hq. rewrite <- Hperm in Hq. split; [by apply Hok | by apply Hempty]. }
  assert (empty → p ∈ lb ∨ p ∈ lw ∨ p ∈ ln) as Hcases.
  { intros [Hon Hcell].
    assert (p ∈ acc.2) as Hp by (apply Hcover; [by apply elem_of_allPoints | done]).
    rewrite Hperm, !elem_of_app in Hp. tauto. }
  split; [|split].
  - split.
    + intros Hp. split; [|by apply Hlb]. apply Hin. rewrite !elem_of_app. tauto.
    + intros (He & Htb & Htw). destruct (Hcases He) as [?|[Hp|Hp]]; [done| |].
      * by destruct (Hlw p Hp).
      * exfalso. apply Htw. by apply (Hln p Hp).
  - split.
    + intros Hp. split; [|by apply Hlw]. apply Hin. rewrite !elem_of_app. tauto.
    + intros (He & Htw & Htb). destruct (Hcases He) as [Hp|[?|Hp]]; [|done|].
      * by destruct (Hlb p Hp).
      * exfalso. apply Htb. by apply (Hln p Hp).
  - split.
    + intros Hp. split; [|by apply Hln]. apply Hin. rewrite !elem_of_app. tauto.
    + intros (He & Hiff). destruct (Hcases He) as [Hp|[Hp|?]]; [| |done].
      * destruct (Hlb p Hp) as [Htb Htw]. exfalso. by apply Htw, Hiff.
      * destruct (Hlw p Hp) as [Htw Htb]. exfalso. by apply Htb, Hiff.
Qed.

Lemma calculateTerritory_credits_each_region_witness :
  valid_grid 2 [[EMPTY; BLACK]; [EMPTY; EMPTY]] ∧
  ∃ lb lw ln : list Point,
    t_black (calculateTerritory 2 [[EMPTY; BLACK]; [EMPTY; EMPTY]]) = Z.of_nat (length lb) ∧
    ∀ p : Point,
      p ∈ lb ↔ (isOnBoard 2 p.1 p.2 = true ∧
                getCell [[EMPTY; BLACK]; [EMPTY; EMPTY]] p.1 p.2 = Some EMPTY) ∧
               touches 2 [[EMPTY; BLACK]; [EMPTY; EMPTY]] p BLACK ∧
               ¬ touches 2 [[EMPTY; BLACK]; [EMPTY; EMPTY]] p WHITE.
Proof.
  assert (valid_grid 2 [[EMPTY; BLACK]; [EMPTY; EMPTY]]) as Hvalid.
  { split.
    - split; [lia|]. split; [reflexivity|]. by repeat constructor.
    - intros v Hv. apply list_elem_of_In in Hv. simpl in Hv.
      destruct Hv as [<-|[<-|[<-|[<-|[]]]]]; auto. }
  split; [exact Hvalid|].
  destruct (calculateTerritory_credits_each_region 2 _ Hvalid)
    as (lb & lw & ln & _ & Hb & _ & _ & Hsplit).
  exists lb, lw, ln. split; [exact Hb|].
  intros p. exact (proj1 (Hsplit p)).
Defined.

(** ** Area scoring *)

(** C7: on a grid of size rows of size cells each score is the stones of
    that colour on the grid plus the territory credited to it, plus the komi
    for white; when every cell holds EMPTY, BLACK or WHITE the territory
    credited to a colour is the number of empty points whose region of
    empty points touches that colour and not the other; the winner is the
    side with the strictly greater score and the margin is the absolute
    difference.  On a grid without an empty point black scores its stone
    count and white its stone count plus the komi.  The result depends on
    the size and the grid alone, not on the logs. *)
Theorem calculateScore_area_scoring e :
  wf_board (size e) (board e) →
  let s := calculateScore e in
  (sc_blackStones s = stonesOnBoard BLACK (board e) ∧
   sc_whiteStones s = stonesOnBoard WHITE (board e) ∧
   (sc_black s == inject_Z (sc_blackStones s) + inject_Z (sc_blackTerritory s))%Q ∧
   (sc_white s ==
      inject_Z (sc_whiteStones s) + inject_Z (sc_whiteTerritory s) + komi)%Q) ∧
  ((∀ v, v ∈ concat (board e) → v = EMPTY ∨ v = BLACK ∨ v = WHITE) →
   ∃ lb lw : list Point,
     NoDup lb ∧ NoDup lw ∧
     sc_blackTerritory s = Z.of_nat (length lb) ∧
     sc_whiteTerritory s = Z.of_nat (length lw) ∧
     ∀ p : Point,
       (p ∈ lb ↔
        (isOnBoard (size e) p.1 p.2 = true ∧ getCell (board e) p.1 p.2 = Some EMPTY) ∧
        touches (size e) (board e) p BLACK ∧ ¬ touches (size e) (board e) p WHITE) ∧
       (p ∈ lw ↔
        (isOnBoard (size e) p.1 p.2 = true ∧ getCell (board e) p.1 p.2 = Some EMPTY) ∧
        touches (size e) (board e) p WHITE ∧ ¬ touches (size e) (board e) p BLACK)) ∧
  ((sc_winner s = BLACK ↔ (sc_white s < sc_black s)%Q) ∧
   (sc_winner s = WHITE ↔ (sc_black s < sc_white s)%Q) ∧
   (sc_margin s == Qabs (sc_black s - sc_white s))%Q ∧
   ((sc_white s < sc_black s)%Q → (sc_margin s == sc_black s - sc_white s)%Q) ∧
   ((sc_black s < sc_white s)%Q → (sc_margin s == sc_white s - sc_black s)%Q)) ∧
  (EMPTY ∉ concat (board e) →
   (sc_black s == inject_Z (stonesOnBoard BLACK (board e)))%Q ∧
   (sc_white s == inject_Z (stonesOnBoard WHITE (board e)) + komi)%Q) ∧
  (∀ e', size e' = size e → board e' = board e → calculateScore e' = s).
Proof.
  intros Hwf s.
  destruct (score_fields e) as (Hb & Hw & Hbs & Hws & Hbt & Hwt & Hwin & Hmar).
  fold s in Hb, Hw, Hbs, Hws, Hbt, Hwt, Hwin, Hmar.
  rewrite (countStones_wf _ _ Hwf) in Hbs, Hws. simpl in Hbs, Hws.
  split; [|split; [|split; [|split]]].
  - repeat split; try done.
    + by rewrite Hb, inject_Z_plus.
    + by rewrite Hw, inject_Z_plus.
  - intros Hvals.
    assert (valid_grid (size e) (board e)) as Hvalid by (by split).
    destruct (territory_scan_exact (size e) (board e)
                (λ n, valid_grid_cells (size e) (board e) n Hvalid)
                (allPoints (size e)) (mkTerritory 0 0 0, []) [] [] [])
      as (lb & lw & ln & [Hperm Htb Htw _ Hok Hempty _ Hlb Hlw Hln] & _ & Hcover).
    { split; cbn [fst snd]; try done.
      - split; [apply NoDup_nil_2 | by intros ? ?%elem_of_nil].
      - by intros ? ?%elem_of_nil.
      - by intros ? ? ?%elem_of_nil.
      - by intros ? ?%elem_of_nil.
      - by intros ? ?%elem_of_nil.
      - by intros ? ?%elem_of_nil. }
    { done. }
    fold (calculateTerritory (size e) (board e)) in Htb, Htw.
    set (acc := foldl (territoryStep (size e) (board e)) (mkTerritory 0 0 0, [])
                      (allPoints (size e))) in *.
    assert (NoDup (lb ++ lw ++ ln)) as Hnd by (rewrite <- Hperm; apply Hok).
    apply NoDup_app in Hnd as (Hndb & _ & Hnd). apply NoDup_app in Hnd as (Hndw & _ & _).
    exists lb, lw.
    split; [done|]. split; [done|].
    split; [by rewrite Hbt|]. split; [by rewrite Hwt|].
    intros p.
    assert (∀ q, q ∈ lb ++ lw ++ ln → isOnBoard (size e) q.1 q.2 = true ∧
                                      getCell (board e) q.1 q.2 = Some EMPTY) as Hin.
    { intros q Hq. rewrite <- Hperm in Hq. split; [by apply Hok | by apply Hempty]. }
    assert (isOnBoard (size e) p.1 p.2 = true ∧ getCell (board e) p.1 p.2 = Some EMPTY →
            p ∈ lb ∨ p ∈ lw ∨ p ∈ ln) as Hcases.
    { intros [Hon Hcell].
      assert (p ∈ acc.2) as Hp by (apply Hcover; [by apply elem_of_allPoints | done]).
      rewrite Hperm, !elem_of_app in Hp. tauto. }
    split.
    + split.
      * intros Hp. split; [|by apply Hlb]. apply Hin. rewrite !elem_of_app. tauto.
      * intros (He & Hpb & Hpw). destruct (Hcases He) as [?|[Hp|Hp]]; [done| |].
        -- by destruct (Hlw p Hp).
        -- exfalso. apply Hpw. by apply (Hln p Hp).
    + split.
      * intros Hp. split; [|by apply Hlw]. apply Hin. rewrite !elem_of_app. tauto.
      * intros (He & Hpw & Hpb). destruct (Hcases He) as [Hp|[?|Hp]]; [|done|].
        -- by destruct (Hlb p Hp).
        -- exfalso. apply Hpb. by apply (Hln p Hp).
  - pose proof (winner_cases e) as Hcases. fold s in Hcases.
    assert (BLACK ≠ WHITE) as Hne by done.
    split; [|split; [|split; [|split]]].
    + split; [intros Hk; destruct Hcases as [[_ ?]|[? _]]; [done|congruence]|].
      intros Hlt. destruct Hcases as [[? _]|[_ Hgt]]; [done|].
      exfalso. eapply Qlt_irrefl, Qlt_trans; eauto.
    + split; [intros Hk; destruct Hcases as [[? _]|[_ ?]]; [congruence|done]|].
      intros Hlt. destruct Hcases as [[_ Hgt]|[? _]]; [|done].
      exfalso. eapply Qlt_irrefl, Qlt_trans; eauto.
    + by rewrite Hmar.
    + intros Hlt. rewrite Hmar. apply Qabs_pos.
      apply (proj1 (Qle_minus_iff _ _)). by apply Qlt_le_weak.
    + intros Hlt. rewrite Hmar, Qabs_Qminus. apply Qabs_pos.
      apply (proj1 (Qle_minus_iff _ _)). by apply Qlt_le_weak.
  - intros Hfull. pose proof (calculateTerritory_full _ _ Hwf Hfull) as Ht.
    rewrite Ht in Hbt, Hwt. simpl in Hbt, Hwt.
    rewrite Hb, Hw, Hbs, Hws, Hbt, Hwt, !Z.add_0_r. done.
  - intros e' Hsize Hboard. unfold s, calculateScore. by rewrite Hsize, Hboard.
Qed.

Lemma calculateScore_area_scoring_witness :
  (wf_board (size black_corner) (board black_corner) ∧
   sc_blackTerritory (calculateScore black_corner) = 3 ∧
   sc_whiteTerritory (calculateScore black_corner) = 0) ∧
  (wf_board (size full2) (board full2) ∧
   (EMPTY ∉ concat (board full2)) ∧
   (sc_black (calculateScore full2) == 3)%Q ∧
   (sc_white (calculateScore full2) == 1 + komi)%Q).
Proof.
  split.
  - assert (wf_board (size black_corner) (board black_corner)) as Hwf.
    { split; [done|]. split; [done|]. by repeat constructor. }
    split; [exact Hwf|].
    destruct (proj1 (proj2 (calculateScore_area_scoring black_corner Hwf)))
      as (lb & lw & Hndb & Hndw & Hb & Hw & Hsplit).
    { intros v Hv. apply list_elem_of_In in Hv. simpl in Hv.
      destruct Hv as [<-|[<-|[<-|[<-|[]]]]]; auto. }
    assert (∀ p : Point, ¬ touches 2 (board black_corner) p WHITE) as Hnowhite.
    { intros p (s & [nx ny] & _ & Hn & Hc).
      apply getNeighbors_onBoard, isOnBoard_spec in Hn. cbn [fst snd] in Hn, Hc.
      assert (nx = 0 ∨ nx = 1) as [-> | ->] by lia;
        assert (ny = 0 ∨ ny = 1) as [-> | ->] by lia; vm_compute in Hc; discriminate. }
    assert (∀ p : Point, p ∈ lb ↔ p ∈ [(0, 0); (1, 0); (1, 1)]) as Hmem.
    { intros p. rewrite (proj1 (Hsplit p)). split.
      - intros ([Hon Hc] & _). destruct p as [x y]. cbn [fst snd] in Hon, Hc.
        apply isOnBoard_spec in Hon. simpl in Hon.
        assert (x = 0 ∨ x = 1) as [-> | ->] by lia;
          assert (y = 0 ∨ y = 1) as [-> | ->] by lia;
          try (vm_compute in Hc; discriminate);
          rewrite !elem_of_cons; auto.
      - rewrite !elem_of_cons, elem_of_nil.
        intros [-> | [-> | [-> | []]]]; (split; [by split|]); (split; [|apply Hnowhite]).
        + exists (0, 0), (0, 1). split; [apply chain_here|]. split; [|reflexivity].
          apply elem_of_getNeighbors. split; [reflexivity|]. auto.
        + exists (1, 1), (0, 1). split; [|split; [|reflexivity]].
          * eapply chain_step; [apply chain_here| |reflexivity].
            apply elem_of_getNeighbors. split; [reflexivity|]. auto.
          * apply elem_of_getNeighbors. split; [reflexivity|]. auto.
        + exists (1, 1), (0, 1). split; [apply chain_here|]. split; [|reflexivity].
          apply elem_of_getNeighbors. split; [reflexivity|]. auto. }
    assert (length lb = 3%nat) as Hlen.
    { change 3%nat with (length [(0, 0); (1, 0); (1, 1)]).
      apply Permutation_length, NoDup_Permutation; [done| |done].
      repeat (apply NoDup_cons; split; [rewrite ?elem_of_cons, elem_of_nil; intros H;
                                         repeat destruct H as [H|H]; done|]).
      apply NoDup_nil_2. }
    split; [by rewrite Hb, Hlen|].
    rewrite Hw. destruct lw as [|q lw']; [done|]. exfalso.
    destruct (proj1 (proj2 (Hsplit q))) as (_ & Ht & _); [by left|].
    by apply (Hnowhite q).
  - assert (wf_board (size full2) (board full2)) as Hwf.
    { split; [done|]. split; [done|]. by repeat constructor. }
    assert (EMPTY ∉ concat (board full2)) as Hfull.
    { simpl. intros Hin. repeat (apply elem_of_cons in Hin as [Hin|Hin]; [done|]).
      by apply elem_of_nil in Hin. }
    split; [exact Hwf|]. split; [exact Hfull|].
    exact (proj1 (proj2 (proj2 (proj2 (calculateScore_area_scoring full2 Hwf)))) Hfull).
Defined.

(** ** The score accounts for every point *)

Lemma three_way_count (k : list Z) :
  (∀ v, v ∈ k → v = EMPTY ∨ v = BLACK ∨ v = WHITE) →
  (length (filter (λ v, v = EMPTY) k) + length (filter (λ v, v = BLACK) k)
   + length (filter (λ v, v = WHITE) k) = length k)%nat.
Proof.
  induction k as [|v k IH]; intros Hvals; [done|].
  rewrite !filter_cons.
  assert (v = EMPTY ∨ v = BLACK ∨ v = WHITE) as Hv by (apply Hvals; by left).
  specialize (IH (λ w Hw, Hvals w (list_elem_of_further _ _ _ Hw))).
  destruct Hv as [-> | [-> | ->]]; repeat case_decide; try done; simpl; lia.
Qed.

Lemma length_concat_grid size (b : Board) :
  wf_board size b → Z.of_nat (length (concat b)) = size * size.
Proof.
  intros (Hsize & Hlen & Hrows).
  assert (∀ rows : list (list Z),
            Forall (λ row, length row = Z.to_nat size) rows →
            length (concat rows) = (length rows * Z.to_nat size)%nat) as Hc.
  { induction 1 as [|row rows Hrow _ IH]; simpl; [done|].
    by rewrite length_app, IH, Hrow. }
  rewrite (Hc b Hrows), Hlen. nia.
Qed.

(** X23: on a valid grid the score of [calculateScore] accounts for every
    point once: black's stones and territory, white's stones and territory
    and the neutral points add up to the number of points of the grid; both
    areas are whole numbers that are not negative; with the komi of 7.5
    black is the winner exactly when its area is at least 8 more than
    white's, and the margin is at least half a point. *)
Theorem calculateScore_accounts_for_every_point e :
  valid_grid (size e) (board e) →
  let s := calculateScore e in
  let blackArea := sc_blackStones s + sc_blackTerritory s in
  let whiteArea := sc_whiteStones s + sc_whiteTerritory s in
  blackArea + whiteArea + t_neutral (calculateTerritory (size e) (board e))
    = size e * size e ∧
  0 ≤ blackArea ∧ 0 ≤ whiteArea ∧
  (sc_winner s = BLACK ↔ whiteArea + 8 ≤ blackArea) ∧
  (sc_winner s = WHITE ↔ blackArea ≤ whiteArea + 7) ∧
  (1 # 2 <= sc_margin s)%Q.
Proof.
  intros [Hwf Hvals] s blackArea whiteArea.
  destruct (score_fields e) as (Hb & Hw & Hbs & Hws & Hbt & Hwt & Hwin & Hmargin).
  fold s in Hb, Hw, Hbs, Hws, Hbt, Hwt, Hwin, Hmargin.
  pose proof (countStones_nonneg (size e) (board e)) as [? ?].
  pose proof (calculateTerritory_nonneg (size e) (board e)) as [? ?].
  pose proof (calculateTerritory_sum (size e) (board e) Hwf Hvals) as Hsum.
  pose proof (three_way_count (concat (board e)) Hvals) as Hthree.
  pose proof (length_concat_grid (size e) (board e) Hwf) as Hcells.
  assert (sc_black s = inject_Z blackArea) as Hb' by done.
  assert (sc_white s = (inject_Z whiteArea + komi)%Q) as Hw' by done.
  assert ((sc_white s < sc_black s)%Q ↔ whiteArea + 8 ≤ blackArea) as Hlt.
  { rewrite Hb', Hw'. unfold Qlt, Qplus, komi, inject_Z. simpl. lia. }
  split; [|split; [|split; [|split; [|split]]]].
  - unfold blackArea, whiteArea. rewrite Hbs, Hws, Hbt, Hwt.
    rewrite (countStones_wf (size e) (board e) Hwf). cbn [fst snd].
    unfold stonesOnBoard in *. lia.
  - unfold blackArea. lia.
  - unfold whiteArea. lia.
  - rewrite Hwin. destruct (Qlt_le_dec _ _) as [Hl|Hl].
    + split; [by intros _; apply Hlt | done].
    + split; [done|]. intros Hge%Hlt. exfalso. eapply Qlt_not_le; eauto.
  - rewrite Hwin. destruct (Qlt_le_dec _ _) as [Hl|Hl].
    + apply Hlt in Hl. split; [done|lia].
    + split; [|done]. intros _.
      destruct (decide (blackArea ≤ whiteArea + 7)) as [?|Hn]; [done|].
      exfalso. eapply Qlt_not_le; [|exact Hl]. apply Hlt. lia.
  - rewrite Hmargin, Hb', Hw'.
    destruct (decide (whiteArea + 8 ≤ blackArea)) as [Hge|Hless].
    + rewrite Qabs_pos.
      * unfold Qle, Qminus, Qplus, Qopp, komi, inject_Z. simpl. lia.
      * unfold Qle, Qminus, Qplus, Qopp, komi, inject_Z. simpl. lia.
    + rewrite Qabs_neg.
      * unfold Qle, Qminus, Qplus, Qopp, komi, inject_Z. simpl. lia.
      * unfold Qle, Qminus, Qplus, Qopp, komi, inject_Z. simpl. lia.
Qed.

Lemma calculateScore_accounts_for_every_point_witness :
  valid_grid (size full2) (board full2) ∧
  sc_winner (calculateScore full2) = WHITE ∧
  (1 # 2 <= sc_margin (calculateScore full2))%Q.
Proof.
  assert (valid_grid (size full2) (board full2)) as Hvalid.
  { split.
    - split; [simpl; lia|]. split; [reflexivity|]. by repeat constructor.
    - intros v Hv. apply list_elem_of_In in Hv. simpl in Hv.
      destruct Hv as [<-|[<-|[<-|[<-|[]]]]]; auto. }
  split; [exact Hvalid|].
  destruct (calculateScore_accounts_for_every_point full2 Hvalid)
    as (_ & _ & _ & _ & Hwhite & Hmargin).
  split; [|exact Hmargin]. apply Hwhite. vm_compute. discriminate.
Defined.

(** * The save slots and the game session *)

(** ** The save slots *)

Lemma loadGame_lookup (saves : list StorageManager.SaveData) j :
  0 ≤ j → StorageManager.loadGame saves j = saves !! Z.to_nat j.
Proof.
  intros Hj. unfold StorageManager.loadGame.
  rewrite (bool_decide_false (j < 0)) by lia. cbn [orb].
  case_bool_decide as Hlen; [|done].
  symmetry. apply lookup_ge_None. lia.
Qed.

Lemma loadGame_negative (saves : list StorageManager.SaveData) j :
  j < 0 → StorageManager.loadGame saves j = None.
Proof.
  intros Hj. unfold StorageManager.loadGame.
  by rewrite (bool_decide_true (j < 0)) by lia.
Qed.

Lemma landingSlot_nonneg saves slotIndex :
  0 ≤ landingSlot saves slotIndex.
Proof.
  pose proof (eq_refl : StorageManager.MAX_SAVES = 5%nat) as Hmax. unfold landingSlot.
  destruct (bool_decide (0 ≤ slotIndex)) eqn:H0; cbn [andb].
  - apply bool_decide_eq_true in H0. repeat case_bool_decide; lia.
  - repeat case_bool_decide; lia.
Qed.

Lemma saveGame_lands a saves gameState slotIndex now stamp :
  StorageManager.saveGame a saves gameState slotIndex now stamp
    !! Z.to_nat (landingSlot saves slotIndex)
  = Some (StorageManager.makeSaveData a gameState now stamp).
Proof.
  unfold StorageManager.saveGame, landingSlot. cbv zeta.
  destruct (bool_decide (0 ≤ slotIndex) && bool_decide (slotIndex < Z.of_nat (length saves)))
    eqn:Hin.
  - apply andb_true_iff in Hin as [H0%bool_decide_eq_true H1%bool_decide_eq_true].
    apply list_lookup_insert_eq. lia.
  - clear Hin.
    destruct (decide (StorageManager.MAX_SAVES ≤ length saves)%nat) as [Hfull|Hroom];
      [rewrite !(bool_decide_true (StorageManager.MAX_SAVES ≤ length saves)%nat) by done
      |rewrite !(bool_decide_false (StorageManager.MAX_SAVES ≤ length saves)%nat) by done].
    + unfold StorageManager.MAX_SAVES in Hfull.
      replace (Z.to_nat (Z.of_nat (length saves) - 1)) with (length (drop 1 saves))
        by (rewrite length_drop; lia).
      rewrite lookup_app_r by lia. by rewrite Nat.sub_diag.
    + rewrite Nat2Z.id.
      rewrite lookup_app_r by lia. by rewrite Nat.sub_diag.
Qed.

(** X15: [saveGame] of the save slots never lets the list grow past
    [MAX_SAVES] and never leaves it empty; the record is read back by
    [loadGame] at the slot where it landed; writing over an existing slot
    leaves every other slot as it was; a new save on a list with room leaves
    every existing slot as it was; a new save on a full list drops slot 0
    and moves every other record one slot down. *)
Theorem saveGame_slot_list a saves gameState slotIndex now stamp :
  let saved := StorageManager.saveGame a saves gameState slotIndex now stamp in
  let inRange := 0 ≤ slotIndex < Z.of_nat (length saves) in
  ((length saves ≤ StorageManager.MAX_SAVES)%nat →
   (length saved ≤ StorageManager.MAX_SAVES)%nat) ∧
  StorageManager.hasSaves saved = true ∧
  StorageManager.loadGame saved (landingSlot saves slotIndex)
    = Some (StorageManager.makeSaveData a gameState now stamp) ∧
  (inRange →
   length saved = length saves ∧
   ∀ j, j ≠ slotIndex → StorageManager.loadGame saved j = StorageManager.loadGame saves j) ∧
  (¬ inRange → (length saves < StorageManager.MAX_SAVES)%nat →
   length saved = S (length saves) ∧
   ∀ j, j ≠ Z.of_nat (length saves) →
        StorageManager.loadGame saved j = StorageManager.loadGame saves j) ∧
  (¬ inRange → (StorageManager.MAX_SAVES ≤ length saves)%nat →
   length saved = length saves ∧
   ∀ j, 0 ≤ j → j ≠ Z.of_nat (length saves) - 1 →
        StorageManager.loadGame saved j = StorageManager.loadGame saves (j + 1)).
Proof.
  intros saved inRange.
  assert (StorageManager.loadGame saved (landingSlot saves slotIndex)
          = Some (StorageManager.makeSaveData a gameState now stamp)) as Hland.
  { rewrite loadGame_lookup by apply landingSlot_nonneg.
    apply saveGame_lands. }
  assert (bool_decide (0 ≤ slotIndex) && bool_decide (slotIndex < Z.of_nat (length saves))
          = bool_decide inRange) as Hrange.
  { unfold inRange. apply eq_true_iff_eq.
    rewrite andb_true_iff, !bool_decide_eq_true. tauto. }
  assert (saved =
          if bool_decide inRange then
            <[Z.to_nat slotIndex := StorageManager.makeSaveData a gameState now stamp]> saves
          else (if bool_decide (StorageManager.MAX_SAVES ≤ length saves)%nat
                then drop 1 saves else saves)
                 ++ [StorageManager.makeSaveData a gameState now stamp]) as Hsaved.
  { unfold saved, StorageManager.saveGame. cbv zeta. by rewrite Hrange. }
  clearbody saved. subst saved. unfold StorageManager.hasSaves.
  pose proof (eq_refl : StorageManager.MAX_SAVES = 5%nat) as Hmax.
  destruct (decide inRange) as [Hin|Hout].
  - rewrite (bool_decide_true inRange) in * by done.
    unfold inRange in Hin. rewrite length_insert.
    split; [done|]. split; [apply bool_decide_eq_true; lia|].
    split; [exact Hland|]. split; [|split; intros []; unfold inRange; lia].
    intros _. split; [done|].
    intros j Hj. destruct (decide (j < 0)) as [Hneg|Hpos].
    + by rewrite !loadGame_negative.
    + rewrite !loadGame_lookup by lia.
      apply list_lookup_insert_ne. lia.
  - rewrite (bool_decide_false inRange) in * by done.
    destruct (decide (StorageManager.MAX_SAVES ≤ length saves)%nat) as [Hfull|Hroom].
    + rewrite (bool_decide_true (StorageManager.MAX_SAVES ≤ length saves)%nat) in * by done.
      assert (length (drop 1 saves ++ [StorageManager.makeSaveData a gameState now stamp])
              = length saves) as Hlen.
      { rewrite length_app, length_drop. simpl. lia. }
      rewrite Hlen.
      split; [done|]. split; [apply bool_decide_eq_true; lia|].
      split; [exact Hland|]. split; [done|]. split; [intros _ ?; lia|].
      intros _ _. split; [done|].
      intros j Hj Hlast. rewrite !loadGame_lookup by lia.
      destruct (decide (Z.to_nat j < length saves - 1)%nat).
      * rewrite lookup_app_l by (rewrite length_drop; lia).
        rewrite lookup_drop. f_equal. lia.
      * rewrite !lookup_ge_None_2; [done|lia|]. lia.
    + rewrite (bool_decide_false (StorageManager.MAX_SAVES ≤ length saves)%nat) in * by done.
      rewrite length_app. simpl.
      split; [lia|]. split; [apply bool_decide_eq_true; lia|].
      split; [exact Hland|]. split; [done|]. split; [|intros _ ?; lia].
      intros _ _. split; [lia|].
      intros j Hj. destruct (decide (j < 0)) as [Hneg|Hpos].
      * by rewrite !loadGame_negative.
      * rewrite !loadGame_lookup by lia.
        destruct (decide (Z.to_nat j < length saves)%nat).
        -- by rewrite lookup_app_l.
        -- rewrite !lookup_ge_None_2; [done|lia|]. rewrite length_app. simpl. lia.
Qed.

(** X16: [deleteSave] refuses a slot that does not exist and then leaves the
    list as it was; otherwise the list is one shorter, the slots below the
    deleted one keep their records and every later record moves one slot
    down. *)
Theorem deleteSave_closes_the_gap saves slotIndex :
  let r := StorageManager.deleteSave saves slotIndex in
  (r.1 = false ↔ StorageManager.loadGame saves slotIndex = None) ∧
  (r.1 = false → r.2 = saves) ∧
  (r.1 = true →
   S (length r.2) = length saves ∧
   ∀ j, StorageManager.loadGame r.2 j
        = if bool_decide (j < slotIndex) then StorageManager.loadGame saves j
          else StorageManager.loadGame saves (j + 1)).
Proof.
  intros r. unfold r, StorageManager.deleteSave.
  destruct (bool_decide (slotIndex < 0) || bool_decide (Z.of_nat (length saves) ≤ slotIndex))
    eqn:Hout; cbn [fst snd].
  - split; [|split; [done|done]].
    unfold StorageManager.loadGame. by rewrite Hout.
  - apply orb_false_iff in Hout as [H0%bool_decide_eq_false H1%bool_decide_eq_false].
    assert (is_Some (saves !! Z.to_nat slotIndex)) as Hsome
      by (apply lookup_lt_is_Some; lia).
    split; [|split; [done|]].
    + split; [done|]. rewrite loadGame_lookup by lia.
      intros Hnone. rewrite Hnone in Hsome. by destruct Hsome.
    + intros _. split.
      { rewrite length_delete by done. lia. }
      intros j. case_bool_decide as Hlt.
      * destruct (decide (j < 0)); [by rewrite !loadGame_negative|].
        rewrite !loadGame_lookup by lia.
        apply list_lookup_delete_lt. lia.
      * rewrite !loadGame_lookup by lia.
        rewrite list_lookup_delete_ge by lia. f_equal. lia.
Qed.

(** ** The session: the store follows the engine *)

Lemma makeMove_size e x y player : size (makeMove e x y player).2 = size e.
Proof.
  destruct (is_valid (isValidMove e x y player).1) eqn:Hv.
  - destruct (makeMove_valid_shape e x y player Hv) as (e7 & count & -> & Hsize & _).
    exact Hsize.
  - by rewrite makeMove_invalid.
Qed.

Lemma pass_size e : size (pass e).2 = size e.
Proof. by rewrite pass_unfold. Qed.

Lemma undoMove_size e : size (undoMove e).2 = size e.
Proof.
  unfold undoMove. case_bool_decide; [done|]. cbv zeta.
  by destruct (last _).
Qed.

Lemma session_ok_commit g e : session_ok g → session_ok (WeiqiGame.commit g e).
Proof.
  intros [Hm Hs]. unfold session_ok, WeiqiGame.commit, writeLogs. simpl.
  split; apply list_lookup_insert_eq; by eapply lookup_lt_Some.
Qed.

Lemma session_ok_new : session_ok WeiqiGame.new.
Proof. by split. Qed.

Lemma same_session_refl g : same_session g g.
Proof. by split. Qed.

Lemma same_session_trans g1 g2 g3 :
  same_session g1 g2 → same_session g2 g3 → same_session g1 g3.
Proof.
  intros [] []. split; try congruence.
  - intros r Hr. rewrite ss_other_moves1 by congruence. by apply ss_other_moves0.
  - intros r Hr. rewrite ss_other_snaps1 by congruence. by apply ss_other_snaps0.
Qed.

Lemma same_session_commit g e :
  size e = size (WeiqiGame.rules g) → same_session g (WeiqiGame.commit g e).
Proof.
  intros Hsize. split; try done.
  - intros r Hr. simpl. by apply list_lookup_insert_ne.
  - intros r Hr. simpl. by apply list_lookup_insert_ne.
Qed.

Lemma perform_same_session g a : same_session g (perform g a).
Proof.
  destruct a as [x y| |]; simpl.
  - unfold WeiqiGame.handleBoardClick.
    destruct (_ && _); [apply same_session_refl|].
    apply same_session_commit, makeMove_size.
  - apply same_session_commit, pass_size.
  - unfold WeiqiGame.undoMove. destruct (String.eqb _ _).
    + eapply same_session_trans; [apply same_session_commit, undoMove_size|].
      apply same_session_commit, undoMove_size.
    + apply same_session_commit, undoMove_size.
Qed.

Lemma perform_session_ok g a : session_ok g → session_ok (perform g a).
Proof.
  intros Hok. destruct a as [x y| |]; simpl.
  - unfold WeiqiGame.handleBoardClick.
    destruct (_ && _); [done|]. by apply session_ok_commit.
  - by apply session_ok_commit.
  - unfold WeiqiGame.undoMove. destruct (String.eqb _ _).
    + by apply session_ok_commit, session_ok_commit.
    + by apply session_ok_commit.
Qed.

Lemma performs_same_session g actions : same_session g (foldl perform g actions).
Proof.
  revert g. induction actions as [|a actions IH]; intros g; simpl.
  - apply same_session_refl.
  - eapply same_session_trans; [apply perform_same_session|apply IH].
Qed.

Lemma performs_session_ok g actions :
  session_ok g → session_ok (foldl perform g actions).
Proof.
  revert g. induction actions as [|a actions IH]; intros g Hok; simpl; [done|].
  by apply IH, perform_session_ok.
Qed.

(** [loadGame] on a slot whose record holds the arrays [rm] and [rs]. *)
Lemma loadGame_rules g slot data :
  StorageManager.loadGame (WeiqiGame.storage g) slot = Some data →
  WeiqiGame.rules (WeiqiGame.loadGame g slot)
  = mkEngine (size (WeiqiGame.rules g)) (StorageManager.sd_board data)
             (StorageManager.sd_currentPlayer data) (StorageManager.sd_capturedBlack data)
             (StorageManager.sd_capturedWhite data) (StorageManager.sd_lastMove data)
             (StorageManager.sd_koPoint data)
             (readMoves (WeiqiGame.arrays g) (StorageManager.sd_moveHistory data))
             (readSnaps (WeiqiGame.arrays g) (StorageManager.sd_boardHistory data)).
Proof.
  intros Hload. unfold WeiqiGame.loadGame. rewrite Hload.
  unfold WeiqiGame.restoreGameState, loadState. simpl. by rewrite copyBoard_id.
Qed.

Lemma saveGame_loadGame_data g slotIndex now stamp :
  StorageManager.loadGame (WeiqiGame.storage (WeiqiGame.saveGame g slotIndex now stamp))
                          (landingSlot (WeiqiGame.storage g) slotIndex)
  = Some (StorageManager.makeSaveData (WeiqiGame.arrays g) (WeiqiGame.getFullGameState g)
                                      now stamp).
Proof.
  simpl. rewrite loadGame_lookup by apply landingSlot_nonneg.
  apply saveGame_lands.
Qed.

(** The engine that [loadGame] installs from the record just saved, when the
    record's two arrays hold the logs of [logs]. *)
Lemma loadGame_saved_rules g g' slotIndex now stamp logs :
  session_ok g →
  StorageManager.loadGame (WeiqiGame.storage g') (landingSlot (WeiqiGame.storage g) slotIndex)
  = Some (StorageManager.makeSaveData (WeiqiGame.arrays g) (WeiqiGame.getFullGameState g)
                                      now stamp) →
  size (WeiqiGame.rules g') = size (WeiqiGame.rules g) →
  moveLogs (WeiqiGame.arrays g') !! WeiqiGame.rules_moveHistory g = Some (moveHistory logs) →
  snapLogs (WeiqiGame.arrays g') !! WeiqiGame.rules_boardHistory g = Some (boardHistory logs) →
  WeiqiGame.rules (WeiqiGame.loadGame g' (landingSlot (WeiqiGame.storage g) slotIndex))
  = with_logs_of (WeiqiGame.rules g) logs.
Proof.
  intros Hok Hload Hsize Hm Hs.
  rewrite (loadGame_rules _ _ _ Hload). simpl.
  unfold readMoves, readSnaps. rewrite Hm, Hs, Hsize, copyBoard_id. simpl.
  by destruct (WeiqiGame.rules g).
Qed.

(** X17: in a game whose store is in step with the engine, [saveGame]
    followed at once by [loadGame] of the slot where the record landed
    gives back the whole engine, logs included, and the list of slots is
    the one after the save; the mode and the level come back as they were
    unless they were the empty string, the colour of the move selector
    unless it was 0; but the record has no [playerColor], so the human
    always comes back as black, and one who played white against the move
    selector can no longer place a stone on white's turn. *)
Theorem saveGame_loadGame_round_trip g slotIndex now stamp :
  session_ok g →
  let saved := WeiqiGame.saveGame g slotIndex now stamp in
  let loaded := WeiqiGame.loadGame saved (landingSlot (WeiqiGame.storage g) slotIndex) in
  WeiqiGame.rules loaded = WeiqiGame.rules g ∧
  session_ok loaded ∧
  WeiqiGame.storage loaded = WeiqiGame.storage saved ∧
  WeiqiGame.gameMode loaded = orElse (WeiqiGame.gameMode g) WeiqiGame.PVP ∧
  WeiqiGame.aiLevel loaded = orElse (WeiqiGame.aiLevel g) "medium"%string ∧
  WeiqiGame.aiColor loaded
    = (if bool_decide (WeiqiGame.aiColor g = 0) then WHITE else WeiqiGame.aiColor g) ∧
  WeiqiGame.playerColor loaded = BLACK ∧
  (WeiqiGame.gameMode g = WeiqiGame.PVE → WeiqiGame.playerColor g = WHITE →
   currentPlayer (WeiqiGame.rules g) = WHITE →
   ∀ x y, WeiqiGame.handleBoardClick loaded x y = loaded).
Proof.
  intros Hok saved loaded.
  pose proof (saveGame_loadGame_data g slotIndex now stamp) as Hload.
  fold saved in Hload.
  assert (WeiqiGame.rules loaded = WeiqiGame.rules g) as Hrules.
  { unfold loaded.
    rewrite (loadGame_saved_rules g saved slotIndex now stamp (WeiqiGame.rules g));
      [by destruct (WeiqiGame.rules g)|done|done|done|apply Hok|apply Hok]. }
  assert (loaded = WeiqiGame.restoreGameState saved
            (StorageManager.makeSaveData (WeiqiGame.arrays g) (WeiqiGame.getFullGameState g)
                                         now stamp)) as Hloaded.
  { unfold loaded, WeiqiGame.loadGame. by rewrite Hload. }
  split; [exact Hrules|].
  split.
  { unfold session_ok. rewrite Hrules. rewrite Hloaded. simpl. exact Hok. }
  rewrite Hloaded in *.
  repeat split; try done.
  intros Hmode Hcolor Hturn x y.
  unfold WeiqiGame.handleBoardClick. rewrite Hrules, Hturn.
  cbn [WeiqiGame.restoreGameState WeiqiGame.gameMode WeiqiGame.playerColor
       StorageManager.sd_gameMode StorageManager.makeSaveData WeiqiGame.getFullGameState
       fg_gameMode].
  by rewrite Hmode.
Qed.

(** X18: the record of a save holds the engine's two arrays, not copies.  After
    a save, any number of clicks on the board, passes and take-backs, and
    then [loadGame] of the slot where the record landed, the engine has the
    grid, the player to move, the counters, the last move and the ko point
    of the moment of the save, but the move log and the snapshot history of
    the moment of the load.  So when the position has changed in between,
    the newest snapshot is no longer the restored position. *)
Theorem loadGame_after_play_keeps_later_logs g slotIndex now stamp actions :
  session_ok g →
  let saved := WeiqiGame.saveGame g slotIndex now stamp in
  let later := foldl perform saved actions in
  let loaded := WeiqiGame.loadGame later (landingSlot (WeiqiGame.storage g) slotIndex) in
  WeiqiGame.rules loaded = with_logs_of (WeiqiGame.rules g) (WeiqiGame.rules later) ∧
  (history_ok (WeiqiGame.rules later) →
   snapshot_of (WeiqiGame.rules later) ≠ snapshot_of (WeiqiGame.rules g) →
   ¬ history_ok (WeiqiGame.rules loaded)).
Proof.
  intros Hok saved later loaded.
  pose proof (performs_same_session saved actions) as Hsame. fold later in Hsame.
  pose proof (performs_session_ok saved actions Hok) as [Hm Hs]. fold later in Hm, Hs.
  destruct Hsame as [Hrm Hrs Hstore Hsize _ _ _].
  assert (WeiqiGame.rules loaded = with_logs_of (WeiqiGame.rules g) (WeiqiGame.rules later))
    as Hrules.
  { unfold loaded. apply (loadGame_saved_rules g later slotIndex now stamp); try done.
    - rewrite Hstore. apply saveGame_loadGame_data.
    - rewrite Hrm in Hm. exact Hm.
    - rewrite Hrs in Hs. exact Hs. }
  split; [exact Hrules|].
  intros Hlater Hdiff Hloaded. apply Hdiff.
  unfold history_ok in *. rewrite Hrules in Hloaded.
  assert (boardHistory (with_logs_of (WeiqiGame.rules g) (WeiqiGame.rules later))
          = boardHistory (WeiqiGame.rules later)) as Hlog by done.
  assert (snapshot_of (with_logs_of (WeiqiGame.rules g) (WeiqiGame.rules later))
          = snapshot_of (WeiqiGame.rules g)) as Hsnap by done.
  rewrite Hlog, Hlater, Hsnap in Hloaded. congruence.
Qed.

(** X19: [startGame] gives the engine new arrays, so the arrays of a saved
    record stop following the game there: after a save, some play, a new
    game and more play, [loadGame] of the slot restores the position of the
    moment of the save with the two logs as they stood when the new game was
    started. *)
Theorem startGame_freezes_saved_logs g slotIndex now stamp actions mode actions' :
  session_ok g →
  let saved := WeiqiGame.saveGame g slotIndex now stamp in
  let later := foldl perform saved actions in
  let again := foldl perform (WeiqiGame.startGame later mode) actions' in
  let loaded := WeiqiGame.loadGame again (landingSlot (WeiqiGame.storage g) slotIndex) in
  WeiqiGame.rules loaded = with_logs_of (WeiqiGame.rules g) (WeiqiGame.rules later).
Proof.
  intros Hok saved later again loaded.
  pose proof (performs_same_session saved actions) as Hsame. fold later in Hsame.
  pose proof (performs_session_ok saved actions Hok) as [Hm Hs]. fold later in Hm, Hs.
  destruct Hsame as [Hrm Hrs Hstore Hsize _ _ _].
  pose proof (performs_same_session (WeiqiGame.startGame later mode) actions') as Hsame'.
  fold again in Hsame'.
  destruct Hsame' as [_ _ Hstore' Hsize' _ Hmoves' Hsnaps'].
  change (WeiqiGame.rules_moveHistory saved) with (WeiqiGame.rules_moveHistory g) in Hrm.
  change (WeiqiGame.rules_boardHistory saved) with (WeiqiGame.rules_boardHistory g) in Hrs.
  rewrite Hrm in Hm. rewrite Hrs in Hs.
  pose proof (lookup_lt_Some _ _ _ Hm) as Hltm.
  pose proof (lookup_lt_Some _ _ _ Hs) as Hlts.
  unfold loaded. apply (loadGame_saved_rules g again slotIndex now stamp); try done.
  - rewrite Hstore'. change (WeiqiGame.storage (WeiqiGame.startGame later mode))
      with (WeiqiGame.storage later). rewrite Hstore. apply saveGame_loadGame_data.
  - rewrite Hsize'. simpl. exact Hsize.
  - rewrite Hmoves' by (simpl; lia). simpl. by rewrite lookup_app_l.
  - rewrite Hsnaps' by (simpl; lia). simpl. by rewrite lookup_app_l.
Qed.

Lemma session_ok_white_human : session_ok white_human.
Proof. apply session_ok_commit. split; vm_compute; reflexivity. Qed.

Lemma saveGame_loadGame_round_trip_witness :
  session_ok white_human ∧
  WeiqiGame.playerColor white_human = WHITE ∧
  currentPlayer (WeiqiGame.rules white_human) = WHITE ∧
  let loaded :=
    WeiqiGame.loadGame (WeiqiGame.saveGame white_human (-1) 0 "now"%string)
                       (landingSlot (WeiqiGame.storage white_human) (-1)) in
  WeiqiGame.rules loaded = WeiqiGame.rules white_human ∧
  WeiqiGame.playerColor loaded = BLACK ∧
  ∀ x y, WeiqiGame.handleBoardClick loaded x y = loaded.
Proof.
  split; [exact session_ok_white_human|].
  split; [vm_compute; reflexivity|]. split; [vm_compute; reflexivity|].
  destruct (saveGame_loadGame_round_trip white_human (-1) 0 "now"%string
              session_ok_white_human)
    as (Hrules & _ & _ & _ & _ & _ & Hcolor & Hclick).
  split; [exact Hrules|]. split; [exact Hcolor|].
  apply Hclick; vm_compute; reflexivity.
Defined.

Lemma loadGame_after_play_keeps_later_logs_witness :
  session_ok WeiqiGame.new ∧
  let saved := WeiqiGame.saveGame WeiqiGame.new (-1) 0 "now"%string in
  let later := foldl perform saved [Click 3 3] in
  let loaded := WeiqiGame.loadGame later (landingSlot (WeiqiGame.storage WeiqiGame.new) (-1)) in
  WeiqiGame.rules loaded
  = with_logs_of (WeiqiGame.rules WeiqiGame.new) (WeiqiGame.rules later) ∧
  ¬ history_ok (WeiqiGame.rules loaded).
Proof.
  split; [exact session_ok_new|].
  destruct (loadGame_after_play_keeps_later_logs WeiqiGame.new (-1) 0 "now"%string
              [Click 3 3] session_ok_new) as [Hrules Hbroken].
  split; [exact Hrules|]. apply Hbroken.
  - unfold history_ok. vm_compute. reflexivity.
  - intros Hsame. apply (f_equal snap_currentPlayer) in Hsame.
    vm_compute in Hsame. discriminate Hsame.
Defined.

Lemma startGame_freezes_saved_logs_witness :
  session_ok WeiqiGame.new ∧
  let saved := WeiqiGame.saveGame WeiqiGame.new (-1) 0 "now"%string in
  let later := foldl perform saved [Click 3 3] in
  let again := foldl perform (WeiqiGame.startGame later WeiqiGame.PVP) [Click 4 4] in
  let loaded := WeiqiGame.loadGame again (landingSlot (WeiqiGame.storage WeiqiGame.new) (-1)) in
  WeiqiGame.rules loaded
  = with_logs_of (WeiqiGame.rules WeiqiGame.new) (WeiqiGame.rules later).
Proof.
  split; [exact session_ok_new|].
  exact (startGame_freezes_saved_logs WeiqiGame.new (-1) 0 "now"%string
           [Click 3 3] WeiqiGame.PVP [Click 4 4] session_ok_new).
Defined.

(** ** Taking back against the move selector *)

Lemma undoMove_of_makeMove e x y player :
  is_valid (isValidMove e x y player).1 = true →
  (history_ok e → undoMove (makeMove e x y player).2 = (UndoOk, e)) ∧
  ((undoMove (makeMove e x y player).2).2 = e → history_ok e).
Proof.
  intros Hv.
  destruct (makeMove_valid_shape e x y player Hv) as (e7 & c & Hmove & Hs & Hm & Hb & _).
  apply (undoMove_after_push e _ (Placed x y player c) (snapshot_of e7));
    rewrite Hmove; cbn [snd]; [done|done|].
  rewrite saveBoardState_unfold. simpl. by rewrite Hb.
Qed.

(** X20: the undo button calls the engine's [undoMove] twice when the game
    is against the move selector and once otherwise.  After two accepted
    moves it gives back, in a game between two humans, the engine between
    the two moves; against the move selector it gives back the engine
    before the first of them exactly when the newest snapshot of that
    engine was its position, as in a new game and after every legal
    [makeMove] and every [pass], and not, for one, after a save slot was
    loaded following further play.  The store stays in step with the
    engine. *)
Theorem undoMove_takes_back_the_reply_too g e x1 y1 p1 x2 y2 p2 :
  session_ok g →
  is_valid (isValidMove e x1 y1 p1).1 = true →
  is_valid (isValidMove (makeMove e x1 y1 p1).2 x2 y2 p2).1 = true →
  WeiqiGame.rules g = (makeMove (makeMove e x1 y1 p1).2 x2 y2 p2).2 →
  let undone := WeiqiGame.undoMove g in
  (String.eqb (WeiqiGame.gameMode g) WeiqiGame.PVE = false →
   WeiqiGame.rules undone = (makeMove e x1 y1 p1).2) ∧
  (String.eqb (WeiqiGame.gameMode g) WeiqiGame.PVE = true →
   (WeiqiGame.rules undone = e ↔ history_ok e)) ∧
  session_ok undone.
Proof.
  intros Hg Hv1 Hv2 Hrules undone.
  destruct (undoMove_of_makeMove e x1 y1 p1 Hv1) as [Hu1 Hneeds].
  destruct (undoMove_of_makeMove _ x2 y2 p2 Hv2) as [Hu2 _].
  specialize (Hu2 (makeMove_history_ok e x1 y1 p1 Hv1)).
  subst undone. unfold WeiqiGame.undoMove.
  destruct (String.eqb (WeiqiGame.gameMode g) WeiqiGame.PVE).
  - split; [done|]. split; [|by apply session_ok_commit, session_ok_commit].
    intros _. cbn [WeiqiGame.commit WeiqiGame.rules]. rewrite Hrules, Hu2. cbn [snd].
    split; [exact Hneeds|]. intros Hok. by rewrite (Hu1 Hok).
  - split; [|split; [done|by apply session_ok_commit]].
    intros _. cbn [WeiqiGame.commit WeiqiGame.rules]. by rewrite Hrules, Hu2.
Qed.

Lemma session_ok_two_moves_in : session_ok two_moves_in.
Proof. apply session_ok_commit, session_ok_commit. split; vm_compute; reflexivity. Qed.

Lemma undoMove_takes_back_the_reply_too_witness :
  session_ok two_moves_in ∧ history_ok (init BOARD_SIZE) ∧
  WeiqiGame.rules (WeiqiGame.undoMove two_moves_in) = init BOARD_SIZE.
Proof.
  split; [exact session_ok_two_moves_in|]. split; [apply saveBoardState_ok|].
  refine (proj2 (proj1 (proj2 (undoMove_takes_back_the_reply_too two_moves_in
                   (init BOARD_SIZE) 3 3 BLACK 15 15 WHITE session_ok_two_moves_in
                   _ _ _)) _) (saveBoardState_ok _)); vm_compute; reflexivity.
Defined.

(** ** The engines of a session *)

Lemma session_sound_commit g e :
  session_sound g → reachable e → session_sound (WeiqiGame.commit g e).
Proof.
  intros [Hreach Hok Hlive Hlen Hstore Hslots] He.
  split; cbn [WeiqiGame.commit WeiqiGame.rules WeiqiGame.arrays WeiqiGame.storage
              WeiqiGame.rules_moveHistory WeiqiGame.rules_boardHistory
              writeLogs moveLogs snapLogs].
  - done.
  - by apply session_ok_commit.
  - done.
  - by rewrite !length_insert.
  - intros i m s [(Hi & <- & _)|[Hi Hm]]%list_lookup_insert_Some
                 [(Hj & <- & _)|[Hj Hs]]%list_lookup_insert_Some.
    + by exists e.
    + congruence.
    + congruence.
    + by eapply Hstore.
  - intros d Hd. destruct (Hslots d Hd) as (? & ? & ?).
    split; [done|]. split; [|done]. cbn [writeLogs moveLogs]. by rewrite length_insert.
Qed.

Lemma session_sound_new : session_sound WeiqiGame.new.
Proof.
  split.
  - apply reach_init.
  - apply session_ok_new.
  - done.
  - done.
  - intros [|i] m s; simpl; [|done]. intros [= <-] [= <-].
    exists (init BOARD_SIZE). split; [apply reach_init | done].
  - by intros d ?%elem_of_nil.
Qed.

Lemma session_sound_startGame g mode :
  session_sound g → session_sound (WeiqiGame.startGame g mode).
Proof.
  intros [Hreach Hok Hlive Hlen Hstore Hslots].
  split; cbn [WeiqiGame.startGame WeiqiGame.rules WeiqiGame.arrays WeiqiGame.storage
              WeiqiGame.rules_moveHistory WeiqiGame.rules_boardHistory
              allocLogs moveLogs snapLogs].
  - apply reach_init.
  - unfold session_ok. simpl. split; by rewrite lookup_app_r, Nat.sub_diag by lia.
  - done.
  - rewrite !length_app. simpl. lia.
  - intros i m s Hm Hs.
    destruct (decide (i < length (moveLogs (WeiqiGame.arrays g)))%nat) as [Hlt|Hge].
    + rewrite lookup_app_l in Hm by done. rewrite lookup_app_l in Hs by lia.
      by eapply Hstore.
    + rewrite lookup_app_r in Hm by lia. rewrite lookup_app_r in Hs by lia.
      rewrite Hlen in Hm.
      destruct (i - length (snapLogs (WeiqiGame.arrays g)))%nat; [|done].
      simpl in Hm, Hs. injection Hm as <-. injection Hs as <-.
      exists (init (size (WeiqiGame.rules g))). split; [apply reach_init | done].
  - intros d Hd. destruct (Hslots d Hd) as (? & ? & ?).
    split; [done|]. split; [|done]. cbn [allocLogs moveLogs]. rewrite length_app. lia.
Qed.

Lemma session_sound_fields g mode color level player selector :
  session_sound g →
  session_sound (WeiqiGame.mkGame (WeiqiGame.arrays g) (WeiqiGame.rules g)
                   (WeiqiGame.rules_moveHistory g) (WeiqiGame.rules_boardHistory g)
                   mode color level player selector (WeiqiGame.storage g)).
Proof. by intros []. Qed.

Lemma session_sound_perform g a : session_sound g → session_sound (perform g a).
Proof.
  intros Hg. pose proof (sound_reach g Hg) as Hreach.
  destruct a as [x y| |]; simpl.
  - unfold WeiqiGame.handleBoardClick. destruct (_ && _); [done|].
    by apply session_sound_commit, reach_makeMove.
  - by apply session_sound_commit, reach_pass.
  - unfold WeiqiGame.undoMove. destruct (String.eqb _ _).
    + apply session_sound_commit; [by apply session_sound_commit, reach_undoMove|].
      by apply reach_undoMove, reach_undoMove.
    + by apply session_sound_commit, reach_undoMove.
Qed.

Lemma session_sound_saveGame g slotIndex now stamp :
  session_sound g → session_sound (WeiqiGame.saveGame g slotIndex now stamp).
Proof.
  intros [Hreach Hok Hlive Hlen Hstore Hslots].
  split; cbn [WeiqiGame.saveGame WeiqiGame.rules WeiqiGame.arrays WeiqiGame.storage
              WeiqiGame.rules_moveHistory WeiqiGame.rules_boardHistory]; try done.
  set (d0 := StorageManager.makeSaveData (WeiqiGame.arrays g)
               (WeiqiGame.getFullGameState g) now stamp).
  assert (slot_sound (WeiqiGame.arrays g) d0) as Hd0.
  { split; [exact Hlive|]. split.
    - destruct Hok as [Hm _]. by apply lookup_lt_Some in Hm.
    - exists (WeiqiGame.rules g). by repeat split. }
  intros d Hd. unfold StorageManager.saveGame in Hd. fold d0 in Hd. cbv zeta in Hd.
  destruct (_ && _).
  - apply list_elem_of_lookup in Hd as [j Hj].
    apply list_lookup_insert_Some in Hj as [(_ & <- & _)|[_ Hj]]; [done|].
    by eapply Hslots, list_elem_of_lookup_2.
  - apply elem_of_app in Hd as [Hd| ->%list_elem_of_singleton]; [|done].
    apply Hslots. destruct (bool_decide _); [|done].
    apply list_elem_of_lookup in Hd as [j Hj]. rewrite lookup_drop in Hj.
    by eapply list_elem_of_lookup_2.
Qed.

Lemma session_sound_loadGame g slotIndex :
  session_sound g → session_sound (WeiqiGame.loadGame g slotIndex).
Proof.
  intros Hg. pose proof Hg as [Hreach Hok Hlive Hlen Hstore Hslots].
  unfold WeiqiGame.loadGame.
  destruct (StorageManager.loadGame (WeiqiGame.storage g) slotIndex) as [d|] eqn:Hload;
    [|done].
  assert (d ∈ WeiqiGame.storage g) as Hd.
  { unfold StorageManager.loadGame in Hload. destruct (_ || _); [done|].
    by eapply list_elem_of_lookup_2. }
  destruct (Hslots d Hd) as (Hpair & Hlt & saved & Hsaved & Hb & Hp & Hcb & Hcw & Hlm & Hko).
  destruct (lookup_lt_is_Some_2 (moveLogs (WeiqiGame.arrays g))
              (StorageManager.sd_moveHistory d) Hlt) as [m Hm].
  destruct (lookup_lt_is_Some_2 (snapLogs (WeiqiGame.arrays g))
              (StorageManager.sd_boardHistory d)) as [s Hs]; [rewrite <- Hpair; lia|].
  destruct (Hstore (StorageManager.sd_moveHistory d) m s Hm) as (later & Hlater & -> & ->);
    [by rewrite Hpair|].
  assert (WeiqiGame.rules (WeiqiGame.restoreGameState g d)
          = loadState (WeiqiGame.rules g) (slotRecord saved later)) as Hrules.
  { unfold WeiqiGame.restoreGameState, loadState, slotRecord, getBoardState,
      readMoves, readSnaps. simpl. by rewrite Hm, Hs, Hb, Hp, Hcb, Hcw, Hlm, Hko. }
  split.
  - rewrite Hrules. by apply reach_loadState.
  - unfold session_ok. rewrite Hrules. simpl. by rewrite Hm, Hs.
  - done.
  - done.
  - done.
  - done.
Qed.

(** X24: through a whole game session, that is from the constructor on a
    device without a saved list through any sequence of new games, choices
    of the selection screen, clicks on the board, replies of the move
    selector, passes, take-backs, saves and loads, the engine is a
    reachable one and the store is in step with it. *)
Theorem session_engines_are_reachable (events : list SessionEvent) :
  reachable (WeiqiGame.rules (foldl handle WeiqiGame.new events)) ∧
  session_ok (foldl handle WeiqiGame.new events).
Proof.
  enough (session_sound (foldl handle WeiqiGame.new events)) as [? ? _ _ _ _] by done.
  generalize session_sound_new. generalize WeiqiGame.new.
  induction events as [|ev events IH]; intros g Hg; simpl; [done|].
  apply IH. destruct ev as [a|move|mode|buttonId|slotIndex now stamp|slotIndex]; simpl.
  - by apply session_sound_perform.
  - pose proof (sound_reach g Hg) as Hreach. unfold WeiqiGame.makeAIMove.
    destruct (negb _); [done|]. destruct (WeiqiGame.ai g); [|done].
    destruct move as [m|].
    + by apply session_sound_commit, reach_makeMove.
    + by apply session_sound_commit, reach_pass.
  - by apply session_sound_startGame.
  - unfold WeiqiGame.handleAISelectClick.
    repeat (destruct (_ || _) || destruct (String.eqb _ _));
      try done; try (by apply session_sound_fields);
      by apply session_sound_startGame, session_sound_fields.
  - by apply session_sound_saveGame.
  - by apply session_sound_loadGame.
Qed.
